(** * gdwg::graph -- a generic directed weighted graph

    A shallow embedding of [gdwg_graph.h]: the node store
    [std::set<std::shared_ptr<N>, compare_shared_ptr>], the edge store
    [std::set<edge_tuple, compare_edges_set>], the edge class hierarchy and
    the member functions of [gdwg::graph<N, E>], followed by the properties
    the specification states about them.

    Shared pointers are addresses into a memory of node cells and edge
    cells; [std::make_shared] takes the next free address, and no address
    is given out twice. The header compares addresses only of objects its
    stores still hold, so that an allocator which hands a freed address out
    again behaves no differently. A [std::set] is the list of its elements
    in iteration order, and its member functions walk that list with the
    comparator the way the search tree does (lower bound first, then the
    equivalence test). A member function that may throw returns an
    [outcome] next to the graph and the memory it leaves.

    The file has four parts: the program, the vocabulary of the
    statements, the lemmas and theorems about the specification, and
    further properties of the member functions. *)

From Stdlib Require Import Ascii String DecimalString.
From Stdlib Require Import List Bool Arith PeanoNat Lia ZArith.
From Stdlib Require Import Sorted Permutation.
Import ListNotations.

Set Implicit Arguments.

(** * Part 1: the program *)

(** ** Orderable and printable template arguments *)

(** What the header asks of [N] and of [E]: a three-way comparison that is
    a strict total order ([operator<], [operator==] and [operator<=>] are
    read off it), and [operator<<] into a stream. The branch of [edge_comp]
    for floating-point weights maps the partial ordering onto the same
    three results; weights here are totally ordered. *)
Class Ord (A : Type) := {
  cmp : A -> A -> comparison;
  cmp_eq : forall x y, cmp x y = Eq -> x = y;
  cmp_refl : forall x, cmp x x = Eq;
  cmp_antisym : forall x y, cmp y x = CompOpp (cmp x y);
  cmp_trans : forall x y z, cmp x y = Lt -> cmp y z = Lt -> cmp x z = Lt
}.

Class Show (A : Type) := { show : A -> string }.

Definition ltb {A} `{Ord A} (x y : A) : bool :=
  match cmp x y with Lt => true | _ => false end.

Definition eqb {A} `{Ord A} (x y : A) : bool :=
  match cmp x y with Eq => true | _ => false end.

(** [std::optional<E>::operator==]. *)
Definition opt_eqb {A} `{Ord A} (x y : option A) : bool :=
  match x, y with
  | None, None => true
  | Some a, Some b => eqb a b
  | _, _ => false
  end.

(** The order of [std::optional]: no value before any value. *)
Definition cmp_option {A} `{Ord A} (x y : option A) : comparison :=
  match x, y with
  | None, None => Eq
  | None, Some _ => Lt
  | Some _, None => Gt
  | Some a, Some b => cmp a b
  end.

(** ** std::set over a comparator *)

Module StdSet.
Section Ops.
Variables A K : Type.
  (** A transparent comparator: element against key and key against
      element. *)
Variable lt_ak : A -> K -> bool.
Variable lt_ka : K -> A -> bool.

  (** [find]: the first element not less than the key, if the key is not
      less than it either. *)
Fixpoint find (k : K) (s : list A) : option A :=
    match s with
    | [] => None
    | y :: s' =>
        if lt_ak y k then find k s'
        else if lt_ka k y then None else Some y
    end.

Definition contains (k : K) (s : list A) : bool :=
    match find k s with Some _ => true | None => false end.

  (** [erase(key)]. *)
Fixpoint erase (k : K) (s : list A) : list A :=
    match s with
    | [] => []
    | y :: s' =>
        if lt_ak y k then y :: erase k s'
        else if lt_ka k y then s else s'
    end.
End Ops.

Section Insert.
Variable A : Type.
Variable less : A -> A -> bool.

  (** [insert(value)]: the new sequence, and whether the value went in. *)
Fixpoint insert (x : A) (s : list A) : list A * bool :=
    match s with
    | [] => ([x], true)
    | y :: s' =>
        if less y x then
          let (r, b) := insert x s' in (y :: r, b)
        else if less x y then (x :: s, true) else (s, false)
    end.

  (** [insert(first, last)]. *)
Definition insert_range (xs : list A) (s : list A) : list A :=
    fold_left (fun acc x => fst (insert x acc)) xs s.

  (** [erase(iterator)] and [erase(first, last)], an iterator being the
      position it stands at. *)
Fixpoint erase_at (i : nat) (s : list A) : list A :=
    match i, s with
    | _, [] => []
    | O, _ :: s' => s'
    | S i', y :: s' => y :: erase_at i' s'
    end.

Definition erase_span (i j : nat) (s : list A) : list A :=
    firstn i s ++ skipn j s.

  (** [std::ranges::find_if]: the position of the first element the
      predicate accepts, the length (the end position) if there is none. *)
Fixpoint find_if (p : A -> bool) (s : list A) : nat :=
    match s with
    | [] => 0
    | y :: s' => if p y then 0 else S (find_if p s')
    end.
End Insert.
End StdSet.

(** ** Results of member functions that may throw *)

Inductive outcome (A : Type) : Type :=
| Ok (a : A)
| Throw (what : string).
Arguments Ok {A} a.
Arguments Throw {A} what.

Definition ptr := nat.

(** The newline character. *)
Definition nl : string := String (ascii_of_nat 10) EmptyString.

Section Graph.
Context {N E : Type} {ordN : Ord N} {ordE : Ord E}.
Context {showN : Show N} {showE : Show E}.

(** *** class edge, weighted_edge, unweighted_edge *)

(** The base class keeps [src_], [dst_] and [weight_]; the two derived
    classes fix through their constructors whether [weight_] holds a
    value, and nothing assigns [weight_] afterwards. *)
Inductive edge : Type :=
| weighted_edge (src dst : N) (weight : E)
| unweighted_edge (src dst : N).

Definition get_weight (e : edge) : option E :=
  match e with
  | weighted_edge _ _ w => Some w
  | unweighted_edge _ _ => None
  end.

Definition is_weighted (e : edge) : bool :=
  match get_weight e with Some _ => true | None => false end.

Definition get_nodes (e : edge) : N * N :=
  match e with
  | weighted_edge s d _ => (s, d)
  | unweighted_edge s d => (s, d)
  end.

Definition set_nodes (src dst : N) (e : edge) : edge :=
  match e with
  | weighted_edge _ _ w => weighted_edge src dst w
  | unweighted_edge _ _ => unweighted_edge src dst
  end.

(** [edge::operator==]. *)
Definition edge_eq (e other : edge) : bool :=
  eqb (fst (get_nodes e)) (fst (get_nodes other))
  && eqb (snd (get_nodes e)) (snd (get_nodes other))
  && opt_eqb (get_weight e) (get_weight other).

Definition edge_comp (e other : edge) : comparison :=
  if negb (is_weighted e) && negb (is_weighted other) then Eq
  else if negb (is_weighted e) then Lt
  else if negb (is_weighted other) then Gt
  else cmp_option (get_weight e) (get_weight other).

Definition print_edge (e : edge) : string :=
  match e with
  | weighted_edge s d w => (show s ++ " -> " ++ show d ++ " | W | " ++ show w)%string
  | unweighted_edge s d => (show s ++ " -> " ++ show d ++ " | U")%string
  end.

(** [clone_ptr]: a new object holding a copy; the caller owns it, so it
    is the copy itself. *)
Definition clone_ptr (e : edge) : edge := e.

(** *** Memory *)

Record memory : Type := {
  node_cell : ptr -> N;
  edge_cell : ptr -> edge;
  top : ptr
}.

Definition make_shared_node (v : N) (m : memory) : ptr * memory :=
  (top m,
   {| node_cell := fun p => if p =? top m then v else node_cell m p;
      edge_cell := edge_cell m;
      top := S (top m) |}).

Definition make_shared_edge (e : edge) (m : memory) : ptr * memory :=
  (top m,
   {| node_cell := node_cell m;
      edge_cell := fun p => if p =? top m then e else edge_cell m p;
      top := S (top m) |}).

(** [edge->set_nodes(src, dst)] through a shared pointer. *)
Definition write_nodes (p : ptr) (src dst : N) (m : memory) : memory :=
  {| node_cell := node_cell m;
     edge_cell := fun q => if q =? p then set_nodes src dst (edge_cell m p)
                           else edge_cell m q;
     top := top m |}.

(** *** The two stores and their comparators *)

Definition edge_tuple : Type := ptr * ptr * ptr.
Definition get0 (t : edge_tuple) : ptr := fst (fst t).
Definition get1 (t : edge_tuple) : ptr := snd (fst t).
Definition get2 (t : edge_tuple) : ptr := snd t.

Record graph : Type := {
  nodes_ : list ptr;
  edges_ : list edge_tuple
}.

(** compare_shared_ptr, its three overloads. *)
Definition compare_pp (m : memory) (lhs rhs : ptr) : bool :=
  ltb (node_cell m lhs) (node_cell m rhs).
Definition compare_pv (m : memory) (lhs : ptr) (rhs : N) : bool :=
  ltb (node_cell m lhs) rhs.
Definition compare_vp (m : memory) (lhs : N) (rhs : ptr) : bool :=
  ltb lhs (node_cell m rhs).

Definition compare_edges_set (m : memory) (lhs rhs : edge_tuple) : bool :=
  if negb (get0 lhs =? get0 rhs) then compare_pp m (get0 lhs) (get0 rhs)
  else if negb (get1 lhs =? get1 rhs) then compare_pp m (get1 lhs) (get1 rhs)
  else match edge_comp (edge_cell m (get2 lhs)) (edge_cell m (get2 rhs)) with
       | Lt => true
       | _ => false
       end.

(** *** Iterator *)

Record value_type : Type := { from : N; to : N; weight : option E }.

(** [iter::operator*] on the element the iterator stands at. *)
Definition deref (m : memory) (t : edge_tuple) : value_type :=
  let e := edge_cell m (get2 t) in
  {| from := fst (get_nodes e); to := snd (get_nodes e);
     weight := get_weight e |}.

Definition begin (g : graph) : nat := 0.
Definition end_ (g : graph) : nat := length (edges_ g).

(** The range [begin(), end()) as dereferencing yields it. *)
Definition range (g : graph) (m : memory) : list value_type :=
  map (deref m) (edges_ g).

(** *** Private helpers and accessors *)

Definition find_node_ptr (value : N) (g : graph) (m : memory) : option ptr :=
  StdSet.find (compare_pv m) (compare_vp m) value (nodes_ g).

Definition is_node (value : N) (g : graph) (m : memory) : bool :=
  StdSet.contains (compare_pv m) (compare_vp m) value (nodes_ g).

Definition empty (g : graph) : bool :=
  match nodes_ g with [] => true | _ => false end.

Definition nodes (g : graph) (m : memory) : list N :=
  map (node_cell m) (nodes_ g).

(** *** Constructors *)

Definition graph_default : graph := {| nodes_ := []; edges_ := [] |}.

Fixpoint graph_range (l : list N) (g : graph) (m : memory) : graph * memory :=
  match l with
  | [] => (g, m)
  | elem :: l' =>
      let (p, m1) := make_shared_node elem m in
      graph_range l'
        {| nodes_ := fst (StdSet.insert (compare_pp m1) p (nodes_ g));
           edges_ := edges_ g |} m1
  end.

(** *** Modifiers *)

Definition insert_node (value : N) (g : graph) (m : memory)
  : bool * graph * memory :=
  if is_node value g m then (false, g, m)
  else
    let (new_node, m1) := make_shared_node value m in
    (true,
     {| nodes_ := fst (StdSet.insert (compare_pp m1) new_node (nodes_ g));
        edges_ := edges_ g |},
     m1).

Definition insert_edge (src dst : N) (w : option E) (g : graph) (m : memory)
  : outcome bool * graph * memory :=
  match find_node_ptr src g m, find_node_ptr dst g m with
  | Some src_ptr, Some dst_ptr =>
      let (edge_ptr, m1) :=
        make_shared_edge
          (match w with
           | None => unweighted_edge src dst
           | Some x => weighted_edge src dst x
           end) m in
      let new_edge : edge_tuple := (src_ptr, dst_ptr, edge_ptr) in
      if StdSet.contains (compare_edges_set m1) (compare_edges_set m1)
           new_edge (edges_ g)
      then (Ok false, g, m1)
      else
        (Ok true,
         {| nodes_ := nodes_ g;
            edges_ := fst (StdSet.insert (compare_edges_set m1) new_edge
                             (edges_ g)) |},
         m1)
  | _, _ =>
      (Throw "Cannot call gdwg::graph<N, E>::insert_edge when either src or dst node does not exist"%string,
       g, m)
  end.

(** The loop of [update_node]: the edges left in [edges_], the set
    [updated_edges], and the memory after the calls of [set_nodes]. *)
Fixpoint update_loop (src_ptr dst_ptr : ptr) (rest : list edge_tuple)
    (updated_edges : list edge_tuple) (m : memory)
  : list edge_tuple * list edge_tuple * memory :=
  match rest with
  | [] => ([], updated_edges, m)
  | it :: rest' =>
      let src := get0 it in
      let dest := get1 it in
      let e := get2 it in
      if (src =? src_ptr) || (dest =? src_ptr) then
        let new_edge : edge_tuple :=
          (if src =? src_ptr then dst_ptr else src,
           if dest =? src_ptr then dst_ptr else dest, e) in
        let updated_edges' :=
          fst (StdSet.insert (compare_edges_set m) new_edge updated_edges) in
        let m' := write_nodes e (node_cell m (get0 new_edge))
                    (node_cell m (get1 new_edge)) m in
        update_loop src_ptr dst_ptr rest' updated_edges' m'
      else
        let '(kept, upd, m') :=
          update_loop src_ptr dst_ptr rest' updated_edges m in
        (it :: kept, upd, m')
  end.

Definition update_node (src_ptr dst_ptr : ptr) (g : graph) (m : memory)
  : graph * memory :=
  let '(kept, updated_edges, m1) :=
    update_loop src_ptr dst_ptr (edges_ g) [] m in
  ({| nodes_ := nodes_ g;
      edges_ := StdSet.insert_range (compare_edges_set m1) updated_edges kept |},
   m1).

Definition replace_node (old_data new_data : N) (g : graph) (m : memory)
  : outcome bool * graph * memory :=
  match find_node_ptr old_data g m with
  | None =>
      (Throw "Cannot call gdwg::graph<N, E>::replace_node on a node that doesn't exist"%string,
       g, m)
  | Some src_ptr =>
      if is_node new_data g m then (Ok false, g, m)
      else if negb (eqb old_data new_data) then
        let (new_node, m1) := make_shared_node new_data m in
        let g1 := {| nodes_ := StdSet.erase (compare_pp m1) (compare_pp m1)
                                 src_ptr (nodes_ g);
                     edges_ := edges_ g |} in
        let g2 := {| nodes_ := fst (StdSet.insert (compare_pp m1) new_node
                                      (nodes_ g1));
                     edges_ := edges_ g1 |} in
        let (g3, m2) := update_node src_ptr new_node g2 m1 in
        (Ok true, g3, m2)
      else (Ok true, g, m)
  end.

Definition merge_replace_node (old_data new_data : N) (g : graph) (m : memory)
  : outcome unit * graph * memory :=
  match find_node_ptr old_data g m, find_node_ptr new_data g m with
  | Some src_ptr, Some new_ptr =>
      if negb (eqb old_data new_data) then
        let g1 := {| nodes_ := StdSet.erase (compare_pp m) (compare_pp m)
                                 src_ptr (nodes_ g);
                     edges_ := edges_ g |} in
        let (g2, m1) := update_node src_ptr new_ptr g1 m in
        (Ok tt, g2, m1)
      else (Ok tt, g, m)
  | _, _ =>
      (Throw "Cannot call gdwg::graph<N, E>::merge_replace_node on old or new data if they don't exist in the graph"%string,
       g, m)
  end.

Definition erase_node (value : N) (g : graph) (m : memory)
  : bool * graph * memory :=
  match find_node_ptr value g m with
  | None => (false, g, m)
  | Some node_ptr =>
      (true,
       {| nodes_ := StdSet.erase (compare_pp m) (compare_pp m) node_ptr
                      (nodes_ g);
          edges_ := filter
                      (fun e => negb (eqb (node_cell m (get0 e)) (node_cell m node_ptr)
                                      || eqb (node_cell m (get1 e)) (node_cell m node_ptr)))
                      (edges_ g) |},
       m)
  end.

Definition erase_edge (src dst : N) (w : option E) (g : graph) (m : memory)
  : outcome bool * graph * memory :=
  if negb (is_node src g m) || negb (is_node dst g m) then
    (Throw "Cannot call gdwg::graph<N, E>::erase_edge on src or dst if they don't exist in the graph"%string,
     g, m)
  else
    let edge_ptr :=
      StdSet.find_if
        (fun e => eqb (node_cell m (get0 e)) src
                  && eqb (node_cell m (get1 e)) dst
                  && opt_eqb (get_weight (edge_cell m (get2 e))) w)
        (edges_ g) in
    if edge_ptr =? length (edges_ g) then (Ok false, g, m)
    else
      (Ok true,
       {| nodes_ := nodes_ g; edges_ := StdSet.erase_at edge_ptr (edges_ g) |},
       m).

(** [erase_edge(i)] and [erase_edge(i, s)]: the graph and the iterator
    returned, for iterators that stand in the edge store. *)
Definition erase_edge_it (i : nat) (g : graph) : nat * graph :=
  (i, {| nodes_ := nodes_ g; edges_ := StdSet.erase_at i (edges_ g) |}).

Definition erase_edge_range (i s : nat) (g : graph) : nat * graph :=
  (i, {| nodes_ := nodes_ g; edges_ := StdSet.erase_span i s (edges_ g) |}).

Definition clear (g : graph) : graph := {| nodes_ := []; edges_ := [] |}.

(** *** Accessors *)

Definition is_connected (src dst : N) (g : graph) (m : memory) : outcome bool :=
  if negb (is_node src g m) || negb (is_node dst g m) then
    Throw "Cannot call gdwg::graph<N, E>::is_connected if src or dst node don't exist in the graph"%string
  else
    Ok (negb (StdSet.find_if
                (fun e => eqb (node_cell m (get0 e)) src
                          && eqb (node_cell m (get1 e)) dst)
                (edges_ g)
              =? length (edges_ g))).

Definition edges (src dst : N) (g : graph) (m : memory) : outcome (list edge) :=
  if negb (is_node src g m) || negb (is_node dst g m) then
    Throw "Cannot call gdwg::graph<N, E>::edges if src or dst node don't exist in the graph"%string
  else
    Ok (map (fun e => clone_ptr (edge_cell m (get2 e)))
          (filter (fun e => eqb (node_cell m (get0 e)) src
                            && eqb (node_cell m (get1 e)) dst)
             (edges_ g))).

Definition find (src dst : N) (w : option E) (g : graph) (m : memory) : nat :=
  StdSet.find_if
    (fun v => eqb (from v) src && eqb (to v) dst && opt_eqb (weight v) w)
    (range g m).

(** [std::unique]: of each run of equal neighbours the first stays;
    [x] is the element kept last. *)
Fixpoint unique_from (x : N) (l : list N) : list N :=
  match l with
  | [] => [x]
  | y :: l' => if eqb x y then unique_from x l' else x :: unique_from y l'
  end.

Definition unique (l : list N) : list N :=
  match l with
  | [] => []
  | x :: l' => unique_from x l'
  end.

Definition connections (src : N) (g : graph) (m : memory) : outcome (list N) :=
  if negb (is_node src g m) then
    Throw "Cannot call gdwg::graph<N, E>::connections if src doesn't exist in the graph"%string
  else
    Ok (unique
          (map (fun e => node_cell m (get1 e))
             (filter (fun e => eqb (node_cell m (get0 e)) src) (edges_ g)))).

(** *** Comparison and output *)

(** [std::ranges::equal] with a predicate. *)
Fixpoint ranges_equal {A B : Type} (p : A -> B -> bool)
    (l : list A) (r : list B) : bool :=
  match l, r with
  | [], [] => true
  | x :: l', y :: r' => p x y && ranges_equal p l' r'
  | _, _ => false
  end.

Definition operator_eq (g other : graph) (m : memory) : bool :=
  if negb (length (nodes_ g) =? length (nodes_ other))
     || negb (length (edges_ g) =? length (edges_ other))
  then false
  else if negb (ranges_equal
                  (fun lhs rhs => eqb (node_cell m lhs) (node_cell m rhs))
                  (nodes_ g) (nodes_ other))
  then false
  else if negb (ranges_equal
                  (fun lhs rhs =>
                     edge_eq (edge_cell m (get2 lhs)) (edge_cell m (get2 rhs)))
                  (edges_ g) (edges_ other))
  then false
  else true.

(** [operator<<]: the text written to the stream. *)
Definition operator_out (g : graph) (m : memory) : string :=
  String.concat ""
    (nl :: map (fun node =>
              (show (node_cell m node) ++ " (" ++ nl
               ++ String.concat ""
                    (map (fun e => "  " ++ print_edge (edge_cell m (get2 e)) ++ nl)
                       (filter (fun e => eqb (node_cell m (get0 e))
                                           (node_cell m node))
                          (edges_ g)))
               ++ ")" ++ nl)%string)
           (nodes_ g)).

(** *** Copy and move *)

Fixpoint copy_nodes (src : list ptr) (g : graph) (m : memory) : graph * memory :=
  match src with
  | [] => (g, m)
  | n :: src' =>
      let (p, m1) := make_shared_node (node_cell m n) m in
      copy_nodes src'
        {| nodes_ := fst (StdSet.insert (compare_pp m1) p (nodes_ g));
           edges_ := edges_ g |} m1
  end.

Fixpoint copy_edges (src : list edge_tuple) (g : graph) (m : memory)
  : outcome unit * graph * memory :=
  match src with
  | [] => (Ok tt, g, m)
  | t :: src' =>
      match insert_edge (node_cell m (get0 t)) (node_cell m (get1 t))
              (get_weight (edge_cell m (get2 t))) g m with
      | (Ok _, g1, m1) => copy_edges src' g1 m1
      | (Throw what, g1, m1) => (Throw what, g1, m1)
      end
  end.

(** [deep_copy(other)] on a graph that is not [other]. *)
Definition deep_copy (other : graph) (g : graph) (m : memory)
  : outcome unit * graph * memory :=
  let g0 := clear g in
  let (g1, m1) := copy_nodes (nodes_ other) g0 m in
  copy_edges (edges_ other) g1 m1.

(** [graph(graph const&)]. *)
Definition copy_construct (other : graph) (m : memory)
  : outcome unit * graph * memory :=
  deep_copy other graph_default m.

(** [graph(graph&&)]: the new graph and what is left in [other]. *)
Definition move_construct (other : graph) : graph * graph :=
  ({| nodes_ := nodes_ other; edges_ := edges_ other |},
   {| nodes_ := []; edges_ := [] |}).
End Graph.

(** ** Programs over several graphs *)

Section World.
Context {N E : Type} {ordN : Ord N} {ordE : Ord E}.

(** The graph objects of a program, and the memory their shared pointers
    point into. *)
Record world : Type := {
  heap : @memory N E;
  vars : list graph
}.

(** Graph [i] becomes [g]. *)
Fixpoint set_var (i : nat) (g : graph) (vs : list graph) : list graph :=
  match i, vs with
  | _, [] => []
  | O, _ :: vs' => g :: vs'
  | S i', v :: vs' => v :: set_var i' g vs'
  end.

(** The public operations that make or change a graph. A graph is named
    by its place in [vars]; an iterator by its position. *)
Inductive action : Type :=
| New_default
| New_range (l : list N)
| New_copy (i : nat)
| New_move (i : nat)
| Assign_copy (i j : nat)
| Assign_move (i j : nat)
| Insert_node (i : nat) (v : N)
| Insert_edge (i : nat) (src dst : N) (w : option E)
| Replace_node (i : nat) (old_data new_data : N)
| Merge_replace_node (i : nat) (old_data new_data : N)
| Erase_node (i : nat) (v : N)
| Erase_edge (i : nat) (src dst : N) (w : option E)
| Erase_edge_it (i : nat) (pos : nat)
| Erase_edge_range (i : nat) (first last : nat)
| Clear (i : nat).

(** A member function of graph [i]. *)
Definition on_var (i : nat) (w : world)
    (f : graph -> @memory N E -> graph * @memory N E) : option world :=
  match nth_error (vars w) i with
  | None => None
  | Some g =>
      let (g', m') := f g (heap w) in
      Some {| heap := m'; vars := set_var i g' (vars w) |}
  end.

(** One operation; [None] where the program has no meaning: a graph that
    does not exist, an iterator that is not in the edge store. A member
    function that throws leaves the world it returns. *)
Definition exec (a : action) (w : world) : option world :=
  match a with
  | New_default =>
      Some {| heap := heap w; vars := vars w ++ [graph_default] |}
  | New_range l =>
      let (g, m) := graph_range l graph_default (heap w) in
      Some {| heap := m; vars := vars w ++ [g] |}
  | New_copy i =>
      match nth_error (vars w) i with
      | None => None
      | Some other =>
          match copy_construct other (heap w) with
          | (Ok _, g, m) => Some {| heap := m; vars := vars w ++ [g] |}
          | (Throw _, _, m) => Some {| heap := m; vars := vars w |}
          end
      end
  | New_move i =>
      match nth_error (vars w) i with
      | None => None
      | Some other =>
          let (g, left) := move_construct other in
          Some {| heap := heap w; vars := set_var i left (vars w) ++ [g] |}
      end
  | Assign_copy i j =>
      match nth_error (vars w) i, nth_error (vars w) j with
      | Some g, Some other =>
          if i =? j then Some w
          else
            let '(_, g', m) := deep_copy other g (heap w) in
            Some {| heap := m; vars := set_var i g' (vars w) |}
      | _, _ => None
      end
  | Assign_move i j =>
      match nth_error (vars w) i, nth_error (vars w) j with
      | Some g, Some other =>
          if i =? j then Some w
          else
            let (g', left) := move_construct other in
            Some {| heap := heap w;
                    vars := set_var i g' (set_var j left (vars w)) |}
      | _, _ => None
      end
  | Insert_node i v =>
      on_var i w (fun g m => let '(_, g', m') := insert_node v g m in (g', m'))
  | Insert_edge i src dst wt =>
      on_var i w (fun g m => let '(_, g', m') := insert_edge src dst wt g m in (g', m'))
  | Replace_node i old_data new_data =>
      on_var i w (fun g m =>
                    let '(_, g', m') := replace_node old_data new_data g m in (g', m'))
  | Merge_replace_node i old_data new_data =>
      on_var i w (fun g m =>
                    let '(_, g', m') := merge_replace_node old_data new_data g m in
                    (g', m'))
  | Erase_node i v =>
      on_var i w (fun g m => let '(_, g', m') := erase_node v g m in (g', m'))
  | Erase_edge i src dst wt =>
      on_var i w (fun g m => let '(_, g', m') := erase_edge src dst wt g m in (g', m'))
  | Erase_edge_it i pos =>
      match nth_error (vars w) i with
      | Some g =>
          if pos <? length (edges_ g) then
            on_var i w (fun g m => (snd (erase_edge_it pos g), m))
          else None
      | None => None
      end
  | Erase_edge_range i first last =>
      match nth_error (vars w) i with
      | Some g =>
          if (first <=? last) && (last <=? length (edges_ g)) then
            on_var i w (fun g m => (snd (erase_edge_range first last g), m))
          else None
      | None => None
      end
  | Clear i => on_var i w (fun g m => (clear g, m))
  end.

(** A program: its operations one after the other. *)
Fixpoint run (al : list action) (w : world) : option world :=
  match al with
  | [] => Some w
  | a :: al' =>
      match exec a w with
      | Some w' => run al' w'
      | None => None
      end
  end.

(** The graphs an operation may change. *)
Definition touches (a : action) (k : nat) : bool :=
  match a with
  | New_default | New_range _ | New_copy _ => false
  | New_move i => k =? i
  | Assign_copy i _ => k =? i
  | Assign_move i j => (k =? i) || (k =? j)
  | Insert_node i _ | Insert_edge i _ _ _ | Replace_node i _ _
  | Merge_replace_node i _ _ | Erase_node i _ | Erase_edge i _ _ _
  | Erase_edge_it i _ | Erase_edge_range i _ _ | Clear i => k =? i
  end.
End World.

(** ** Iterators *)

Section Iterators.
Context {N E : Type} {ordN : Ord N} {ordE : Ord E}.

(** An iterator is the position in the edge store its [set_it_] stands
    at. [operator++()], [operator++(int)], [operator--()] and
    [operator--(int)]: the iterator after the call, and the one returned. *)
Definition pre_incr (it : nat) : nat * nat := (S it, S it).
Definition post_incr (it : nat) : nat * nat := (S it, it).
Definition pre_decr (it : nat) : nat * nat := (Nat.pred it, Nat.pred it).
Definition post_decr (it : nat) : nat * nat := (Nat.pred it, it).

(** [iter::operator==] and [iter::base]. *)
Definition iter_eq (it other : nat) : bool := it =? other.
Definition base (it : nat) : nat := it.

(** [*it] for an iterator of [g]; there is nothing to yield at the end. *)
Definition star (it : nat) (g : graph) (m : @memory N E)
  : option value_type :=
  match nth_error (edges_ g) it with
  | Some t => Some (deref m t)
  | None => None
  end.

(** The loop [for (auto it = first; it != g.end(); ++it)] collecting
    [*it], run for at most [fuel] rounds. *)
Fixpoint forward (fuel : nat) (first : nat) (g : graph) (m : @memory N E)
  : option (list value_type) :=
  if iter_eq first (end_ g) then Some []
  else
    match fuel with
    | O => None
    | S fuel' =>
        match star first g m with
        | None => None
        | Some v =>
            match forward fuel' (fst (pre_incr first)) g m with
            | Some vs => Some (v :: vs)
            | None => None
            end
        end
    end.

(** The loop [for (auto it = last; it != g.begin();)] collecting [*--it]. *)
Fixpoint backward (fuel : nat) (last : nat) (g : graph) (m : @memory N E)
  : option (list value_type) :=
  if iter_eq last (begin g) then Some []
  else
    match fuel with
    | O => None
    | S fuel' =>
        match star (snd (pre_decr last)) g m with
        | None => None
        | Some v =>
            match backward fuel' (fst (pre_decr last)) g m with
            | Some vs => Some (v :: vs)
            | None => None
            end
        end
    end.
End Iterators.

(** ** The template arguments of the demonstration: std::string and int *)

#[export, refine] Instance ord_string : Ord string :=
  {| cmp := String.compare |}.
Proof.
  - exact String.compare_eq_iff.
  - intros s. induction s as [|a s IH]; simpl; [reflexivity|].
    unfold Ascii.compare. now rewrite N.compare_refl.
  - intros x y. apply String.compare_antisym.
  - intros x. induction x as [|a x IH]; intros [|b y] [|c z]; simpl;
      try congruence.
    destruct (Ascii.compare a b) eqn:Hab; try congruence;
      destruct (Ascii.compare b c) eqn:Hbc; try congruence; intros H1 H2.
    + apply Ascii.compare_eq_iff in Hab, Hbc. subst.
      replace (Ascii.compare c c) with Eq
        by (symmetry; unfold Ascii.compare; apply N.compare_refl).
      eauto.
    + apply Ascii.compare_eq_iff in Hab. subst. now rewrite Hbc.
    + apply Ascii.compare_eq_iff in Hbc. subst. now rewrite Hab.
    + replace (Ascii.compare a c) with Lt; [reflexivity|].
      symmetry. revert Hab Hbc. unfold Ascii.compare.
      rewrite !N.compare_lt_iff. apply N.lt_trans.
Defined.

#[export] Instance ord_Z : Ord Z := {|
  cmp := Z.compare;
  cmp_eq := fun x y H => proj1 (Z.compare_eq_iff x y) H;
  cmp_refl := Z.compare_refl;
  cmp_antisym := fun x y => Z.compare_antisym x y;
  cmp_trans := fun x y z => Z.lt_trans x y z
|}.

#[export] Instance show_string : Show string := {| show := fun s => s |}.

(** [operator<<] for [int]: the decimal digits, a minus sign before a
    negative number. *)
#[export] Instance show_Z : Show Z := {|
  show := fun z => NilZero.string_of_int (Z.to_int z)
|}.

Unset Implicit Arguments.

(** * Part 2: the vocabulary of the statements *)

(** ** The order of the edge records *)

(** An edge record (source, destination, weight) is compared as a nested
    pair, the first component deciding first, with [cmp_option] on the
    weight. Both comparisons are orders again. *)
Definition cmp_pair {A B} `{Ord A} `{Ord B} (x y : A * B) : comparison :=
  match cmp (fst x) (fst y) with
  | Eq => cmp (snd x) (snd y)
  | c => c
  end.

#[export, refine] Instance ord_option {A} `{Ord A} : Ord (option A) :=
  {| cmp := cmp_option |}.
Proof.
  - intros [a|] [b|]; simpl; try discriminate; try reflexivity.
    intros Hab. f_equal. now apply cmp_eq.
  - intros [a|]; simpl; [apply cmp_refl | reflexivity].
  - intros [a|] [b|]; simpl; try reflexivity. apply cmp_antisym.
  - intros [a|] [b|] [c|]; simpl; try discriminate; try reflexivity.
    apply cmp_trans.
Defined.

#[export, refine] Instance ord_pair {A B} `{Ord A} `{Ord B} : Ord (A * B) :=
  {| cmp := cmp_pair |}.
Proof.
  - intros [a b] [a' b']; unfold cmp_pair; simpl.
    destruct (cmp a a') eqn:Ha; try discriminate.
    intros Hb. apply cmp_eq in Ha, Hb. now subst.
  - intros [a b]; unfold cmp_pair; simpl. rewrite cmp_refl. apply cmp_refl.
  - intros [a b] [a' b']; unfold cmp_pair; simpl.
    rewrite (cmp_antisym a a'). destruct (cmp a a'); simpl; try reflexivity.
    apply cmp_antisym.
  - intros [a b] [a' b'] [a'' b'']; unfold cmp_pair; simpl.
    destruct (cmp a a') eqn:H1; try discriminate;
      destruct (cmp a' a'') eqn:H2; try discriminate; intros H3 H4.
    + apply cmp_eq in H1, H2. subst. rewrite cmp_refl. eapply cmp_trans; eauto.
    + apply cmp_eq in H1. subst. now rewrite H2.
    + apply cmp_eq in H2. subst. now rewrite H1.
    + now rewrite (cmp_trans _ _ _ H1 H2).
Defined.

(** ** Sequences in set order *)

(** A sequence is in set order under a key when the keys increase
    strictly from left to right. *)
Definition sorted_by {A T : Type} `{Ord T} (key : A -> T) (s : list A) : Prop :=
  StronglySorted (fun a b => ltb (key a) (key b) = true) s.

(** The comparators of a set whose elements are ordered by a key, for a
    search by an element and for a search by something else that has a
    key. *)
Definition less_ak {A K T : Type} `{Ord T} (key : A -> T) (keyK : K -> T)
    (a : A) (k : K) : bool := ltb (key a) (keyK k).

Definition less_ka {A K T : Type} `{Ord T} (key : A -> T) (keyK : K -> T)
    (k : K) (a : A) : bool := ltb (keyK k) (key a).

Definition less_key {A T : Type} `{Ord T} (key : A -> T) (x y : A) : bool :=
  ltb (key x) (key y).

(** ** Graphs, memories and programs *)

Section Vocabulary.
Context {N E : Type} {ordN : Ord N} {ordE : Ord E}.
Implicit Types (m : @memory N E) (g : graph) (t : edge_tuple) (w : @world N E).

(** The record an element of the edge store stands for: the values of its
    two nodes and the weight of its edge. It is also its place in the
    order of the store. *)
Definition edge_key m t : N * N * option E :=
  (node_cell m (get0 t), node_cell m (get1 t),
   get_weight (edge_cell m (get2 t))).

(** The records of the edge store, in its order. *)
Definition records g m : list (N * N * option E) :=
  map (edge_key m) (edges_ g).

(** The addresses of the edge objects a graph owns. *)
Definition edge_ptrs g : list ptr := map get2 (edges_ g).

(** The state a graph object is in between two calls: its objects are
    allocated, both stores are in the order of their comparators, every
    element of the edge store points to two elements of the node store,
    every edge object holds the values of the two nodes its element points
    to, and no edge object is in the store twice. *)
Record wf m g : Prop := {
  wf_nodes_alloc : Forall (fun p => p < top m) (nodes_ g);
  wf_nodes_sorted : sorted_by (node_cell m) (nodes_ g);
  wf_edges_alloc : Forall (fun t => get2 t < top m) (edges_ g);
  wf_edges_nodes :
    Forall (fun t => In (get0 t) (nodes_ g) /\ In (get1 t) (nodes_ g))
      (edges_ g);
  wf_edges_sorted : sorted_by (edge_key m) (edges_ g);
  wf_edges_fields :
    Forall (fun t => get_nodes (edge_cell m (get2 t))
                     = (node_cell m (get0 t), node_cell m (get1 t)))
      (edges_ g);
  wf_edges_own : NoDup (edge_ptrs g)
}.

(** From [m] to [m']: nothing is freed, node objects keep their values,
    and of the edge objects only those in [written] may have changed. *)
Definition frame m m' (written : list ptr) : Prop :=
  top m <= top m'
  /\ (forall p, p < top m -> node_cell m' p = node_cell m p)
  /\ (forall p, p < top m -> ~ In p written -> edge_cell m' p = edge_cell m p).

(** [m'] holds for [g] what [m] held. *)
Definition agree m m' g : Prop :=
  top m <= top m'
  /\ (forall p, In p (nodes_ g) -> node_cell m' p = node_cell m p)
  /\ (forall p, In p (edge_ptrs g) -> edge_cell m' p = edge_cell m p).

(** The objects of [g'] are objects of [g] or were made after [m]. *)
Definition fresh_or_old m g g' : Prop :=
  (forall p, In p (nodes_ g') -> In p (nodes_ g) \/ top m <= p)
  /\ (forall p, In p (edge_ptrs g') -> In p (edge_ptrs g) \/ top m <= p).

(** A member function took [g] in [m] to [g'] in [m']. *)
Definition step_ok m g m' g' : Prop :=
  wf m' g' /\ frame m m' (edge_ptrs g) /\ fresh_or_old m g g'.

(** Both node pointers of [t] are in the node store of [g]. *)
Definition endpoints_in g t : Prop :=
  In (get0 t) (nodes_ g) /\ In (get1 t) (nodes_ g).

(** What an iterator yields, as a record. *)
Definition triple (v : @value_type N E) : N * N * option E :=
  (from v, to v, weight v).

(** The records of a graph as its iterator yields them. *)
Definition to_list g m : list (N * N * option E) := map triple (range g m).

(** The test of the loop of [update_node], and the element it builds. *)
Definition incident (src_ptr : ptr) t : bool :=
  (get0 t =? src_ptr) || (get1 t =? src_ptr).

Definition rewire (src_ptr dst_ptr : ptr) t : edge_tuple :=
  (if get0 t =? src_ptr then dst_ptr else get0 t,
   if get1 t =? src_ptr then dst_ptr else get1 t,
   get2 t).

(** The same rewriting on records: a node value [a] becomes [b]. *)
Definition redirect (a b : N) (r : N * N * option E) : N * N * option E :=
  (if eqb (fst (fst r)) a then b else fst (fst r),
   if eqb (snd (fst r)) a then b else snd (fst r),
   snd r).

(** Every object of [g] was made at [base] or later; [deep_copy] keeps its
    target so while it runs. *)
Definition all_fresh (base : ptr) g : Prop :=
  (forall p, In p (nodes_ g) -> base <= p)
  /\ (forall p, In p (edge_ptrs g) -> base <= p).

(** No object belongs to two graphs. *)
Definition separate (g1 g2 : graph) : Prop :=
  (forall p, In p (nodes_ g1) -> ~ In p (nodes_ g2))
  /\ (forall p, In p (edge_ptrs g1) -> ~ In p (edge_ptrs g2)).

(** Every graph of a program is well formed, and no two of them share an
    object. *)
Definition world_ok (w : world) : Prop :=
  (forall i g, nth_error (vars w) i = Some g -> wf (heap w) g)
  /\ (forall i j gi gj, i <> j ->
        nth_error (vars w) i = Some gi -> nth_error (vars w) j = Some gj ->
        separate gi gj).

(** What an operation leaves alone: a graph it does not touch is the same
    object list, and the memory holds for it what it held. *)
Definition kept_by (a : @action N E) w w' : Prop :=
  forall k g, touches a k = false -> nth_error (vars w) k = Some g ->
    nth_error (vars w') k = Some g /\ agree (heap w) (heap w') g.

(** [g] in memory [m] is a graph of some program: a run of public
    operations, started with no graph at all, ends with [g] among its
    graphs and [m] as its memory. *)
Definition reachable m g : Prop :=
  exists (al : list (@action N E)) (m0 : @memory N E) w (i : nat),
    run al {| heap := m0; vars := [] |} = Some w
    /\ heap w = m /\ nth_error (vars w) i = Some g.
End Vocabulary.

(** ** The text of a graph *)

Section RenderVocabulary.
Context {N E : Type} {ordN : Ord N} {ordE : Ord E}.
Context {showN : Show N} {showE : Show E}.

(** The text the specification describes, from a list of node values and
    a list of records: a line for each record, and for each node its
    header, the lines of the records it is the source of, and the closing
    line. *)
Definition print_record (r : N * N * option E) : string :=
  match snd r with
  | Some w => (show (fst (fst r)) ++ " -> " ++ show (snd (fst r)) ++ " | W | " ++ show w)%string
  | None => (show (fst (fst r)) ++ " -> " ++ show (snd (fst r)) ++ " | U")%string
  end.

Definition render (ns : list N) (rs : list (N * N * option E)) : string :=
  String.concat ""
    (nl :: map (fun n =>
              (show n ++ " (" ++ nl
               ++ String.concat ""
                    (map (fun r => "  " ++ print_record r ++ nl)
                       (filter (fun r => eqb (fst (fst r)) n) rs))
               ++ ")" ++ nl)%string)
           ns).
End RenderVocabulary.

(** ** The programs of the examples *)

(** The memory and the world a program starts in: nothing allocated, no
    graph. *)
Definition mem0 : @memory string Z :=
  {| node_cell := fun _ => EmptyString;
     edge_cell := fun _ => unweighted_edge EmptyString EmptyString;
     top := 0 |}.

Definition world0 : @world string Z := {| heap := mem0; vars := [] |}.

(** The demonstration program of the repository. *)
Definition demo_actions : list (@action string Z) :=
  [ New_default;
    Insert_node 0 "hello"%string; Insert_node 0 "how"%string;
    Insert_node 0 "are"%string; Insert_node 0 "you?"%string;
    Insert_edge 0 "hello"%string "how"%string (Some 5%Z);
    Insert_edge 0 "hello"%string "are"%string (Some 8%Z);
    Insert_edge 0 "hello"%string "are"%string (Some 2%Z);
    Insert_edge 0 "how"%string "you?"%string (Some 1%Z);
    Insert_edge 0 "how"%string "hello"%string (Some 4%Z);
    Insert_edge 0 "are"%string "you?"%string (Some 3%Z) ].

(** The world a program ends in, its first graph and its memory. *)
Definition world_after (al : list (@action string Z)) : @world string Z :=
  match run al world0 with
  | Some w => w
  | None => world0
  end.

Definition graph_after (al : list (@action string Z)) : graph :=
  nth 0 (vars (world_after al)) graph_default.

Definition mem_after (al : list (@action string Z)) : @memory string Z :=
  heap (world_after al).

Definition demo_graph : graph := graph_after demo_actions.

Definition demo_mem : @memory string Z := mem_after demo_actions.

(** A program that copies, renames, merges, erases, moves, assigns and
    clears. *)
Definition tour_actions : list (@action string Z) :=
  demo_actions ++
  [ New_copy 0;
    Replace_node 1 "how"%string "abc"%string;
    Merge_replace_node 1 "abc"%string "hello"%string;
    Erase_node 0 "you?"%string;
    Erase_edge 0 "hello"%string "are"%string (Some 8%Z);
    Erase_edge_it 1 0;
    New_move 0;
    New_range ["x"; "y"; "x"]%string;
    Insert_edge 3 "x"%string "y"%string None;
    Assign_copy 0 1;
    Erase_edge_range 0 1 3;
    Assign_move 3 2;
    Clear 2 ].

(** Merging where both nodes have equal outgoing edges: A -> C (2) and
    B -> C (2). *)
Definition merge_actions : list (@action string Z) :=
  [ New_default;
    Insert_node 0 "A"%string; Insert_node 0 "B"%string;
    Insert_node 0 "C"%string; Insert_node 0 "D"%string;
    Insert_edge 0 "A"%string "B"%string (Some 1%Z);
    Insert_edge 0 "A"%string "C"%string (Some 2%Z);
    Insert_edge 0 "A"%string "D"%string (Some 3%Z);
    Insert_edge 0 "A"%string "A"%string None;
    Insert_edge 0 "B"%string "B"%string (Some 1%Z);
    Insert_edge 0 "B"%string "C"%string (Some 2%Z) ].

(** The demonstration program, its graph copied. *)
Definition copy_actions : list (@action string Z) := demo_actions ++ [New_copy 0].

(** The text the specification gives for the graph of the demonstration. *)
Definition demo_text : string :=
  (nl ++ "are (" ++ nl
      ++ "  are -> you? | W | 3" ++ nl
      ++ ")" ++ nl
      ++ "hello (" ++ nl
      ++ "  hello -> are | W | 2" ++ nl
      ++ "  hello -> are | W | 8" ++ nl
      ++ "  hello -> how | W | 5" ++ nl
      ++ ")" ++ nl
      ++ "how (" ++ nl
      ++ "  how -> hello | W | 4" ++ nl
      ++ "  how -> you? | W | 1" ++ nl
      ++ ")" ++ nl
      ++ "you? (" ++ nl
      ++ ")" ++ nl)%string.

(** Graph [i] of the world a program ends in. *)
Definition var_after (al : list (@action string Z)) (i : nat) : graph :=
  nth i (vars (world_after al)) graph_default.

(** Two graphs with the same nodes and edges, put in in different
    orders. *)
Definition order_actions : list (@action string Z) :=
  [ New_default;
    Insert_node 0 "a"%string; Insert_node 0 "b"%string;
    Insert_node 0 "c"%string;
    Insert_edge 0 "a"%string "b"%string (Some 1%Z);
    Insert_edge 0 "a"%string "b"%string None;
    Insert_edge 0 "c"%string "a"%string (Some 7%Z);
    New_range ["c"; "b"; "a"; "b"]%string;
    Insert_edge 1 "c"%string "a"%string (Some 7%Z);
    Insert_edge 1 "a"%string "b"%string None;
    Insert_edge 1 "a"%string "b"%string (Some 1%Z) ].

(** * Part 3: lemmas and theorems *)

(** ** Facts about the orders *)

Section OrdFacts.
Context {A : Type} `{Ord A}.

Lemma ltb_irrefl (x : A) : ltb x x = false.
Proof. unfold ltb. now rewrite cmp_refl. Qed.

Lemma ltb_trans (x y z : A) :
    ltb x y = true -> ltb y z = true -> ltb x z = true.
Proof.
    unfold ltb. destruct (cmp x y) eqn:Hxy; try discriminate.
    destruct (cmp y z) eqn:Hyz; try discriminate.
    now rewrite (cmp_trans _ _ _ Hxy Hyz).
Qed.

Lemma ltb_asym (x y : A) : ltb x y = true -> ltb y x = false.
Proof.
    unfold ltb. rewrite (cmp_antisym x y). now destruct (cmp x y).
Qed.

Lemma ltb_total (x y : A) : ltb x y = false -> ltb y x = false -> x = y.
Proof.
    unfold ltb. rewrite (cmp_antisym x y).
    destruct (cmp x y) eqn:Hxy; simpl; try discriminate.
    intros _ _. now apply cmp_eq.
Qed.

Lemma ltb_neq (x y : A) : ltb x y = true -> x <> y.
Proof. intros Hlt ->. rewrite ltb_irrefl in Hlt. discriminate. Qed.

Lemma eqb_true_iff (x y : A) : eqb x y = true <-> x = y.
Proof.
    unfold eqb. split.
    - destruct (cmp x y) eqn:Hxy; try discriminate. intros _. now apply cmp_eq.
    - intros ->. now rewrite cmp_refl.
Qed.

Lemma eqb_refl (x : A) : eqb x x = true.
Proof. now apply eqb_true_iff. Qed.

Lemma eqb_false_iff (x y : A) : eqb x y = false <-> x <> y.
Proof.
    rewrite <- eqb_true_iff. destruct (eqb x y); split; congruence.
Qed.

Lemma eqb_sym (x y : A) : eqb x y = eqb y x.
Proof.
    destruct (eqb x y) eqn:Hxy.
    - apply eqb_true_iff in Hxy. subst. now rewrite eqb_refl.
    - symmetry. apply eqb_false_iff. apply eqb_false_iff in Hxy. congruence.
Qed.

Lemma ltb_eqb_false (x y : A) : ltb x y = true -> eqb x y = false.
Proof. intros Hlt. apply eqb_false_iff. now apply ltb_neq. Qed.

Lemma opt_eqb_true_iff (x y : option A) : opt_eqb x y = true <-> x = y.
Proof.
    destruct x as [a|], y as [b|]; simpl; try (split; congruence).
    rewrite eqb_true_iff. split; congruence.
Qed.

Lemma opt_eqb_refl (x : option A) : opt_eqb x x = true.
Proof. now apply opt_eqb_true_iff. Qed.
End OrdFacts.

(** ** The set operations on a sequence sorted by a key *)

Section Keyed.
Context {A K T : Type} `{Ord T}.
Variable key : A -> T.
Variable keyK : K -> T.

Lemma sorted_by_cons_inv (a : A) (s : list A) :
  sorted_by key (a :: s) ->
  sorted_by key s /\ Forall (fun b => ltb (key a) (key b) = true) s.
Proof. intros Hs. inversion Hs; subst. now split. Qed.

Lemma sorted_by_key_inj (s : list A) (a b : A) :
  sorted_by key s -> In a s -> In b s -> key a = key b -> a = b.
Proof.
  induction s as [|y s IH]; intros Hs Ha Hb Hk; [contradiction|].
  apply sorted_by_cons_inv in Hs. destruct Hs as [Hs Hy].
  rewrite Forall_forall in Hy.
  destruct Ha as [->|Ha], Hb as [->|Hb]; auto.
  - apply Hy in Hb. rewrite Hk, ltb_irrefl in Hb. discriminate.
  - apply Hy in Ha. rewrite Hk, ltb_irrefl in Ha. discriminate.
Qed.

Lemma sorted_by_NoDup (s : list A) : sorted_by key s -> NoDup s.
Proof.
  induction s as [|y s IH]; intros Hs; constructor;
    apply sorted_by_cons_inv in Hs; destruct Hs as [Hs Hy]; auto.
  intros Hin. rewrite Forall_forall in Hy. apply Hy in Hin.
  rewrite ltb_irrefl in Hin. discriminate.
Qed.

Lemma sorted_by_filter (p : A -> bool) (s : list A) :
  sorted_by key s -> sorted_by key (filter p s).
Proof.
  induction s as [|y s IH]; intros Hs; simpl; [constructor|].
  apply sorted_by_cons_inv in Hs. destruct Hs as [Hs Hy].
  destruct (p y); auto.
  constructor; [now apply IH|].
  rewrite Forall_forall in *. intros b Hb. apply filter_In in Hb.
  now apply Hy.
Qed.

Lemma find_some (k : K) (s : list A) (a : A) :
  StdSet.find (less_ak key keyK) (less_ka key keyK) k s = Some a -> In a s /\ key a = keyK k.
Proof.
  induction s as [|y s IH]; simpl; [discriminate|].
  unfold less_ak, less_ka in *.
  destruct (ltb (key y) (keyK k)) eqn:H1.
  - intros Hf. destruct (IH Hf). auto.
  - destruct (ltb (keyK k) (key y)) eqn:H2; [discriminate|].
    intros [= <-]. split; auto. now apply ltb_total.
Qed.

Lemma find_none (k : K) (s : list A) :
  sorted_by key s ->
  StdSet.find (less_ak key keyK) (less_ka key keyK) k s = None ->
  forall a, In a s -> key a <> keyK k.
Proof.
  induction s as [|y s IH]; simpl; intros Hs Hf a Ha; [contradiction|].
  apply sorted_by_cons_inv in Hs. destruct Hs as [Hs Hy].
  unfold less_ak, less_ka in *.
  destruct (ltb (key y) (keyK k)) eqn:H1.
  - destruct Ha as [->|Ha]; [now apply ltb_neq | now apply IH].
  - destruct (ltb (keyK k) (key y)) eqn:H2; [|discriminate].
    apply not_eq_sym, ltb_neq.
    destruct Ha as [->|Ha]; auto.
    rewrite Forall_forall in Hy. eapply ltb_trans; eauto.
Qed.

Lemma find_in (k : K) (s : list A) (a : A) :
  sorted_by key s -> In a s -> key a = keyK k ->
  StdSet.find (less_ak key keyK) (less_ka key keyK) k s = Some a.
Proof.
  intros Hs Ha Hk.
  destruct (StdSet.find (less_ak key keyK) (less_ka key keyK) k s) as [b|] eqn:Hf.
  - apply find_some in Hf. destruct Hf as [Hb Hkb].
    f_equal. apply (sorted_by_key_inj s); auto; congruence.
  - exfalso. exact (find_none k s Hs Hf a Ha Hk).
Qed.

Lemma contains_true_iff (k : K) (s : list A) :
  sorted_by key s ->
  StdSet.contains (less_ak key keyK) (less_ka key keyK) k s = true <->
  exists a, In a s /\ key a = keyK k.
Proof.
  intros Hs. unfold StdSet.contains.
  destruct (StdSet.find (less_ak key keyK) (less_ka key keyK) k s) as [b|] eqn:Hf.
  - apply find_some in Hf. split; eauto.
  - split; [discriminate|]. intros (a & Ha & Hk).
    exfalso. exact (find_none k s Hs Hf a Ha Hk).
Qed.

Lemma contains_false_iff (k : K) (s : list A) :
  sorted_by key s ->
  StdSet.contains (less_ak key keyK) (less_ka key keyK) k s = false <->
  forall a, In a s -> key a <> keyK k.
Proof.
  intros Hs. split.
  - intros Hc a Ha Hk.
    assert (Ht : StdSet.contains (less_ak key keyK) (less_ka key keyK) k s = true)
      by (apply contains_true_iff; eauto).
    congruence.
  - intros Hall.
    destruct (StdSet.contains (less_ak key keyK) (less_ka key keyK) k s) eqn:Hc; auto.
    apply contains_true_iff in Hc; auto.
    destruct Hc as (a & Ha & Hk). now apply Hall in Ha.
Qed.

Lemma erase_filter (k : K) (s : list A) :
  sorted_by key s ->
  StdSet.erase (less_ak key keyK) (less_ka key keyK) k s
  = filter (fun a => negb (eqb (key a) (keyK k))) s.
Proof.
  induction s as [|y s IH]; simpl; intros Hs; [reflexivity|].
  apply sorted_by_cons_inv in Hs. destruct Hs as [Hs Hy].
  assert (Hrest : forall c, ltb c (key y) = true \/ c = key y ->
            filter (fun a => negb (eqb (key a) c)) s = s).
  { intros c Hc. apply forallb_filter_id. apply forallb_forall.
    intros b Hb. rewrite Forall_forall in Hy. apply Hy in Hb.
    apply negb_true_iff, eqb_false_iff, not_eq_sym, ltb_neq.
    destruct Hc as [Hc| ->]; auto. eapply ltb_trans; eauto. }
  unfold less_ak, less_ka in *.
  destruct (ltb (key y) (keyK k)) eqn:H1.
  - rewrite (ltb_eqb_false _ _ H1). simpl. now rewrite IH.
  - destruct (ltb (keyK k) (key y)) eqn:H2.
    + rewrite eqb_sym, (ltb_eqb_false _ _ H2). simpl.
      now rewrite Hrest by auto.
    + assert (Heq : key y = keyK k) by now apply ltb_total.
      rewrite Heq, eqb_refl. simpl. rewrite <- Heq. symmetry. apply Hrest. auto.
Qed.

Lemma find_ext (lt1 : A -> K -> bool) (lt2 : K -> A -> bool) (k : K) (s : list A) :
  (forall a, In a s -> lt1 a k = less_ak key keyK a k /\ lt2 k a = less_ka key keyK k a) ->
  StdSet.find lt1 lt2 k s = StdSet.find (less_ak key keyK) (less_ka key keyK) k s.
Proof.
  induction s as [|y s IH]; simpl; intros Hext; [reflexivity|].
  destruct (Hext y (or_introl eq_refl)) as [-> ->].
  rewrite IH by auto. reflexivity.
Qed.

Lemma contains_ext (lt1 : A -> K -> bool) (lt2 : K -> A -> bool) (k : K) (s : list A) :
  (forall a, In a s -> lt1 a k = less_ak key keyK a k /\ lt2 k a = less_ka key keyK k a) ->
  StdSet.contains lt1 lt2 k s = StdSet.contains (less_ak key keyK) (less_ka key keyK) k s.
Proof. intros Hext. unfold StdSet.contains. now rewrite find_ext. Qed.

Lemma erase_ext (lt1 : A -> K -> bool) (lt2 : K -> A -> bool) (k : K) (s : list A) :
  (forall a, In a s -> lt1 a k = less_ak key keyK a k /\ lt2 k a = less_ka key keyK k a) ->
  StdSet.erase lt1 lt2 k s = StdSet.erase (less_ak key keyK) (less_ka key keyK) k s.
Proof.
  induction s as [|y s IH]; simpl; intros Hext; [reflexivity|].
  destruct (Hext y (or_introl eq_refl)) as [-> ->].
  rewrite IH by auto. reflexivity.
Qed.
End Keyed.

Section KeyedInsert.
Context {A T : Type} `{Ord T}.
Variable key : A -> T.

Lemma insert_ext (less : A -> A -> bool) (x : A) (s : list A) :
  (forall a, In a s -> less a x = less_key key a x /\ less x a = less_key key x a) ->
  StdSet.insert less x s = StdSet.insert (less_key key) x s.
Proof.
  induction s as [|y s IH]; simpl; intros Hext; [reflexivity|].
  destruct (Hext y (or_introl eq_refl)) as [-> ->].
  rewrite IH by auto. reflexivity.
Qed.

Lemma insert_false (x : A) (s : list A) :
  sorted_by key s ->
  (exists a, In a s /\ key a = key x) ->
  StdSet.insert (less_key key) x s = (s, false).
Proof.
  induction s as [|y s IH]; simpl; intros Hs (a & Ha & Hk); [contradiction|].
  apply sorted_by_cons_inv in Hs. destruct Hs as [Hs Hy].
  rewrite Forall_forall in Hy. unfold less_key in *.
  destruct Ha as [->|Ha].
  - rewrite Hk, ltb_irrefl. reflexivity.
  - assert (Hlt : ltb (key y) (key x) = true) by (rewrite <- Hk; auto).
    rewrite Hlt, IH; eauto.
Qed.

Lemma insert_true (x : A) (s : list A) :
  sorted_by key s ->
  (forall a, In a s -> key a <> key x) ->
  exists l1 l2,
    s = l1 ++ l2 /\ StdSet.insert (less_key key) x s = (l1 ++ x :: l2, true)
    /\ Forall (fun a => ltb (key a) (key x) = true) l1
    /\ Forall (fun a => ltb (key x) (key a) = true) l2.
Proof.
  induction s as [|y s IH]; simpl; intros Hs Hne.
  - exists [], []. repeat split; constructor.
  - apply sorted_by_cons_inv in Hs. destruct Hs as [Hs Hy].
    unfold less_key in *.
    destruct (ltb (key y) (key x)) eqn:H1.
    + destruct (IH Hs) as (l1 & l2 & -> & Hi & H3 & H4); [auto|].
      exists (y :: l1), l2. rewrite Hi. repeat split; auto.
    + destruct (ltb (key x) (key y)) eqn:H2.
      * exists [], (y :: s). repeat split; auto.
        constructor; auto. eapply Forall_impl; [|exact Hy].
        simpl. intros a Ha. eapply ltb_trans; eauto.
      * exfalso. apply (Hne y); auto. now apply ltb_total.
Qed.

Lemma sorted_by_app_cons (l1 l2 : list A) (x : A) :
  sorted_by key (l1 ++ l2) ->
  Forall (fun a => ltb (key a) (key x) = true) l1 ->
  Forall (fun a => ltb (key x) (key a) = true) l2 ->
  sorted_by key (l1 ++ x :: l2).
Proof.
  induction l1 as [|y l1 IH]; simpl; intros Hs H1 H2.
  - constructor; auto.
  - apply sorted_by_cons_inv in Hs. destruct Hs as [Hs Hy].
    inversion H1; subst. constructor; [now apply IH|].
    rewrite Forall_forall in *. intros b Hb.
    apply in_app_or in Hb. destruct Hb as [Hb|[<-|Hb]]; auto.
    + apply Hy, in_or_app; auto.
    + apply Hy, in_or_app; auto.
Qed.

Lemma insert_cases (x : A) (s : list A) :
  sorted_by key s ->
  (StdSet.insert (less_key key) x s = (s, false)
   /\ exists a, In a s /\ key a = key x)
  \/ (exists l1 l2,
        s = l1 ++ l2 /\ StdSet.insert (less_key key) x s = (l1 ++ x :: l2, true)
        /\ Forall (fun a => ltb (key a) (key x) = true) l1
        /\ Forall (fun a => ltb (key x) (key a) = true) l2
        /\ forall a, In a s -> key a <> key x).
Proof.
  intros Hs.
  destruct (StdSet.contains (less_ak key key) (less_ka key key) x s) eqn:Hc.
  - apply contains_true_iff in Hc; auto. left. split; auto.
    now apply insert_false.
  - rewrite contains_false_iff in Hc by auto. right.
    destruct (insert_true x s Hs Hc) as (l1 & l2 & ? & ? & ? & ?).
    exists l1, l2. auto.
Qed.

Lemma insert_sorted (x : A) (s : list A) :
  sorted_by key s -> sorted_by key (fst (StdSet.insert (less_key key) x s)).
Proof.
  intros Hs. destruct (insert_cases x s Hs) as [[-> _]|(l1 & l2 & -> & -> & H1 & H2 & _)];
    simpl; auto.
  now apply sorted_by_app_cons.
Qed.

Lemma insert_snd (x : A) (s : list A) :
  sorted_by key s ->
  snd (StdSet.insert (less_key key) x s)
  = negb (StdSet.contains (less_ak key key) (less_ka key key) x s).
Proof.
  intros Hs. destruct (insert_cases x s Hs) as [[-> Hex]|(l1 & l2 & Hs' & -> & _ & _ & Hne)];
    simpl.
  - apply contains_true_iff in Hex; auto. now rewrite Hex.
  - apply contains_false_iff in Hne; auto. now rewrite Hne.
Qed.

Lemma insert_in_inv (x a : A) (s : list A) :
  In a (fst (StdSet.insert (less_key key) x s)) -> a = x \/ In a s.
Proof.
  induction s as [|y s IH]; simpl.
  - intros [<-|[]]. auto.
  - destruct (less_key key y x).
    + destruct (StdSet.insert (less_key key) x s) as [r b]. simpl in *.
      intros [->|Ha]; auto. destruct (IH Ha); auto.
    + destruct (less_key key x y); simpl; intros [Ha|Ha]; auto.
Qed.

Lemma insert_in_old (x a : A) (s : list A) :
  In a s -> In a (fst (StdSet.insert (less_key key) x s)).
Proof.
  induction s as [|y s IH]; simpl; [contradiction|].
  destruct (less_key key y x).
  - destruct (StdSet.insert (less_key key) x s) as [r b]. simpl in *.
    intros [->|Ha]; auto.
  - destruct (less_key key x y); simpl; auto.
Qed.

Lemma insert_in_key (x : A) (s : list A) :
  exists b, In b (fst (StdSet.insert (less_key key) x s)) /\ key b = key x.
Proof.
  induction s as [|y s IH]; simpl.
  - exists x. auto.
  - unfold less_key at 1. destruct (ltb (key y) (key x)) eqn:H1.
    + destruct IH as (b & Hb & Hk).
      destruct (StdSet.insert (less_key key) x s) as [r c]. simpl in *. eauto.
    + unfold less_key at 1. destruct (ltb (key x) (key y)) eqn:H2; simpl.
      * exists x. auto.
      * exists y. split; auto. now apply ltb_total.
Qed.

Lemma insert_true_in (x : A) (s : list A) :
  snd (StdSet.insert (less_key key) x s) = true ->
  In x (fst (StdSet.insert (less_key key) x s)).
Proof.
  induction s as [|y s IH]; simpl; auto.
  destruct (less_key key y x).
  - destruct (StdSet.insert (less_key key) x s) as [r b]. simpl in *. auto.
  - destruct (less_key key x y); simpl; auto. discriminate.
Qed.

Lemma insert_map_key (x : A) (s : list A) :
  map key (fst (StdSet.insert (less_key key) x s))
  = fst (StdSet.insert ltb (key x) (map key s)).
Proof.
  induction s as [|y s IH]; simpl; [reflexivity|].
  unfold less_key at 1. destruct (ltb (key y) (key x)).
  - destruct (StdSet.insert (less_key key) x s) as [r b].
    destruct (StdSet.insert ltb (key x) (map key s)) as [r' b'].
    simpl in *. now rewrite IH.
  - unfold less_key at 1. destruct (ltb (key x) (key y)); reflexivity.
Qed.

Lemma insert_range_sorted (xs s : list A) :
  sorted_by key s -> sorted_by key (StdSet.insert_range (less_key key) xs s).
Proof.
  revert s. induction xs as [|x xs IH]; simpl; intros s Hs; auto.
  apply IH. now apply insert_sorted.
Qed.

Lemma insert_range_in_inv (xs s : list A) (a : A) :
  In a (StdSet.insert_range (less_key key) xs s) -> In a xs \/ In a s.
Proof.
  revert s. induction xs as [|x xs IH]; simpl; intros s Ha; auto.
  apply IH in Ha. destruct Ha as [Ha|Ha]; auto.
  apply insert_in_inv in Ha. destruct Ha; auto.
Qed.

Lemma insert_range_in_old (xs s : list A) (a : A) :
  In a s -> In a (StdSet.insert_range (less_key key) xs s).
Proof.
  revert s. induction xs as [|x xs IH]; simpl; intros s Ha; auto.
  apply IH. now apply insert_in_old.
Qed.

Lemma insert_range_in_key (xs s : list A) (a : A) :
  In a xs ->
  exists b, In b (StdSet.insert_range (less_key key) xs s) /\ key b = key a.
Proof.
  revert s. induction xs as [|x xs IH]; simpl; intros s Ha; [contradiction|].
  destruct Ha as [->|Ha]; auto.
  destruct (insert_in_key a s) as (b & Hb & Hk).
  exists b. split; auto. now apply insert_range_in_old.
Qed.

Lemma insert_range_ext (less : A -> A -> bool) (xs s : list A) :
  (forall a b, In a (xs ++ s) -> In b (xs ++ s) -> less a b = less_key key a b) ->
  StdSet.insert_range less xs s = StdSet.insert_range (less_key key) xs s.
Proof.
  revert s. induction xs as [|x xs IH]; simpl; intros s Hext; auto.
  rewrite insert_ext.
  - apply IH. intros a b Ha Hb.
    assert (Hin : forall c, In c (xs ++ fst (StdSet.insert (less_key key) x s)) ->
                            In c (x :: xs ++ s)).
    { intros c Hc. apply in_app_or in Hc. destruct Hc as [Hc|Hc].
      - right. apply in_or_app. auto.
      - apply insert_in_inv in Hc. destruct Hc as [->|Hc]; [now left|].
        right. apply in_or_app. auto. }
    apply Hext; apply Hin; auto.
  - intros a Ha. split; apply Hext; simpl; auto; right; apply in_or_app; auto.
Qed.
End KeyedInsert.

(** ** Well-formed graphs *)

Section Invariant.
Context {N E : Type} {ordN : Ord N} {ordE : Ord E}.
Implicit Types (m : @memory N E) (g : graph) (t : edge_tuple).

Lemma edge_comp_cmp (e1 e2 : @edge N E) :
  edge_comp e1 e2 = cmp (get_weight e1) (get_weight e2).
Proof.
  unfold edge_comp, is_weighted.
  destruct (get_weight e1), (get_weight e2); reflexivity.
Qed.

Lemma ltb_pair {A B : Type} `{Ord A} `{Ord B} (a a' : A) (b b' : B) :
  ltb (a, b) (a', b')
  = if eqb a a' then ltb b b' else ltb a a'.
Proof.
  unfold ltb, eqb. simpl. unfold cmp_pair. simpl.
  destruct (cmp a a'); reflexivity.
Qed.

Lemma eqb_pair {A B : Type} `{Ord A} `{Ord B} (a a' : A) (b b' : B) :
  eqb (a, b) (a', b') = eqb a a' && eqb b b'.
Proof.
  unfold eqb. simpl. unfold cmp_pair. simpl.
  destruct (cmp a a'); reflexivity.
Qed.

(** On nodes whose values tell their addresses apart, the comparator of
    the edge store is the order of the records. *)
Lemma compare_edges_set_key m (x y : edge_tuple) :
  (node_cell m (get0 x) = node_cell m (get0 y) -> get0 x = get0 y) ->
  (node_cell m (get1 x) = node_cell m (get1 y) -> get1 x = get1 y) ->
  compare_edges_set m x y = ltb (edge_key m x) (edge_key m y).
Proof.
  intros H0 H1. unfold compare_edges_set, edge_key, compare_pp.
  rewrite !ltb_pair, eqb_pair.
  destruct (get0 x =? get0 y) eqn:E0; simpl.
  - apply Nat.eqb_eq in E0. rewrite E0, eqb_refl. simpl.
    destruct (get1 x =? get1 y) eqn:E1; simpl.
    + apply Nat.eqb_eq in E1. rewrite E1, eqb_refl.
      rewrite edge_comp_cmp. reflexivity.
    + apply Nat.eqb_neq in E1.
      destruct (eqb (node_cell m (get1 x)) (node_cell m (get1 y))) eqn:Ev;
        [|reflexivity].
      apply eqb_true_iff in Ev. now apply H1 in Ev.
  - apply Nat.eqb_neq in E0.
    destruct (eqb (node_cell m (get0 x)) (node_cell m (get0 y))) eqn:Ev;
      [|reflexivity].
    apply eqb_true_iff in Ev. now apply H0 in Ev.
Qed.

Lemma nodes_inj m g (p q : ptr) :
  sorted_by (node_cell m) (nodes_ g) ->
  In p (nodes_ g) -> In q (nodes_ g) ->
  node_cell m p = node_cell m q -> p = q.
Proof. intros Hs. now apply sorted_by_key_inj. Qed.

(** *** The node store under the invariant *)

Lemma find_node_ptr_some m g (v : N) (p : ptr) :
  find_node_ptr v g m = Some p -> In p (nodes_ g) /\ node_cell m p = v.
Proof.
  unfold find_node_ptr. intros Hf.
  exact (find_some (node_cell m) (fun v : N => v) v (nodes_ g) p Hf).
Qed.

Lemma find_node_ptr_none m g (v : N) :
  sorted_by (node_cell m) (nodes_ g) ->
  find_node_ptr v g m = None ->
  forall p, In p (nodes_ g) -> node_cell m p <> v.
Proof.
  unfold find_node_ptr. intros Hs Hf p Hp.
  exact (find_none (node_cell m) (fun v : N => v) v (nodes_ g) Hs Hf p Hp).
Qed.

Lemma find_node_ptr_in m g (v : N) (p : ptr) :
  sorted_by (node_cell m) (nodes_ g) ->
  In p (nodes_ g) -> node_cell m p = v -> find_node_ptr v g m = Some p.
Proof.
  unfold find_node_ptr. intros Hs Hp Hv.
  exact (find_in (node_cell m) (fun v : N => v) v (nodes_ g) p Hs Hp Hv).
Qed.

Lemma is_node_find m g (v : N) :
  is_node v g m = match find_node_ptr v g m with Some _ => true | None => false end.
Proof. reflexivity. Qed.

Lemma is_node_true_iff m g (v : N) :
  sorted_by (node_cell m) (nodes_ g) ->
  is_node v g m = true <-> In v (nodes g m).
Proof.
  intros Hs. unfold is_node, nodes.
  rewrite (contains_true_iff (node_cell m) (fun v : N => v) v (nodes_ g) Hs).
  rewrite in_map_iff. split; intros (p & H1 & H2); eauto.
Qed.

Lemma is_node_false_iff m g (v : N) :
  sorted_by (node_cell m) (nodes_ g) ->
  is_node v g m = false <-> ~ In v (nodes g m).
Proof.
  intros Hs. rewrite <- is_node_true_iff by auto.
  destruct (is_node v g m); split; congruence.
Qed.
End Invariant.

(** ** What a member function may touch *)

Section Frame.
Context {N E : Type} {ordN : Ord N} {ordE : Ord E}.
Implicit Types (m : @memory N E) (g : graph) (t : edge_tuple).

Lemma frame_refl m (w : list ptr) : frame m m w.
Proof. repeat split; auto. Qed.

Lemma frame_trans m m' m'' (w : list ptr) :
  frame m m' w -> frame m' m'' w -> frame m m'' w.
Proof.
  intros (H1 & H2 & H3) (H4 & H5 & H6). repeat split.
  - lia.
  - intros p Hp. rewrite H5 by lia. auto.
  - intros p Hp Hw. rewrite H6 by (auto; lia). auto.
Qed.

Lemma frame_weaken m m' (w w' : list ptr) :
  (forall p, In p w -> In p w') -> frame m m' w -> frame m m' w'.
Proof.
  intros Hsub (H1 & H2 & H3). repeat split; auto.
Qed.

Lemma fresh_or_old_refl m g : fresh_or_old m g g.
Proof. split; auto. Qed.

Lemma edge_ptrs_in g t : In t (edges_ g) -> In (get2 t) (edge_ptrs g).
Proof. intros Ht. unfold edge_ptrs. now apply in_map. Qed.

Lemma wf_node_lt m g (p : ptr) : wf m g -> In p (nodes_ g) -> p < top m.
Proof.
  intros Hwf Hp. pose proof (wf_nodes_alloc m g Hwf) as Ha.
  rewrite Forall_forall in Ha. auto.
Qed.

Lemma wf_edge_lt m g (p : ptr) : wf m g -> In p (edge_ptrs g) -> p < top m.
Proof.
  intros Hwf Hp. pose proof (wf_edges_alloc m g Hwf) as Ha.
  rewrite Forall_forall in Ha. unfold edge_ptrs in Hp.
  apply in_map_iff in Hp. destruct Hp as (t & <- & Ht). auto.
Qed.

Lemma wf_endpoints m g t : wf m g -> In t (edges_ g) -> endpoints_in g t.
Proof.
  intros Hwf Ht. pose proof (wf_edges_nodes m g Hwf) as Ha.
  rewrite Forall_forall in Ha. now apply Ha.
Qed.

Lemma wf_fields m g t :
  wf m g -> In t (edges_ g) ->
  get_nodes (edge_cell m (get2 t)) = (node_cell m (get0 t), node_cell m (get1 t)).
Proof.
  intros Hwf Ht. pose proof (wf_edges_fields m g Hwf) as Ha.
  rewrite Forall_forall in Ha. now apply Ha.
Qed.

Lemma frame_agree m m' g (w : list ptr) :
  wf m g -> frame m m' w ->
  (forall p, In p (edge_ptrs g) -> ~ In p w) ->
  agree m m' g.
Proof.
  intros Hwf (H1 & H2 & H3) Hd. repeat split; auto.
  - intros p Hp. apply H2. eapply wf_node_lt; eauto.
  - intros p Hp. apply H3; auto. eapply wf_edge_lt; eauto.
Qed.

Lemma sorted_by_ext {A T : Type} `{Ord T} (k1 k2 : A -> T) (s : list A) :
  (forall a, In a s -> k2 a = k1 a) -> sorted_by k1 s -> sorted_by k2 s.
Proof.
  induction s as [|y s IH]; intros Hext Hs; [constructor|].
  apply sorted_by_cons_inv in Hs. destruct Hs as [Hs Hy].
  constructor; [apply IH; auto; intros; apply Hext; now right|].
  rewrite Forall_forall in *. intros b Hb.
  rewrite !Hext by (simpl; auto). auto.
Qed.

Lemma agree_edge_key m m' g t :
  wf m g -> agree m m' g -> In t (edges_ g) -> edge_key m' t = edge_key m t.
Proof.
  intros Hwf (_ & Hn & He) Ht. unfold edge_key.
  destruct (wf_endpoints m g t Hwf Ht) as [H0 H1].
  rewrite (Hn _ H0), (Hn _ H1), (He _ (edge_ptrs_in g t Ht)). reflexivity.
Qed.

Lemma wf_agree m m' g : wf m g -> agree m m' g -> wf m' g.
Proof.
  intros Hwf Hag. pose proof Hag as (Ht & Hn & He).
  constructor.
  - eapply Forall_impl; [|exact (wf_nodes_alloc m g Hwf)]. simpl. intros. lia.
  - eapply sorted_by_ext; [|exact (wf_nodes_sorted m g Hwf)]. auto.
  - eapply Forall_impl; [|exact (wf_edges_alloc m g Hwf)]. simpl. intros. lia.
  - exact (wf_edges_nodes m g Hwf).
  - eapply sorted_by_ext; [|exact (wf_edges_sorted m g Hwf)].
    intros t Ht'. now apply (agree_edge_key m m' g t Hwf Hag).
  - rewrite Forall_forall. intros t Ht'.
    destruct (wf_endpoints m g t Hwf Ht') as [H0 H1].
    rewrite (Hn _ H0), (Hn _ H1), (He _ (edge_ptrs_in g t Ht')).
    now apply (wf_fields m g t Hwf).
  - exact (wf_edges_own m g Hwf).
Qed.

Lemma agree_nodes m m' g : agree m m' g -> nodes g m' = nodes g m.
Proof.
  intros (_ & Hn & _). unfold nodes. apply map_ext_in. auto.
Qed.

Lemma agree_records m m' g :
  wf m g -> agree m m' g -> records g m' = records g m.
Proof.
  intros Hwf Hag. unfold records. apply map_ext_in.
  intros t Ht. now apply (agree_edge_key m m' g t Hwf Hag).
Qed.

Lemma agree_range m m' g : agree m m' g -> range g m' = range g m.
Proof.
  intros (_ & _ & He). unfold range. apply map_ext_in.
  intros t Ht. unfold deref. now rewrite (He _ (edge_ptrs_in g t Ht)).
Qed.

(** On the elements of a well-formed graph the comparator of the edge
    store is the order of the records. *)
Lemma compare_edges_set_less_key m g (x y : edge_tuple) :
  sorted_by (node_cell m) (nodes_ g) ->
  endpoints_in g x -> endpoints_in g y ->
  compare_edges_set m x y = less_key (edge_key m) x y.
Proof.
  intros Hs [Hx0 Hx1] [Hy0 Hy1]. unfold less_key.
  apply compare_edges_set_key; apply (nodes_inj m g _ _ Hs); auto.
Qed.
End Frame.

(** ** insert_node and insert_edge *)

Section Insertion.
Context {N E : Type} {ordN : Ord N} {ordE : Ord E}.
Implicit Types (m : @memory N E) (g : graph) (t : edge_tuple).

Lemma make_shared_node_agree m g (v : N) :
  wf m g -> agree m (snd (make_shared_node v m)) g.
Proof.
  intros Hwf. unfold make_shared_node, agree. simpl. repeat split; auto.
  intros p Hp. apply (wf_node_lt m g p Hwf) in Hp.
  destruct (Nat.eqb_spec p (top m)); auto. lia.
Qed.

Lemma make_shared_edge_agree m g (e : edge) :
  wf m g -> agree m (snd (make_shared_edge e m)) g.
Proof.
  intros Hwf. unfold make_shared_edge, agree. simpl. repeat split; auto.
  intros p Hp. apply (wf_edge_lt m g p Hwf) in Hp.
  destruct (Nat.eqb_spec p (top m)); auto. lia.
Qed.

Lemma make_shared_node_frame m (v : N) (w : list ptr) :
  frame m (snd (make_shared_node v m)) w.
Proof.
  unfold make_shared_node, frame. simpl. repeat split; auto.
  intros p Hp. destruct (Nat.eqb_spec p (top m)); auto. lia.
Qed.

Lemma make_shared_edge_frame m (e : edge) (w : list ptr) :
  frame m (snd (make_shared_edge e m)) w.
Proof.
  unfold make_shared_edge, frame. simpl. repeat split; auto.
  intros p Hp _. destruct (Nat.eqb_spec p (top m)); auto. lia.
Qed.

(** Inserting a new node object into the node store of a well-formed
    graph. *)
Lemma nodes_insert_wf m g (p : ptr) :
  wf m g -> p < top m ->
  wf m {| nodes_ := fst (StdSet.insert (compare_pp m) p (nodes_ g));
          edges_ := edges_ g |}.
Proof.
  intros Hwf Hp. constructor; simpl.
  - rewrite Forall_forall. intros q Hq.
    apply (insert_in_inv (node_cell m)) in Hq. destruct Hq as [->|Hq]; auto.
    now apply (wf_node_lt m g).
  - apply (insert_sorted (node_cell m)). exact (wf_nodes_sorted m g Hwf).
  - exact (wf_edges_alloc m g Hwf).
  - rewrite Forall_forall. intros t Ht.
    destruct (wf_endpoints m g t Hwf Ht).
    split; now apply (insert_in_old (node_cell m)).
  - exact (wf_edges_sorted m g Hwf).
  - exact (wf_edges_fields m g Hwf).
  - exact (wf_edges_own m g Hwf).
Qed.

Lemma nodes_insert_view m g (p : ptr) :
  nodes {| nodes_ := fst (StdSet.insert (compare_pp m) p (nodes_ g));
           edges_ := edges_ g |} m
  = fst (StdSet.insert ltb (node_cell m p) (nodes g m)).
Proof. unfold nodes. simpl. apply (insert_map_key (node_cell m)). Qed.

Lemma insert_node_false m g (v : N) :
  is_node v g m = true -> insert_node v g m = (false, g, m).
Proof. intros Hn. unfold insert_node. now rewrite Hn. Qed.

Lemma insert_node_true m g (v : N) :
  wf m g -> is_node v g m = false ->
  exists g' m',
    insert_node v g m = (true, g', m')
    /\ step_ok m g m' g'
    /\ nodes g' m' = fst (StdSet.insert ltb v (nodes g m))
    /\ edges_ g' = edges_ g
    /\ agree m m' g.
Proof.
  intros Hwf Hn. unfold insert_node. rewrite Hn.
  pose proof (make_shared_node_agree m g v Hwf) as Hag.
  pose proof (make_shared_node_frame m v (edge_ptrs g)) as Hfr.
  destruct (make_shared_node v m) as [p m1] eqn:Hmk.
  assert (Hp : p = top m) by (unfold make_shared_node in Hmk; congruence).
  assert (Hv : node_cell m1 p = v).
  { unfold make_shared_node in Hmk. injection Hmk as <- <-. simpl.
    now rewrite Nat.eqb_refl. }
  assert (Htop : top m1 = S (top m))
    by (unfold make_shared_node in Hmk; injection Hmk as <- <-; reflexivity).
  simpl in Hag, Hfr.
  pose proof (wf_agree m m1 g Hwf Hag) as Hwf1.
  eexists _, _. split; [reflexivity|]. split; [|split; [|split]].
  - split; [|split; [exact Hfr|split]].
    + apply nodes_insert_wf; auto. lia.
    + simpl. intros q Hq. apply (insert_in_inv (node_cell m1)) in Hq.
      destruct Hq as [->|Hq]; auto. right. lia.
    + simpl. unfold edge_ptrs. simpl. auto.
  - rewrite nodes_insert_view, Hv. now rewrite (agree_nodes m m1 g Hag).
  - reflexivity.
  - exact Hag.
Qed.

Lemma sorted_by_map {A T : Type} `{Ord T} (key : A -> T) (s : list A) :
  sorted_by key s <-> sorted_by (fun x : T => x) (map key s).
Proof.
  induction s as [|y s IH]; simpl.
  - split; constructor.
  - split; intros Hs; apply sorted_by_cons_inv in Hs; destruct Hs as [Hs Hy];
      (constructor; [now apply IH|]).
    + rewrite Forall_forall in *. intros b Hb. apply in_map_iff in Hb.
      destruct Hb as (a & <- & Ha). auto.
    + rewrite Forall_forall in *. intros b Hb. apply Hy. now apply in_map.
Qed.

Lemma insert_value_false {T : Type} `{Ord T} (x : T) (l : list T) :
  sorted_by (fun r : T => r) l -> In x l -> StdSet.insert ltb x l = (l, false).
Proof.
  intros Hs Hin.
  exact (insert_false (fun r : T => r) x l Hs (ex_intro _ x (conj Hin eq_refl))).
Qed.

Lemma insert_value_sorted {T : Type} `{Ord T} (x : T) (l : list T) :
  sorted_by (fun r : T => r) l ->
  sorted_by (fun r : T => r) (fst (StdSet.insert ltb x l)).
Proof. exact (insert_sorted (fun r : T => r) x l). Qed.

Lemma insert_value_in {T : Type} `{Ord T} (x a : T) (l : list T) :
  In a (fst (StdSet.insert ltb x l)) <-> a = x \/ In a l.
Proof.
  split.
  - exact (insert_in_inv (fun r : T => r) x a l).
  - intros [->|Ha].
    + destruct (insert_in_key (fun r : T => r) x l) as (b & Hb & Hk).
      simpl in Hk. subst b. exact Hb.
    + exact (insert_in_old (fun r : T => r) x a l Ha).
Qed.

Lemma records_sorted m g : wf m g -> sorted_by (fun r : N * N * option E => r) (records g m).
Proof.
  intros Hwf. unfold records. apply -> (sorted_by_map (edge_key m)).
  exact (wf_edges_sorted m g Hwf).
Qed.

Lemma nodes_sorted m g : wf m g -> sorted_by (fun v : N => v) (nodes g m).
Proof.
  intros Hwf. unfold nodes. apply -> (sorted_by_map (node_cell m)).
  exact (wf_nodes_sorted m g Hwf).
Qed.

Lemma insert_edge_throw m g (src dst : N) (w : option E) :
  is_node src g m = false \/ is_node dst g m = false ->
  insert_edge src dst w g m
  = (Throw "Cannot call gdwg::graph<N, E>::insert_edge when either src or dst node does not exist"%string,
     g, m).
Proof.
  unfold insert_edge. rewrite !is_node_find.
  destruct (find_node_ptr src g m), (find_node_ptr dst g m);
    intros [Hn|Hn]; try discriminate; reflexivity.
Qed.

Lemma insert_edge_ok m g (src dst : N) (w : option E) :
  wf m g -> is_node src g m = true -> is_node dst g m = true ->
  exists b g' m',
    insert_edge src dst w g m = (Ok b, g', m')
    /\ step_ok m g m' g'
    /\ agree m m' g
    /\ nodes_ g' = nodes_ g
    /\ (b = false <-> In (src, dst, w) (records g m))
    /\ (b = false -> g' = g)
    /\ records g' m' = fst (StdSet.insert ltb (src, dst, w) (records g m)).
Proof.
  intros Hwf Hs Hd. unfold insert_edge. rewrite is_node_find in Hs, Hd.
  destruct (find_node_ptr src g m) as [src_ptr|] eqn:Hfs; [|discriminate].
  destruct (find_node_ptr dst g m) as [dst_ptr|] eqn:Hfd; [|discriminate].
  apply find_node_ptr_some in Hfs, Hfd.
  destruct Hfs as [Hsin Hsv], Hfd as [Hdin Hdv].
  set (e := match w with
            | Some x => weighted_edge src dst x
            | None => unweighted_edge src dst
            end).
  pose proof (make_shared_edge_agree m g e Hwf) as Hag.
  pose proof (make_shared_edge_frame m e (edge_ptrs g)) as Hfr.
  destruct (make_shared_edge e m) as [p m1] eqn:Hmk.
  assert (Hp : p = top m) by (unfold make_shared_edge in Hmk; congruence).
  assert (He : edge_cell m1 p = e).
  { unfold make_shared_edge in Hmk. injection Hmk as <- <-. simpl.
    now rewrite Nat.eqb_refl. }
  assert (Hnc : node_cell m1 = node_cell m)
    by (unfold make_shared_edge in Hmk; injection Hmk as <- <-; reflexivity).
  assert (Htop : top m1 = S (top m))
    by (unfold make_shared_edge in Hmk; injection Hmk as <- <-; reflexivity).
  simpl in Hag, Hfr.
  pose proof (wf_agree m m1 g Hwf Hag) as Hwf1.
  set (new_edge := (src_ptr, dst_ptr, p) : edge_tuple).
  assert (Hkey : edge_key m1 new_edge = (src, dst, w)).
  { unfold edge_key, new_edge, get0, get1, get2. simpl.
    rewrite Hnc, Hsv, Hdv, He. unfold e. now destruct w. }
  assert (Hend : endpoints_in g new_edge) by (split; assumption).
  assert (Hext : forall a, In a (edges_ g) ->
            compare_edges_set m1 a new_edge = less_key (edge_key m1) a new_edge
            /\ compare_edges_set m1 new_edge a = less_key (edge_key m1) new_edge a).
  { intros a Ha. pose proof (wf_endpoints m1 g a Hwf1 Ha) as Hea.
    split; apply (compare_edges_set_less_key m1 g); auto;
      exact (wf_nodes_sorted m1 g Hwf1). }
  rewrite (contains_ext (edge_key m1) (edge_key m1) _ _ new_edge (edges_ g) Hext).
  rewrite (insert_ext (edge_key m1) _ new_edge (edges_ g) Hext).
  pose proof (wf_edges_sorted m1 g Hwf1) as Hsorted.
  assert (Hrec : records g m1 = records g m) by now apply agree_records.
  destruct (insert_cases (edge_key m1) new_edge (edges_ g) Hsorted)
    as [[Hins Hex]|(l1 & l2 & Hsplit & Hins & Hl1 & Hl2 & Hne)].
  - (* an equal record is stored *)
    assert (Hc : StdSet.contains (less_ak (edge_key m1) (edge_key m1))
                   (less_ka (edge_key m1) (edge_key m1)) new_edge (edges_ g) = true)
      by (apply contains_true_iff; auto).
    rewrite Hc. exists false, g, m1. split; [reflexivity|].
    assert (Hin : In (src, dst, w) (records g m)).
    { rewrite <- Hrec, <- Hkey. destruct Hex as (a & Ha & <-).
      unfold records. now apply in_map. }
    split; [|split; [|split; [|split; [|split]]]]; auto.
    + split; [exact Hwf1|split; [exact Hfr|apply fresh_or_old_refl]].
    + tauto.
    + rewrite insert_value_false; auto. now apply records_sorted.
  - (* the record is new *)
    assert (Hc : StdSet.contains (less_ak (edge_key m1) (edge_key m1))
                   (less_ka (edge_key m1) (edge_key m1)) new_edge (edges_ g) = false)
      by (apply contains_false_iff; auto).
    rewrite Hc, Hins. simpl. eexists true, _, m1. split; [reflexivity|].
    assert (Hperm : Permutation (new_edge :: edges_ g) (l1 ++ new_edge :: l2))
      by (rewrite Hsplit; apply Permutation_middle).
    assert (Hnin : ~ In (src, dst, w) (records g m)).
    { rewrite <- Hrec, <- Hkey. unfold records. rewrite in_map_iff.
      intros (a & Hk & Ha). exact (Hne a Ha Hk). }
    split; [|split; [|split; [|split; [|split]]]]; auto.
    + split; [|split; [exact Hfr|split]].
      * constructor; simpl.
        -- exact (wf_nodes_alloc m1 g Hwf1).
        -- exact (wf_nodes_sorted m1 g Hwf1).
        -- eapply Permutation_Forall; [exact Hperm|]. constructor.
           ++ unfold new_edge, get2. simpl. lia.
           ++ exact (wf_edges_alloc m1 g Hwf1).
        -- eapply Permutation_Forall; [exact Hperm|]. constructor.
           ++ exact Hend.
           ++ exact (wf_edges_nodes m1 g Hwf1).
        -- apply sorted_by_app_cons; auto. now rewrite <- Hsplit.
        -- eapply Permutation_Forall; [exact Hperm|]. constructor.
           ++ unfold new_edge, get0, get1, get2. simpl.
              rewrite He, Hnc, Hsv, Hdv. unfold e. now destruct w.
           ++ exact (wf_edges_fields m1 g Hwf1).
        -- unfold edge_ptrs. simpl.
           eapply Permutation_NoDup; [apply Permutation_map; exact Hperm|].
           simpl. constructor; [|exact (wf_edges_own m1 g Hwf1)].
           unfold new_edge, get2 at 1. simpl. intros Hin.
           apply (wf_edge_lt m g p Hwf) in Hin. lia.
      * simpl. auto.
      * unfold edge_ptrs. simpl. intros q Hq.
        apply (Permutation_in _ (Permutation_sym (Permutation_map get2 Hperm))) in Hq.
        simpl in Hq. destruct Hq as [<-|Hq]; auto.
        right. unfold new_edge, get2. simpl. lia.
    + split; [discriminate|contradiction].
    + discriminate.
    + unfold records at 1. simpl. rewrite <- Hkey, <- Hrec.
      pose proof (insert_map_key (edge_key m1) new_edge (edges_ g)) as Hmap.
      rewrite Hins in Hmap. exact Hmap.
Qed.
End Insertion.

(** ** Erasing *)

Section ListFacts.
Context {A : Type}.

Lemma StronglySorted_remove_middle (R : A -> A -> Prop) (l1 l2 l3 : list A) :
  StronglySorted R (l1 ++ l2 ++ l3) -> StronglySorted R (l1 ++ l3).
Proof.
  induction l1 as [|x l1 IH]; simpl; intros Hs.
  - induction l2 as [|y l2 IH2]; simpl in *; auto.
    inversion Hs; subst. auto.
  - inversion Hs; subst. constructor; auto.
    rewrite Forall_forall in *. intros b Hb. apply H2.
    apply in_app_or in Hb. apply in_or_app. destruct Hb; auto.
    right. apply in_or_app. auto.
Qed.

Lemma NoDup_remove_middle (l1 l2 l3 : list A) :
  NoDup (l1 ++ l2 ++ l3) -> NoDup (l1 ++ l3).
Proof.
  induction l2 as [|y l2 IH]; simpl; auto.
  intros Hd. apply NoDup_remove_1 in Hd. auto.
Qed.

Lemma erase_at_span (i : nat) (s : list A) :
  StdSet.erase_at i s = StdSet.erase_span i (S i) s.
Proof.
  unfold StdSet.erase_span. revert i. induction s as [|y s IH]; intros [|i]; simpl; auto.
  f_equal. apply IH.
Qed.

Lemma erase_span_split (i j : nat) (s : list A) :
  i <= j ->
  exists l1 l2 l3, s = l1 ++ l2 ++ l3 /\ StdSet.erase_span i j s = l1 ++ l3.
Proof.
  intros Hij. unfold StdSet.erase_span.
  exists (firstn i s), (firstn (j - i) (skipn i s)), (skipn j s).
  split; auto.
  replace (skipn j s) with (skipn (j - i) (skipn i s)).
  - now rewrite !firstn_skipn.
  - rewrite skipn_skipn. f_equal. lia.
Qed.

Lemma find_if_le (p : A -> bool) (s : list A) :
  StdSet.find_if p s <= length s.
Proof. induction s as [|y s IH]; simpl; [lia|]. destruct (p y); lia. Qed.

Lemma find_if_end_iff (p : A -> bool) (s : list A) :
  StdSet.find_if p s = length s <-> forall x, In x s -> p x = false.
Proof.
  induction s as [|y s IH]; simpl.
  - split; auto. contradiction.
  - destruct (p y) eqn:Hp.
    + split; [discriminate|]. intros Hall.
      rewrite (Hall y) in Hp by auto. discriminate.
    + rewrite Nat.succ_inj_wd, IH. split.
      * intros Hall x [<-|Hx]; auto.
      * intros Hall x Hx. auto.
Qed.

Lemma find_if_found (p : A -> bool) (s : list A) :
  StdSet.find_if p s < length s ->
  exists x, nth_error s (StdSet.find_if p s) = Some x /\ p x = true.
Proof.
  induction s as [|y s IH]; simpl; [lia|].
  destruct (p y) eqn:Hp.
  - intros _. exists y. auto.
  - intros Hlt. apply IH. lia.
Qed.

(** Where at most one element passes the predicate, erasing the first
    one that does leaves those that do not. *)
Lemma erase_at_find_if (p : A -> bool) (s : list A) :
  NoDup s ->
  (forall x y, In x s -> In y s -> p x = true -> p y = true -> x = y) ->
  StdSet.erase_at (StdSet.find_if p s) s = filter (fun x => negb (p x)) s.
Proof.
  induction s as [|y s IH]; simpl; intros Hd Huniq; auto.
  inversion Hd; subst.
  destruct (p y) eqn:Hp; simpl.
  - symmetry. apply forallb_filter_id. apply forallb_forall.
    intros x Hx. apply negb_true_iff.
    destruct (p x) eqn:Hpx; auto.
    assert (x = y) by (apply Huniq; auto). subst. contradiction.
  - f_equal. apply IH; auto.
Qed.

Lemma NoDup_map_filter {B : Type} (f : A -> B) (p : A -> bool) (s : list A) :
  NoDup (map f s) -> NoDup (map f (filter p s)).
Proof.
  induction s as [|y s IH]; simpl; auto.
  intros Hd. inversion Hd; subst.
  destruct (p y); simpl; auto.
  constructor; auto. intros Hin. apply H1.
  apply in_map_iff in Hin. destruct Hin as (x & Hfx & Hx).
  apply filter_In in Hx. apply in_map_iff. exists x. tauto.
Qed.

Lemma filter_map_comm {B : Type} (f : A -> B) (p : B -> bool) (s : list A) :
  filter p (map f s) = map f (filter (fun a => p (f a)) s).
Proof.
  induction s as [|y s IH]; simpl; auto.
  destruct (p (f y)); simpl; now rewrite IH.
Qed.
End ListFacts.

Section Erasing.
Context {N E : Type} {ordN : Ord N} {ordE : Ord E}.
Implicit Types (m : @memory N E) (g : graph) (t : edge_tuple).

(** A graph that keeps some of the nodes and some of the edges of a
    well-formed one, in their order, is well formed if every edge kept
    has its nodes kept. *)
Lemma wf_sub m g (ns : list ptr) (es : list edge_tuple) :
  wf m g ->
  incl ns (nodes_ g) -> sorted_by (node_cell m) ns ->
  incl es (edges_ g) -> sorted_by (edge_key m) es -> NoDup (map get2 es) ->
  (forall t, In t es -> In (get0 t) ns /\ In (get1 t) ns) ->
  wf m {| nodes_ := ns; edges_ := es |}.
Proof.
  intros Hwf Hn Hns He Hes Hd Hend. constructor; simpl; auto.
  - rewrite Forall_forall. intros p Hp. apply (wf_node_lt m g); auto.
  - rewrite Forall_forall. intros t Ht.
    apply (wf_edge_lt m g); auto. apply edge_ptrs_in. auto.
  - rewrite Forall_forall. auto.
  - rewrite Forall_forall. intros t Ht. apply (wf_fields m g); auto.
Qed.

Lemma wf_erase_span m g (i j : nat) :
  wf m g -> i <= j ->
  wf m {| nodes_ := nodes_ g; edges_ := StdSet.erase_span i j (edges_ g) |}.
Proof.
  intros Hwf Hij.
  destruct (erase_span_split i j (edges_ g) Hij) as (l1 & l2 & l3 & Hs & ->).
  assert (Hincl : incl (l1 ++ l3) (edges_ g)).
  { rewrite Hs. intros t Ht. apply in_app_or in Ht. apply in_or_app.
    destruct Ht; auto. right. apply in_or_app. auto. }
  apply (wf_sub m g); auto.
  - apply incl_refl.
  - exact (wf_nodes_sorted m g Hwf).
  - pose proof (wf_edges_sorted m g Hwf) as Hsorted. rewrite Hs in Hsorted.
    exact (StronglySorted_remove_middle _ l1 l2 l3 Hsorted).
  - pose proof (wf_edges_own m g Hwf) as Hd. unfold edge_ptrs in Hd.
    rewrite Hs, !map_app in Hd. rewrite map_app.
    exact (NoDup_remove_middle _ _ _ Hd).
  - intros t Ht. apply (wf_endpoints m g t Hwf). auto.
Qed.

Lemma wf_erase_at m g (i : nat) :
  wf m g ->
  wf m {| nodes_ := nodes_ g; edges_ := StdSet.erase_at i (edges_ g) |}.
Proof.
  intros Hwf. rewrite erase_at_span. apply wf_erase_span; auto.
Qed.

Lemma wf_clear m g : wf m (clear g).
Proof.
  constructor; simpl; try constructor.
Qed.

Lemma nodes_erase_filter m (ns : list ptr) (p : ptr) :
  sorted_by (node_cell m) ns ->
  StdSet.erase (compare_pp m) (compare_pp m) p ns
  = filter (fun a => negb (eqb (node_cell m a) (node_cell m p))) ns.
Proof. exact (erase_filter (node_cell m) (node_cell m) p ns). Qed.

Lemma erase_node_false m g (v : N) :
  is_node v g m = false -> erase_node v g m = (false, g, m).
Proof.
  unfold erase_node. rewrite is_node_find.
  destruct (find_node_ptr v g m); [discriminate|reflexivity].
Qed.

Lemma erase_node_true m g (v : N) :
  wf m g -> is_node v g m = true ->
  exists g',
    erase_node v g m = (true, g', m)
    /\ wf m g'
    /\ incl (nodes_ g') (nodes_ g) /\ incl (edges_ g') (edges_ g)
    /\ nodes g' m = filter (fun x => negb (eqb x v)) (nodes g m)
    /\ records g' m
       = filter (fun r => negb (eqb (fst (fst r)) v || eqb (snd (fst r)) v))
           (records g m)
    /\ range g' m
       = filter (fun x => negb (eqb (from x) v || eqb (to x) v)) (range g m).
Proof.
  intros Hwf Hn. unfold erase_node. rewrite is_node_find in Hn.
  destruct (find_node_ptr v g m) as [node_ptr|] eqn:Hf; [|discriminate].
  apply find_node_ptr_some in Hf. destruct Hf as [Hin Hv].
  eexists. split; [reflexivity|].
  rewrite (nodes_erase_filter m (nodes_ g) node_ptr (wf_nodes_sorted m g Hwf)).
  rewrite Hv.
  split; [|split; [|split; [|split; [|split]]]]; simpl.
  - apply (wf_sub m g); auto.
    + intros p Hp. apply filter_In in Hp. tauto.
    + apply sorted_by_filter. exact (wf_nodes_sorted m g Hwf).
    + intros t Ht. apply filter_In in Ht. tauto.
    + apply sorted_by_filter. exact (wf_edges_sorted m g Hwf).
    + apply NoDup_map_filter. exact (wf_edges_own m g Hwf).
    + intros t Ht. apply filter_In in Ht. destruct Ht as [Ht Hp].
      destruct (wf_endpoints m g t Hwf Ht) as [H0 H1].
      apply negb_true_iff, orb_false_iff in Hp. destruct Hp as [Hp0 Hp1].
      split; apply filter_In; split; auto; [now rewrite Hp0 | now rewrite Hp1].
  - intros p Hp. apply filter_In in Hp. tauto.
  - intros t Ht. apply filter_In in Ht. tauto.
  - unfold nodes. simpl. symmetry.
    exact (filter_map_comm (node_cell m) (fun x => negb (eqb x v)) (nodes_ g)).
  - unfold records. simpl. symmetry.
    exact (filter_map_comm (edge_key m)
             (fun r => negb (eqb (fst (fst r)) v || eqb (snd (fst r)) v))
             (edges_ g)).
  - unfold range. simpl. rewrite filter_map_comm. f_equal.
    apply filter_ext_in. intros t Ht. unfold deref. simpl.
    now rewrite (wf_fields m g t Hwf Ht).
Qed.
End Erasing.

(** ** Looking edges up *)

Section Lookup.
Context {N E : Type} {ordN : Ord N} {ordE : Ord E}.
Implicit Types (m : @memory N E) (g : graph) (t : edge_tuple).

Lemma eqb_option (x y : option E) : eqb x y = opt_eqb x y.
Proof. destruct x, y; reflexivity. Qed.

Lemma eqb_record (a b c d : N) (x y : option E) :
  eqb (a, b, x) (c, d, y) = eqb a c && eqb b d && opt_eqb x y.
Proof. now rewrite !eqb_pair, eqb_option. Qed.

Lemma range_records m g : wf m g -> map triple (range g m) = records g m.
Proof.
  intros Hwf. unfold range, records. rewrite map_map.
  apply map_ext_in. intros t Ht. unfold triple, deref, edge_key. simpl.
  now rewrite (wf_fields m g t Hwf Ht).
Qed.

Lemma records_NoDup m g : wf m g -> NoDup (records g m).
Proof.
  intros Hwf. apply (sorted_by_NoDup (fun r : N * N * option E => r)).
  now apply records_sorted.
Qed.

Lemma erase_edge_throw m g (src dst : N) (w : option E) :
  is_node src g m = false \/ is_node dst g m = false ->
  erase_edge src dst w g m
  = (Throw "Cannot call gdwg::graph<N, E>::erase_edge on src or dst if they don't exist in the graph"%string,
     g, m).
Proof.
  unfold erase_edge. intros [-> | ->]; simpl; auto.
  now rewrite orb_true_r.
Qed.

Lemma erase_edge_ok m g (src dst : N) (w : option E) :
  wf m g -> is_node src g m = true -> is_node dst g m = true ->
  exists b g',
    erase_edge src dst w g m = (Ok b, g', m)
    /\ wf m g'
    /\ nodes_ g' = nodes_ g
    /\ incl (edges_ g') (edges_ g)
    /\ (b = true <-> In (src, dst, w) (records g m))
    /\ (b = false -> g' = g)
    /\ records g' m
       = filter (fun r => negb (eqb r (src, dst, w))) (records g m).
Proof.
  intros Hwf Hs Hd. unfold erase_edge. rewrite Hs, Hd. simpl.
  set (p := fun e : edge_tuple =>
              eqb (node_cell m (get0 e)) src && eqb (node_cell m (get1 e)) dst
              && opt_eqb (get_weight (edge_cell m (get2 e))) w).
  assert (Hp : forall e, p e = eqb (edge_key m e) (src, dst, w)).
  { intros e. unfold p, edge_key. now rewrite eqb_record. }
  assert (Hfilter : filter (fun r => negb (eqb r (src, dst, w))) (records g m)
                    = map (edge_key m) (filter (fun e => negb (p e)) (edges_ g))).
  { unfold records. rewrite filter_map_comm. f_equal.
    apply filter_ext. intros e. now rewrite Hp. }
  destruct (Nat.eqb_spec (StdSet.find_if p (edges_ g)) (length (edges_ g)))
    as [Hend|Hfound].
  - exists false, g. split; [reflexivity|].
    rewrite find_if_end_iff in Hend.
    split; [exact Hwf|]. split; [reflexivity|]. split; [apply incl_refl|].
    split; [|split; [reflexivity|]].
    + split; [discriminate|]. intros Hin. unfold records in Hin.
      apply in_map_iff in Hin. destruct Hin as (e & Hk & He).
      specialize (Hend e He). rewrite Hp, Hk, eqb_refl in Hend. discriminate.
    + rewrite Hfilter. unfold records. f_equal. symmetry.
      apply forallb_filter_id, forallb_forall. intros e He.
      now rewrite (Hend e He).
  - eexists true, _. split; [reflexivity|].
    assert (Hlt : StdSet.find_if p (edges_ g) < length (edges_ g))
      by (pose proof (find_if_le p (edges_ g)); lia).
    destruct (find_if_found p (edges_ g) Hlt) as (e & Hnth & Hpe).
    apply nth_error_In in Hnth.
    split; [now apply wf_erase_at|]. split; [reflexivity|].
    assert (Herase : StdSet.erase_at (StdSet.find_if p (edges_ g)) (edges_ g)
                     = filter (fun e => negb (p e)) (edges_ g)).
    { apply erase_at_find_if.
      - apply (sorted_by_NoDup (edge_key m)). exact (wf_edges_sorted m g Hwf).
      - intros x y Hx Hy Hpx Hpy. rewrite Hp in Hpx, Hpy.
        apply eqb_true_iff in Hpx, Hpy.
        apply (sorted_by_key_inj (edge_key m) (edges_ g)); auto.
        + exact (wf_edges_sorted m g Hwf).
        + congruence. }
    simpl. rewrite Herase.
    split; [|split; [|split; [discriminate|]]].
    + intros x Hx. apply filter_In in Hx. tauto.
    + split; auto. intros _. unfold records. apply in_map_iff.
      exists e. split; auto. rewrite Hp in Hpe. now apply eqb_true_iff.
    + unfold records at 1. simpl. now rewrite Hfilter.
Qed.

(** [find] on the records of a well-formed graph. *)
Lemma find_records m g (src dst : N) (w : option E) :
  wf m g ->
  find src dst w g m
  = StdSet.find_if (fun r => eqb r (src, dst, w)) (records g m).
Proof.
  intros Hwf. unfold find. rewrite <- (range_records m g Hwf).
  induction (range g m) as [|v l IH]; simpl; auto.
  unfold triple at 1. rewrite eqb_record.
  destruct (eqb (from v) src && eqb (to v) dst && opt_eqb (weight v) w); auto.
Qed.

Lemma find_end_iff m g (src dst : N) (w : option E) :
  wf m g ->
  find src dst w g m = end_ g <-> ~ In (src, dst, w) (records g m).
Proof.
  intros Hwf. rewrite find_records by auto. unfold end_.
  replace (length (edges_ g)) with (length (records g m))
    by (unfold records; apply length_map).
  rewrite find_if_end_iff. split.
  - intros Hall Hin. specialize (Hall _ Hin). rewrite eqb_refl in Hall.
    discriminate.
  - intros Hnin r Hr. apply eqb_false_iff. congruence.
Qed.

Lemma find_le m g (src dst : N) (w : option E) :
  find src dst w g m <= end_ g.
Proof.
  unfold find, end_.
  replace (length (edges_ g)) with (length (range g m))
    by (unfold range; apply length_map).
  apply find_if_le.
Qed.

Lemma find_found m g (src dst : N) (w : option E) :
  find src dst w g m < end_ g ->
  exists v, nth_error (range g m) (find src dst w g m) = Some v
            /\ triple v = (src, dst, w).
Proof.
  unfold find, end_.
  replace (length (edges_ g)) with (length (range g m))
    by (unfold range; apply length_map).
  intros Hlt. apply find_if_found in Hlt. destruct Hlt as (v & Hnth & Hp).
  exists v. split; auto.
  apply andb_true_iff in Hp. destruct Hp as [Hp Hw].
  apply andb_true_iff in Hp. destruct Hp as [Hf Ht].
  apply eqb_true_iff in Hf, Ht. apply opt_eqb_true_iff in Hw.
  unfold triple. congruence.
Qed.
End Lookup.

(** ** update_node *)

Section Update.
Context {N E : Type} {ordN : Ord N} {ordE : Ord E}.
Implicit Types (m : @memory N E) (g : graph) (t : edge_tuple).

Lemma insert_pointwise_ext {A : Type} (f h : A -> A -> bool) (x : A) (s : list A) :
  (forall a b, f a b = h a b) -> StdSet.insert f x s = StdSet.insert h x s.
Proof.
  intros Hfh. induction s as [|y s IH]; simpl; auto.
  now rewrite !Hfh, IH.
Qed.

Lemma insert_range_pointwise_ext {A : Type} (f h : A -> A -> bool) (xs s : list A) :
  (forall a b, f a b = h a b) ->
  StdSet.insert_range f xs s = StdSet.insert_range h xs s.
Proof.
  intros Hfh. revert s. induction xs as [|x xs IH]; simpl; intros s; auto.
  now rewrite (insert_pointwise_ext f h x s Hfh), IH.
Qed.

Lemma get_weight_set_nodes (a b : N) (e : @edge N E) :
  get_weight (set_nodes a b e) = get_weight e.
Proof. now destruct e. Qed.

Lemma get_nodes_set_nodes (a b : N) (e : @edge N E) :
  get_nodes (set_nodes a b e) = (a, b).
Proof. now destruct e. Qed.

Lemma compare_edges_set_ext m m' :
  node_cell m' = node_cell m ->
  (forall p, get_weight (edge_cell m' p) = get_weight (edge_cell m p)) ->
  forall x y, compare_edges_set m' x y = compare_edges_set m x y.
Proof.
  intros Hn Hw x y. unfold compare_edges_set, compare_pp.
  now rewrite Hn, !edge_comp_cmp, !Hw.
Qed.

Lemma edge_key_ext m m' :
  node_cell m' = node_cell m ->
  (forall p, get_weight (edge_cell m' p) = get_weight (edge_cell m p)) ->
  forall t, edge_key m' t = edge_key m t.
Proof. intros Hn Hw t. unfold edge_key. now rewrite Hn, Hw. Qed.

Lemma write_nodes_weight m (p q : ptr) (a b : N) :
  get_weight (edge_cell (write_nodes p a b m) q) = get_weight (edge_cell m q).
Proof.
  unfold write_nodes. simpl. destruct (Nat.eqb_spec q p); auto.
  subst. apply get_weight_set_nodes.
Qed.

Lemma update_loop_spec (src_ptr dst_ptr : ptr) (rest : list edge_tuple) :
  forall (upd : list edge_tuple) m kept upd' m',
    update_loop src_ptr dst_ptr rest upd m = (kept, upd', m') ->
    kept = filter (fun t => negb (incident src_ptr t)) rest
    /\ upd' = StdSet.insert_range (compare_edges_set m)
                (map (rewire src_ptr dst_ptr) (filter (incident src_ptr) rest))
                upd
    /\ node_cell m' = node_cell m
    /\ top m' = top m
    /\ (forall p, get_weight (edge_cell m' p) = get_weight (edge_cell m p))
    /\ (forall p, ~ In p (map get2 (filter (incident src_ptr) rest)) ->
                  edge_cell m' p = edge_cell m p)
    /\ (NoDup (map get2 rest) ->
        forall t, In t (filter (incident src_ptr) rest) ->
          get_nodes (edge_cell m' (get2 t))
          = (node_cell m (get0 (rewire src_ptr dst_ptr t)),
             node_cell m (get1 (rewire src_ptr dst_ptr t)))).
Proof.
  induction rest as [|it rest IH]; intros upd m kept upd' m' Hloop.
  - simpl in Hloop. injection Hloop as <- <- <-. simpl.
    repeat split; auto. intros _ t [].
  - simpl in Hloop. fold (incident src_ptr it) in Hloop.
    simpl. destruct (incident src_ptr it) eqn:Hinc; simpl.
    + fold (rewire src_ptr dst_ptr it) in Hloop.
      set (m1 := write_nodes (get2 it)
                   (node_cell m (get0 (rewire src_ptr dst_ptr it)))
                   (node_cell m (get1 (rewire src_ptr dst_ptr it))) m) in *.
      apply IH in Hloop.
      destruct Hloop as (Hk & Hu & Hn & Ht & Hw & Hother & Hwritten).
      assert (Hw1 : forall p, get_weight (edge_cell m1 p) = get_weight (edge_cell m p))
        by (intros p; apply write_nodes_weight).
      split; [exact Hk|]. split.
      { rewrite Hu. apply insert_range_pointwise_ext.
        now apply compare_edges_set_ext. }
      split; [exact Hn|]. split; [exact Ht|]. split.
      { intros p. now rewrite Hw, Hw1. }
      split.
      { intros p Hp. rewrite Hother by tauto.
        unfold m1, write_nodes. simpl.
        destruct (Nat.eqb_spec p (get2 it)); auto. subst. tauto. }
      intros Hd t Hin. inversion Hd; subst.
      destruct Hin as [<-|Hin].
      * rewrite Hother.
        -- unfold m1, write_nodes. simpl. rewrite Nat.eqb_refl.
           apply get_nodes_set_nodes.
        -- intros Hin. apply H1. apply in_map_iff in Hin.
           destruct Hin as (x & Hx2 & Hx). apply filter_In in Hx.
           apply in_map_iff. exists x. tauto.
      * now apply Hwritten.
    + destruct (update_loop src_ptr dst_ptr rest upd m) as [[kept0 upd0] m0] eqn:Hrec.
      injection Hloop as <- <- <-.
      apply IH in Hrec.
      destruct Hrec as (Hk & Hu & Hn & Ht & Hw & Hother & Hwritten).
      split; [now rewrite Hk|]. repeat (split; auto).
      intros Hd t Hin. inversion Hd; subst. auto.
Qed.
End Update.

Section UpdateNode.
Context {N E : Type} {ordN : Ord N} {ordE : Ord E}.
Implicit Types (m : @memory N E) (g : graph) (t : edge_tuple).

Lemma NoDup_map_inj_on {A B : Type} (f : A -> B) (l : list A) :
  NoDup l -> (forall x y, In x l -> In y l -> f x = f y -> x = y) ->
  NoDup (map f l).
Proof.
  induction l as [|a l IH]; simpl; intros Hd Hinj; constructor.
  - inversion Hd; subst. intros Hin. apply in_map_iff in Hin.
    destruct Hin as (x & Hfx & Hx).
    assert (x = a) by (apply Hinj; auto). subst. contradiction.
  - inversion Hd; subst. apply IH; auto.
Qed.

Lemma NoDup_map_inj {A B : Type} (f : A -> B) (l : list A) (x y : A) :
  NoDup (map f l) -> In x l -> In y l -> f x = f y -> x = y.
Proof.
  induction l as [|a l IH]; simpl; intros Hd Hx Hy Hf; [contradiction|].
  inversion Hd; subst.
  destruct Hx as [->|Hx], Hy as [->|Hy]; auto.
  - exfalso. apply H1. rewrite Hf. now apply in_map.
  - exfalso. apply H1. rewrite <- Hf. now apply in_map.
Qed.

Lemma rewire_not_incident (src_ptr dst_ptr : ptr) t :
  incident src_ptr t = false -> rewire src_ptr dst_ptr t = t.
Proof.
  unfold incident, rewire. intros Hinc. apply orb_false_iff in Hinc.
  destruct Hinc as [-> ->]. now destruct t as [[a b] c].
Qed.

Lemma get2_rewire (src_ptr dst_ptr : ptr) t :
  get2 (rewire src_ptr dst_ptr t) = get2 t.
Proof. reflexivity. Qed.

(** Rewriting the addresses is rewriting the values, where the values
    tell the addresses apart. *)
Lemma edge_key_rewire m g (src_ptr dst_ptr : ptr) t :
  sorted_by (node_cell m) (nodes_ g) ->
  In src_ptr (nodes_ g) -> endpoints_in g t ->
  edge_key m (rewire src_ptr dst_ptr t)
  = redirect (node_cell m src_ptr) (node_cell m dst_ptr) (edge_key m t).
Proof.
  intros Hs Hsrc [H0 H1]. destruct t as [[a b] c].
  unfold edge_key, rewire, redirect, get0, get1, get2 in *. simpl in *.
  assert (Hiff : forall p, In p (nodes_ g) ->
            eqb (node_cell m p) (node_cell m src_ptr) = (p =? src_ptr)).
  { intros p Hp. destruct (Nat.eqb_spec p src_ptr) as [->|Hne].
    - apply eqb_refl.
    - apply eqb_false_iff. intros Heq. apply Hne.
      now apply (nodes_inj m g). }
  rewrite (Hiff _ H0), (Hiff _ H1).
  destruct (a =? src_ptr), (b =? src_ptr); reflexivity.
Qed.

Lemma update_node_spec m g (ns : list ptr) (src_ptr dst_ptr : ptr) :
  wf m g -> In src_ptr (nodes_ g) ->
  Forall (fun p => p < top m) ns -> sorted_by (node_cell m) ns ->
  In dst_ptr ns ->
  (forall p, In p (nodes_ g) -> p <> src_ptr -> In p ns) ->
  ~ In src_ptr ns ->
  exists g' m',
    update_node src_ptr dst_ptr {| nodes_ := ns; edges_ := edges_ g |} m
    = (g', m')
    /\ wf m' g' /\ nodes_ g' = ns
    /\ node_cell m' = node_cell m /\ top m' = top m
    /\ frame m m' (edge_ptrs g)
    /\ incl (edge_ptrs g') (edge_ptrs g)
    /\ (forall r, In r (records g' m') <->
                  exists r0, In r0 (records g m)
                             /\ r = redirect (node_cell m src_ptr)
                                      (node_cell m dst_ptr) r0).
Proof.
  intros Hwf Hsrc Hnsalloc Hnssorted Hdst Hkeep Hgone.
  unfold update_node. simpl.
  destruct (update_loop src_ptr dst_ptr (edges_ g) [] m) as [[kept upd] m1] eqn:Hloop.
  apply update_loop_spec in Hloop.
  destruct Hloop as (Hk & Hu & Hn & Htop & Hw & Hother & Hwritten).
  specialize (Hwritten (wf_edges_own m g Hwf)).
  set (inc := filter (incident src_ptr) (edges_ g)) in *.
  set (rw := map (rewire src_ptr dst_ptr) inc) in *.
  set (gns := {| nodes_ := ns; edges_ := @nil edge_tuple |}).
  eexists _, m1. split; [reflexivity|].
  (* where the elements come from *)
  assert (Hinc : forall t, In t inc -> In t (edges_ g) /\ incident src_ptr t = true)
    by (intros t Ht; apply filter_In in Ht; exact Ht).
  assert (Hkept : forall t, In t kept ->
            In t (edges_ g) /\ incident src_ptr t = false).
  { intros t Ht. rewrite Hk in Ht. apply filter_In in Ht.
    destruct Ht as [Ht Hi]. split; auto. now apply negb_true_iff. }
  assert (Hrw : forall t, In t rw ->
            exists t0, In t0 inc /\ t = rewire src_ptr dst_ptr t0).
  { intros t Ht. unfold rw in Ht. apply in_map_iff in Ht.
    destruct Ht as (t0 & <- & Ht0). eauto. }
  assert (Hend_kept : forall t, In t kept -> endpoints_in gns t).
  { intros t Ht. destruct (Hkept t Ht) as [Hin Hi].
    destruct (wf_endpoints m g t Hwf Hin) as [H0 H1].
    unfold incident in Hi. apply orb_false_iff in Hi. destruct Hi as [Hi0 Hi1].
    apply Nat.eqb_neq in Hi0, Hi1. split; simpl; auto. }
  assert (Hend_rw : forall t, In t rw -> endpoints_in gns t).
  { intros t Ht. destruct (Hrw t Ht) as (t0 & Ht0 & ->).
    destruct (Hinc t0 Ht0) as [Hin _].
    destruct (wf_endpoints m g t0 Hwf Hin) as [H0 H1].
    unfold rewire, endpoints_in, get0, get1. simpl.
    split.
    - destruct (Nat.eqb_spec (fst (fst t0)) src_ptr); auto.
    - destruct (Nat.eqb_spec (snd (fst t0)) src_ptr); auto. }
  assert (Hless : forall a b, endpoints_in gns a -> endpoints_in gns b ->
            compare_edges_set m a b = less_key (edge_key m) a b).
  { intros a b Ha Hb. now apply (compare_edges_set_less_key m gns). }
  assert (Hupd : upd = StdSet.insert_range (less_key (edge_key m)) rw []).
  { rewrite Hu. apply insert_range_ext. intros a b Ha Hb.
    rewrite app_nil_r in Ha, Hb. auto. }
  assert (Hupd_in : forall t, In t upd -> In t rw).
  { intros t Ht. rewrite Hupd in Ht. apply insert_range_in_inv in Ht.
    destruct Ht as [Ht|[]]. exact Ht. }
  assert (Hm1 : forall x y, compare_edges_set m1 x y = compare_edges_set m x y)
    by now apply compare_edges_set_ext.
  assert (Hkey1 : forall t, edge_key m1 t = edge_key m t)
    by now apply edge_key_ext.
  assert (Hedges : StdSet.insert_range (compare_edges_set m1) upd kept
                   = StdSet.insert_range (less_key (edge_key m)) upd kept).
  { rewrite (insert_range_pointwise_ext _ _ upd kept Hm1).
    apply insert_range_ext. intros a b Ha Hb.
    apply in_app_or in Ha, Hb.
    apply Hless; [destruct Ha|destruct Hb]; auto. }
  rewrite Hedges.
  set (es := StdSet.insert_range (less_key (edge_key m)) upd kept).
  assert (Hes : forall t, In t es -> In t rw \/ In t kept).
  { intros t Ht. apply insert_range_in_inv in Ht. destruct Ht; auto. }
  assert (Hsorted_kept : sorted_by (edge_key m) kept).
  { rewrite Hk. apply sorted_by_filter. exact (wf_edges_sorted m g Hwf). }
  assert (Hsorted : sorted_by (edge_key m) es)
    by (apply insert_range_sorted; exact Hsorted_kept).
  (* every element has an element of the old store behind it *)
  assert (Horigin : forall t, In t es ->
            exists t0, In t0 (edges_ g) /\ t = rewire src_ptr dst_ptr t0).
  { intros t Ht. destruct (Hes t Ht) as [Hr|Hkp].
    - destruct (Hrw t Hr) as (t0 & Ht0 & ->). destruct (Hinc t0 Ht0).
      exists t0. split; auto.
    - destruct (Hkept t Hkp) as [Hin Hi]. exists t.
      rewrite (rewire_not_incident _ _ _ Hi). split; auto. }
  assert (Hget2 : forall t, In t es -> In (get2 t) (edge_ptrs g)).
  { intros t Ht. destruct (Horigin t Ht) as (t0 & Ht0 & ->).
    rewrite get2_rewire. now apply edge_ptrs_in. }
  split; [|split; [reflexivity|split; [exact Hn|split; [exact Htop|split; [|split]]]]].
  - (* wf *)
    constructor; simpl.
    + now rewrite Htop.
    + now rewrite Hn.
    + rewrite Forall_forall. intros t Ht. rewrite Htop.
      apply (wf_edge_lt m g); auto.
    + rewrite Forall_forall. intros t Ht.
      destruct (Hes t Ht) as [Hr|Hkp]; [now apply Hend_rw|now apply Hend_kept].
    + apply (sorted_by_ext (edge_key m)); auto.
    + rewrite Forall_forall. intros t Ht. rewrite Hn.
      destruct (Hes t Ht) as [Hr|Hkp].
      * destruct (Hrw t Hr) as (t0 & Ht0 & ->). rewrite get2_rewire.
        now apply Hwritten.
      * destruct (Hkept t Hkp) as [Hin Hi].
        rewrite Hother; [now apply (wf_fields m g)|].
        intros Hp. apply in_map_iff in Hp. destruct Hp as (t0 & H2 & Ht0).
        destruct (Hinc t0 Ht0) as [Hin0 Hi0].
        assert (t0 = t).
        { apply (NoDup_map_inj get2 (edges_ g)); auto.
          exact (wf_edges_own m g Hwf). }
        congruence.
    + unfold edge_ptrs. simpl. apply NoDup_map_inj_on.
      * now apply (sorted_by_NoDup (edge_key m)).
      * intros x y Hx Hy Hxy.
        destruct (Horigin x Hx) as (x0 & Hx0 & Hxe).
        destruct (Horigin y Hy) as (y0 & Hy0 & Hye).
        assert (x0 = y0).
        { apply (NoDup_map_inj get2 (edges_ g)); auto.
          - exact (wf_edges_own m g Hwf).
          - rewrite Hxe, Hye in Hxy. exact Hxy. }
        congruence.
  - (* frame *)
    split; [lia|]. split; [intros; now rewrite Hn|].
    intros p Hp Hnin. apply Hother. intros Hin. apply Hnin.
    apply in_map_iff in Hin. destruct Hin as (t0 & <- & Ht0).
    apply edge_ptrs_in. now apply Hinc.
  - (* objects *)
    intros p Hp. unfold edge_ptrs in Hp. simpl in Hp.
    apply in_map_iff in Hp. destruct Hp as (t & <- & Ht). auto.
  - (* records *)
    assert (Hredir : forall t0, In t0 (edges_ g) ->
              edge_key m (rewire src_ptr dst_ptr t0)
              = redirect (node_cell m src_ptr) (node_cell m dst_ptr) (edge_key m t0)).
    { intros t0 Ht0. apply (edge_key_rewire m g); auto.
      - exact (wf_nodes_sorted m g Hwf).
      - now apply (wf_endpoints m g). }
    intros r. unfold records. simpl. split.
    + intros Hr. apply in_map_iff in Hr. destruct Hr as (t & <- & Ht).
      rewrite Hkey1.
      destruct (Horigin t Ht) as (t0 & Ht0 & ->).
      exists (edge_key m t0). split; [now apply in_map|now apply Hredir].
    + intros (r0 & Hr0 & ->). apply in_map_iff in Hr0.
      destruct Hr0 as (t0 & <- & Ht0). rewrite <- Hredir by auto.
      apply in_map_iff.
      destruct (incident src_ptr t0) eqn:Hi.
      * assert (Hin_rw : In (rewire src_ptr dst_ptr t0) rw).
        { unfold rw. apply in_map. apply filter_In. auto. }
        destruct (insert_range_in_key (edge_key m) rw [] _ Hin_rw)
          as (b & Hb & Hkb).
        rewrite <- Hupd in Hb.
        destruct (insert_range_in_key (edge_key m) upd kept _ Hb)
          as (c & Hc & Hkc).
        exists c. split; auto. rewrite Hkey1. congruence.
      * exists t0. rewrite Hkey1, (rewire_not_incident _ _ _ Hi).
        split; auto. apply insert_range_in_old. rewrite Hk.
        apply filter_In. split; auto. now rewrite Hi.
Qed.
End UpdateNode.

(** ** replace_node and merge_replace_node *)

Section Renaming.
Context {N E : Type} {ordN : Ord N} {ordE : Ord E}.
Implicit Types (m : @memory N E) (g : graph) (t : edge_tuple).

Lemma replace_node_throw m g (old_data new_data : N) :
  is_node old_data g m = false ->
  replace_node old_data new_data g m
  = (Throw "Cannot call gdwg::graph<N, E>::replace_node on a node that doesn't exist"%string,
     g, m).
Proof.
  unfold replace_node. rewrite is_node_find.
  destruct (find_node_ptr old_data g m); [discriminate|reflexivity].
Qed.

Lemma replace_node_false m g (old_data new_data : N) :
  is_node old_data g m = true -> is_node new_data g m = true ->
  replace_node old_data new_data g m = (Ok false, g, m).
Proof.
  unfold replace_node. rewrite is_node_find at 1.
  destruct (find_node_ptr old_data g m); [|discriminate].
  intros _ ->. reflexivity.
Qed.

Lemma replace_node_true m g (old_data new_data : N) :
  wf m g -> is_node old_data g m = true -> is_node new_data g m = false ->
  exists g' m',
    replace_node old_data new_data g m = (Ok true, g', m')
    /\ step_ok m g m' g'
    /\ nodes g' m'
       = fst (StdSet.insert ltb new_data
                (filter (fun x => negb (eqb x old_data)) (nodes g m)))
    /\ (forall r, In r (records g' m') <->
                  exists r0, In r0 (records g m)
                             /\ r = redirect old_data new_data r0).
Proof.
  intros Hwf Hold Hnew. unfold replace_node. rewrite Hnew.
  rewrite is_node_find in Hold.
  destruct (find_node_ptr old_data g m) as [src_ptr|] eqn:Hf; [|discriminate].
  apply find_node_ptr_some in Hf. destruct Hf as [Hsrc Hsv].
  assert (Hne : old_data <> new_data).
  { intros <-. apply (is_node_false_iff m g old_data) in Hnew.
    - apply Hnew. unfold nodes. rewrite <- Hsv. now apply in_map.
    - exact (wf_nodes_sorted m g Hwf). }
  apply eqb_false_iff in Hne. rewrite Hne. cbn [negb].
  pose proof (make_shared_node_agree m g new_data Hwf) as Hag.
  pose proof (make_shared_node_frame m new_data (edge_ptrs g)) as Hfr.
  destruct (make_shared_node new_data m) as [p m1] eqn:Hmk.
  assert (Hp : p = top m) by (unfold make_shared_node in Hmk; congruence).
  assert (Hv : node_cell m1 p = new_data).
  { unfold make_shared_node in Hmk. injection Hmk as <- <-. simpl.
    now rewrite Nat.eqb_refl. }
  assert (Htop : top m1 = S (top m))
    by (unfold make_shared_node in Hmk; injection Hmk as <- <-; reflexivity).
  simpl in Hag, Hfr.
  pose proof (wf_agree m m1 g Hwf Hag) as Hwf1.
  pose proof (wf_nodes_sorted m1 g Hwf1) as Hsorted1.
  assert (Hsv1 : node_cell m1 src_ptr = old_data).
  { destruct Hag as (_ & Hn & _). now rewrite Hn. }
  cbv zeta. cbn [nodes_ edges_].
  rewrite (nodes_erase_filter m1 (nodes_ g) src_ptr Hsorted1). rewrite Hsv1.
  set (kept := filter (fun a => negb (eqb (node_cell m1 a) old_data)) (nodes_ g)).
  set (ns := fst (StdSet.insert (compare_pp m1) p kept)).
  assert (Hkept_sorted : sorted_by (node_cell m1) kept)
    by now apply sorted_by_filter.
  assert (Hns_in : forall q, In q ns -> q = p \/ In q kept)
    by (intros q; apply (insert_in_inv (node_cell m1))).
  assert (Hkept_in : forall q, In q kept ->
            In q (nodes_ g) /\ node_cell m1 q <> old_data).
  { intros q Hq. apply filter_In in Hq. destruct Hq as [Hq Hb].
    split; auto. apply negb_true_iff in Hb. now apply eqb_false_iff. }
  assert (Hnew1 : forall q, In q (nodes_ g) -> node_cell m1 q <> new_data).
  { intros q Hq Heq. apply (is_node_false_iff m g new_data) in Hnew.
    - apply Hnew. unfold nodes. rewrite <- Heq.
      destruct Hag as (_ & Hn & _). rewrite (Hn q Hq). now apply in_map.
    - exact (wf_nodes_sorted m g Hwf). }
  assert (Hpns : In p ns).
  { destruct (insert_in_key (node_cell m1) p kept) as (b & Hb & Hkb).
    destruct (Hns_in b Hb) as [->|Hbk]; auto.
    exfalso. apply (Hnew1 b); [now apply Hkept_in|congruence]. }
  destruct (update_node_spec m1 g ns src_ptr p Hwf1 Hsrc) as
    (g' & m2 & Hupd & Hwf2 & Hnodes & Hnc & Htop2 & Hfr2 & Hincl & Hrec).
  { rewrite Forall_forall. intros q Hq. destruct (Hns_in q Hq) as [->|Hk]; [lia|].
    apply (wf_node_lt m1 g); auto. now apply Hkept_in. }
  { now apply (insert_sorted (node_cell m1)). }
  { exact Hpns. }
  { intros q Hq Hqs. apply (insert_in_old (node_cell m1)).
    apply filter_In. split; auto. apply negb_true_iff, eqb_false_iff.
    intros Heq. apply Hqs. apply (nodes_inj m1 g); auto. congruence. }
  { intros Hin. destruct (Hns_in _ Hin) as [Heq|Hk].
    - apply (wf_node_lt m g) in Hsrc; auto. lia.
    - apply Hkept_in in Hk. tauto. }
  fold ns. rewrite Hupd. exists g', m2. split; [reflexivity|].
  split; [|split].
  - split; [exact Hwf2|]. split.
    + apply (frame_trans m m1 m2); auto.
    + split.
      * intros q Hq. rewrite Hnodes in Hq.
        destruct (Hns_in q Hq) as [->|Hk]; [right; lia|].
        left. now apply Hkept_in.
      * intros q Hq. left. now apply Hincl.
  - unfold nodes. rewrite Hnodes, Hnc. unfold ns.
    change (compare_pp m1) with (less_key (node_cell m1)).
    rewrite (insert_map_key (node_cell m1) p kept), Hv. f_equal. f_equal.
    rewrite filter_map_comm. unfold kept. destruct Hag as (_ & Hnag & _).
    transitivity (map (node_cell m)
                    (filter (fun a => negb (eqb (node_cell m1 a) old_data))
                       (nodes_ g))).
    + apply map_ext_in. intros a Ha. apply filter_In in Ha. apply Hnag. tauto.
    + f_equal. apply filter_ext_in. intros a Ha. now rewrite Hnag.
  - intros r. rewrite Hrec, Hsv1, Hv.
    now rewrite (agree_records m m1 g Hwf Hag).
Qed.

Lemma merge_replace_node_throw m g (old_data new_data : N) :
  is_node old_data g m = false \/ is_node new_data g m = false ->
  merge_replace_node old_data new_data g m
  = (Throw "Cannot call gdwg::graph<N, E>::merge_replace_node on old or new data if they don't exist in the graph"%string,
     g, m).
Proof.
  unfold merge_replace_node. rewrite !is_node_find.
  destruct (find_node_ptr old_data g m), (find_node_ptr new_data g m);
    intros [Hn|Hn]; try discriminate; reflexivity.
Qed.

Lemma merge_replace_node_same m g (v : N) :
  is_node v g m = true -> merge_replace_node v v g m = (Ok tt, g, m).
Proof.
  unfold merge_replace_node. rewrite is_node_find.
  destruct (find_node_ptr v g m); [|discriminate].
  now rewrite eqb_refl.
Qed.

Lemma merge_replace_node_ok m g (old_data new_data : N) :
  wf m g -> is_node old_data g m = true -> is_node new_data g m = true ->
  old_data <> new_data ->
  exists g' m',
    merge_replace_node old_data new_data g m = (Ok tt, g', m')
    /\ step_ok m g m' g'
    /\ nodes g' m' = filter (fun x => negb (eqb x old_data)) (nodes g m)
    /\ (forall r, In r (records g' m') <->
                  exists r0, In r0 (records g m)
                             /\ r = redirect old_data new_data r0).
Proof.
  intros Hwf Hold Hnew Hne. unfold merge_replace_node.
  rewrite is_node_find in Hold, Hnew.
  destruct (find_node_ptr old_data g m) as [src_ptr|] eqn:Hfo; [|discriminate].
  destruct (find_node_ptr new_data g m) as [new_ptr|] eqn:Hfn; [|discriminate].
  apply find_node_ptr_some in Hfo, Hfn.
  destruct Hfo as [Hsrc Hsv], Hfn as [Hdst Hdv].
  apply eqb_false_iff in Hne. rewrite Hne. cbn [negb].
  pose proof (wf_nodes_sorted m g Hwf) as Hsorted.
  cbv zeta. cbn [nodes_ edges_].
  rewrite (nodes_erase_filter m (nodes_ g) src_ptr Hsorted). rewrite Hsv.
  set (ns := filter (fun a => negb (eqb (node_cell m a) old_data)) (nodes_ g)).
  assert (Hns_in : forall q, In q ns ->
            In q (nodes_ g) /\ node_cell m q <> old_data).
  { intros q Hq. apply filter_In in Hq. destruct Hq as [Hq Hb].
    split; auto. apply negb_true_iff in Hb. now apply eqb_false_iff. }
  destruct (update_node_spec m g ns src_ptr new_ptr Hwf Hsrc) as
    (g' & m2 & Hupd & Hwf2 & Hnodes & Hnc & Htop2 & Hfr2 & Hincl & Hrec).
  { rewrite Forall_forall. intros q Hq. apply (wf_node_lt m g); auto.
    now apply Hns_in. }
  { now apply sorted_by_filter. }
  { apply filter_In. split; auto. rewrite Hdv, eqb_sym, Hne. reflexivity. }
  { intros q Hq Hqs. apply filter_In. split; auto.
    apply negb_true_iff, eqb_false_iff.
    intros Heq. apply Hqs. apply (nodes_inj m g); auto. congruence. }
  { intros Hin. apply Hns_in in Hin. tauto. }
  fold ns. rewrite Hupd. exists g', m2. split; [reflexivity|].
  split; [|split].
  - split; [exact Hwf2|]. split; [exact Hfr2|]. split.
    + intros q Hq. rewrite Hnodes in Hq. left. now apply Hns_in.
    + intros q Hq. left. now apply Hincl.
  - unfold nodes. rewrite Hnodes, Hnc. unfold ns.
    now rewrite filter_map_comm.
  - intros r. now rewrite Hrec, Hsv, Hdv.
Qed.
End Renaming.

(** ** Construction and copy *)

Section Copying.
Context {N E : Type} {ordN : Ord N} {ordE : Ord E}.
Implicit Types (m : @memory N E) (g : graph) (t : edge_tuple).

Lemma step_ok_refl m g : wf m g -> step_ok m g m g.
Proof.
  intros Hwf. split; [exact Hwf|]. split; [apply frame_refl|apply fresh_or_old_refl].
Qed.

Lemma step_ok_trans m g m1 g1 m2 g2 :
  step_ok m g m1 g1 -> step_ok m1 g1 m2 g2 -> step_ok m g m2 g2.
Proof.
  intros (Hwf1 & (Ht1 & Hn1 & He1) & (Hfn1 & Hfe1))
         (Hwf2 & (Ht2 & Hn2 & He2) & (Hfn2 & Hfe2)).
  split; [exact Hwf2|]. split; [split; [lia|split]|split].
  - intros p Hp. rewrite Hn2 by lia. auto.
  - intros p Hp Hnin. rewrite He2; [auto|lia|].
    intros Hin. destruct (Hfe1 p Hin); [contradiction|lia].
  - intros p Hp. destruct (Hfn2 p Hp) as [Hin|Hge]; [|right; lia].
    destruct (Hfn1 p Hin); auto.
  - intros p Hp. destruct (Hfe2 p Hp) as [Hin|Hge]; [|right; lia].
    destruct (Hfe1 p Hin); auto.
Qed.

Lemma frame_after_step m g m1 g1 m2 :
  step_ok m g m1 g1 -> frame m1 m2 (edge_ptrs g1) -> frame m m2 (edge_ptrs g).
Proof.
  intros (Hwf1 & (Ht1 & Hn1 & He1) & (Hfn1 & Hfe1)) (Ht2 & Hn2 & He2).
  split; [lia|split].
  - intros p Hp. rewrite Hn2 by lia. auto.
  - intros p Hp Hnin. rewrite He2; [auto|lia|].
    intros Hin. destruct (Hfe1 p Hin); [contradiction|lia].
Qed.

(** Two sequences in set order with the same members are the same. *)
Lemma sorted_same_members {T : Type} `{Ord T} (l1 l2 : list T) :
  sorted_by (fun x : T => x) l1 -> sorted_by (fun x : T => x) l2 ->
  (forall x, In x l1 <-> In x l2) -> l1 = l2.
Proof.
  revert l2. induction l1 as [|a l1 IH]; intros [|b l2] H1 H2 Hmem; auto.
  - exfalso. apply (proj2 (Hmem b)). now left.
  - exfalso. apply (proj1 (Hmem a)). now left.
  - apply sorted_by_cons_inv in H1, H2.
    destruct H1 as [H1 Ha], H2 as [H2 Hb].
    rewrite Forall_forall in Ha, Hb.
    assert (Hab : a = b).
    { destruct (proj1 (Hmem a) (or_introl eq_refl)) as [->|Hin]; auto.
      destruct (proj2 (Hmem b) (or_introl eq_refl)) as [->|Hin']; auto.
      apply Hb in Hin. apply Ha in Hin'.
      rewrite (ltb_asym _ _ Hin) in Hin'. discriminate. }
    subst b. f_equal. apply IH; auto.
    intros x. split; intros Hx.
    + destruct (proj1 (Hmem x) (or_intror Hx)) as [<-|Hin]; auto.
      apply Ha in Hx. rewrite ltb_irrefl in Hx. discriminate.
    + destruct (proj2 (Hmem x) (or_intror Hx)) as [<-|Hin]; auto.
      apply Hb in Hx. rewrite ltb_irrefl in Hx. discriminate.
Qed.

(** Making a node object and inserting it, as the range constructor and
    [deep_copy] do. *)
Lemma fresh_node_step m g (v : N) :
  wf m g ->
  let m1 := snd (make_shared_node v m) in
  let g1 := {| nodes_ := fst (StdSet.insert (compare_pp m1) (top m) (nodes_ g));
               edges_ := edges_ g |} in
  step_ok m g m1 g1
  /\ nodes g1 m1 = fst (StdSet.insert ltb v (nodes g m)).
Proof.
  intros Hwf m1 g1.
  pose proof (make_shared_node_agree m g v Hwf) as Hag.
  pose proof (make_shared_node_frame m v (edge_ptrs g)) as Hfr.
  fold m1 in Hag, Hfr.
  pose proof (wf_agree m m1 g Hwf Hag) as Hwf1.
  assert (Hv : node_cell m1 (top m) = v)
    by (unfold m1, make_shared_node; simpl; now rewrite Nat.eqb_refl).
  split.
  - split; [|split; [exact Hfr|split]].
    + apply nodes_insert_wf; auto; unfold m1; simpl; lia.
    + intros q Hq. apply (insert_in_inv (node_cell m1)) in Hq.
      destruct Hq as [->|Hq]; auto.
    + unfold edge_ptrs. simpl. auto.
  - unfold g1. rewrite nodes_insert_view, Hv.
    now rewrite (agree_nodes m m1 g Hag).
Qed.

Lemma graph_range_ok (l : list N) :
  forall m g, wf m g ->
    exists g' m',
      graph_range l g m = (g', m')
      /\ step_ok m g m' g'
      /\ edges_ g' = edges_ g
      /\ (forall v, In v (nodes g' m') <-> In v l \/ In v (nodes g m)).
Proof.
  induction l as [|v l IH]; intros m g Hwf; simpl.
  - exists g, m. split; [reflexivity|]. split; [now apply step_ok_refl|].
    split; [reflexivity|]. intros v. tauto.
  - destruct (fresh_node_step m g v Hwf) as [Hstep Hview].
    destruct (IH _ _ (proj1 Hstep)) as (g' & m' & Heq & Hstep' & Hedges & Hmem).
    exists g', m'. split; [exact Heq|].
    split; [exact (step_ok_trans _ _ _ _ _ _ Hstep Hstep')|].
    split; [exact Hedges|].
    intros x. rewrite Hmem, Hview, insert_value_in. intuition (auto; congruence).
Qed.

Lemma copy_step m0 o m g m1 g1 :
  wf m0 o -> agree m0 m o -> top m0 <= top m -> all_fresh (top m0) g ->
  step_ok m g m1 g1 ->
  agree m0 m1 o /\ top m0 <= top m1 /\ all_fresh (top m0) g1.
Proof.
  intros Hwfo (Ht & Hn & He) Hle (Hfn & Hfe) (Hwf1 & (Ht1 & Hn1 & He1) & (Hon & Hoe)).
  split; [split; [lia|split]|split; [lia|split]].
  - intros p Hp. rewrite Hn1; auto.
    apply (wf_node_lt m0 o) in Hp; auto. lia.
  - intros p Hp. rewrite He1; auto.
    + apply (wf_edge_lt m0 o) in Hp; auto. lia.
    + intros Hin. apply Hfe in Hin. apply (wf_edge_lt m0 o) in Hp; auto. lia.
  - intros p Hp. destruct (Hon p Hp) as [Hin|Hge]; auto. lia.
  - intros p Hp. destruct (Hoe p Hp) as [Hin|Hge]; auto. lia.
Qed.

Lemma copy_nodes_ok m0 o (src : list ptr) :
  wf m0 o -> incl src (nodes_ o) ->
  forall m g,
    wf m g -> agree m0 m o -> top m0 <= top m -> all_fresh (top m0) g ->
    exists g' m',
      copy_nodes src g m = (g', m')
      /\ wf m' g' /\ frame m m' (edge_ptrs g)
      /\ agree m0 m' o /\ top m0 <= top m' /\ all_fresh (top m0) g'
      /\ edges_ g' = edges_ g
      /\ (forall v, In v (nodes g' m') <->
                    In v (map (node_cell m0) src) \/ In v (nodes g m)).
Proof.
  intros Hwfo. induction src as [|n src IH]; intros Hincl m g Hwf Hag Hle Hfresh;
    simpl.
  - exists g, m. split; [reflexivity|]. split; [exact Hwf|].
    split; [apply frame_refl|]. repeat (split; auto); tauto.
  - destruct (fresh_node_step m g (node_cell m n) Hwf) as [Hstep Hview].
    destruct (copy_step m0 o m g _ _ Hwfo Hag Hle Hfresh Hstep)
      as (Hag1 & Hle1 & Hfresh1).
    destruct (IH (fun x Hx => Hincl x (or_intror Hx)) _ _ (proj1 Hstep)
                Hag1 Hle1 Hfresh1)
      as (g' & m' & Heq & Hwf' & Hfr' & Hag' & Hle' & Hfresh' & Hedges & Hmem).
    exists g', m'. split; [exact Heq|]. split; [exact Hwf'|].
    split.
    { exact (frame_after_step _ _ _ _ _ Hstep Hfr'). }
    split; [exact Hag'|]. split; [exact Hle'|]. split; [exact Hfresh'|].
    split; [exact Hedges|].
    intros x. rewrite Hmem, Hview, insert_value_in.
    destruct Hag as (_ & Hn & _).
    rewrite (Hn n (Hincl n (or_introl eq_refl))). simpl. intuition (auto; congruence).
Qed.

Lemma copy_edges_ok m0 o (src : list edge_tuple) :
  wf m0 o -> incl src (edges_ o) ->
  forall m g,
    wf m g -> agree m0 m o -> top m0 <= top m -> all_fresh (top m0) g ->
    (forall v, In v (nodes o m0) -> In v (nodes g m)) ->
    exists g' m',
      copy_edges src g m = (Ok tt, g', m')
      /\ wf m' g' /\ frame m m' (edge_ptrs g)
      /\ agree m0 m' o /\ top m0 <= top m' /\ all_fresh (top m0) g'
      /\ nodes g' m' = nodes g m
      /\ (forall r, In r (records g' m') <->
                    In r (map (edge_key m0) src) \/ In r (records g m)).
Proof.
  intros Hwfo. induction src as [|t src IH];
    intros Hincl m g Hwf Hag Hle Hfresh Hnodes; simpl.
  - exists g, m. split; [reflexivity|]. split; [exact Hwf|].
    split; [apply frame_refl|]. repeat (split; auto); tauto.
  - assert (Ht : In t (edges_ o)) by (apply Hincl; now left).
    assert (Hkey : edge_key m t = edge_key m0 t)
      by now apply (agree_edge_key m0 m o).
    destruct (wf_endpoints m0 o t Hwfo Ht) as [H0 H1].
    assert (Hsrc : is_node (node_cell m (get0 t)) g m = true).
    { apply is_node_true_iff; [exact (wf_nodes_sorted m g Hwf)|].
      apply Hnodes. destruct Hag as (_ & Hn & _). rewrite (Hn _ H0).
      unfold nodes. now apply in_map. }
    assert (Hdst : is_node (node_cell m (get1 t)) g m = true).
    { apply is_node_true_iff; [exact (wf_nodes_sorted m g Hwf)|].
      apply Hnodes. destruct Hag as (_ & Hn & _). rewrite (Hn _ H1).
      unfold nodes. now apply in_map. }
    destruct (insert_edge_ok m g _ _ (get_weight (edge_cell m (get2 t)))
                Hwf Hsrc Hdst)
      as (b & g1 & m1 & Heq & Hstep & Hag1g & Hns & _ & _ & Hrec).
    rewrite Heq.
    destruct (copy_step m0 o m g _ _ Hwfo Hag Hle Hfresh Hstep)
      as (Hag1 & Hle1 & Hfresh1).
    assert (Hnodes1 : nodes g1 m1 = nodes g m).
    { unfold nodes. rewrite Hns. apply map_ext_in. apply Hag1g. }
    destruct (IH (fun x Hx => Hincl x (or_intror Hx)) _ _ (proj1 Hstep)
                Hag1 Hle1 Hfresh1)
      as (g' & m' & Heq' & Hwf' & Hfr' & Hag' & Hle' & Hfresh' & Hns' & Hmem).
    { intros v Hv. rewrite Hnodes1. auto. }
    exists g', m'. split; [exact Heq'|]. split; [exact Hwf'|].
    split.
    { exact (frame_after_step _ _ _ _ _ Hstep Hfr'). }
    split; [exact Hag'|]. split; [exact Hle'|]. split; [exact Hfresh'|].
    split; [now rewrite Hns'|].
    intros r. rewrite Hmem, Hrec, insert_value_in.
    fold (edge_key m t). rewrite Hkey. simpl. intuition (auto; congruence).
Qed.
End Copying.

Section DeepCopy.
Context {N E : Type} {ordN : Ord N} {ordE : Ord E}.
Implicit Types (m : @memory N E) (g : graph) (t : edge_tuple).

Lemma agree_refl m g : agree m m g.
Proof. repeat split; auto. Qed.

Lemma all_fresh_clear (base : ptr) g : all_fresh base (clear g).
Proof. split; intros p []. Qed.

Lemma triple_inj (v v' : @value_type N E) : triple v = triple v' -> v = v'.
Proof.
  destruct v, v'. unfold triple. simpl. intros [= -> -> ->]. reflexivity.
Qed.

Lemma map_triple_inj (l l' : list (@value_type N E)) :
  map triple l = map triple l' -> l = l'.
Proof.
  revert l'. induction l as [|v l IH]; intros [|v' l']; simpl; try discriminate; auto.
  intros Heq. f_equal; [apply triple_inj|apply IH]; congruence.
Qed.

Lemma deep_copy_ok m o g :
  wf m o ->
  exists g' m',
    deep_copy o g m = (Ok tt, g', m')
    /\ wf m' g' /\ frame m m' [] /\ agree m m' o
    /\ all_fresh (top m) g'
    /\ nodes g' m' = nodes o m'
    /\ records g' m' = records o m'
    /\ range g' m' = range o m'.
Proof.
  intros Hwfo. unfold deep_copy.
  destruct (copy_nodes_ok m o (nodes_ o) Hwfo (incl_refl _) m (clear g)
              (wf_clear m g) (agree_refl m o) (le_n _) (all_fresh_clear _ g))
    as (g1 & m1 & Heq1 & Hwf1 & Hfr1 & Hag1 & Hle1 & Hfresh1 & Hedges1 & Hmem1).
  rewrite Heq1.
  assert (Hnodes1 : nodes g1 m1 = nodes o m).
  { apply sorted_same_members.
    - now apply nodes_sorted.
    - now apply nodes_sorted.
    - intros v. rewrite Hmem1. simpl. unfold nodes. tauto. }
  assert (Hrec1 : records g1 m1 = []).
  { unfold records. rewrite Hedges1. reflexivity. }
  destruct (copy_edges_ok m o (edges_ o) Hwfo (incl_refl _) m1 g1
              Hwf1 Hag1 Hle1 Hfresh1)
    as (g' & m' & Heq' & Hwf' & Hfr' & Hag' & Hle' & Hfresh' & Hns' & Hmem').
  { intros v Hv. now rewrite Hnodes1. }
  exists g', m'. split; [exact Heq'|]. split; [exact Hwf'|].
  assert (Hrec : records g' m' = records o m).
  { apply sorted_same_members.
    - now apply records_sorted.
    - now apply records_sorted.
    - intros r. rewrite Hmem', Hrec1. simpl. unfold records. tauto. }
  split.
  { apply (frame_trans m m1 m'); auto.
    assert (Hnil : edge_ptrs g1 = []) by (unfold edge_ptrs; now rewrite Hedges1).
    now rewrite Hnil in Hfr'. }
  split; [exact Hag'|]. split; [exact Hfresh'|].
  pose proof (wf_agree m m' o Hwfo Hag') as Hwfo'.
  split; [now rewrite Hns', Hnodes1, (agree_nodes m m' o Hag')|].
  split; [now rewrite Hrec, (agree_records m m' o Hwfo Hag')|].
  apply map_triple_inj.
  rewrite (range_records m' g' Hwf'), (range_records m' o Hwfo').
  now rewrite Hrec, (agree_records m m' o Hwfo Hag').
Qed.

(** *** operator== *)

Lemma ranges_equal_map {A B C : Type} (p : A -> B -> bool)
    (f : A -> C) (h : B -> C) (l : list A) (r : list B) :
  (forall x y, p x y = true <-> f x = h y) ->
  ranges_equal p l r = true <-> map f l = map h r.
Proof.
  intros Hp. revert r. induction l as [|x l IH]; intros [|y r]; simpl;
    try (split; [discriminate|discriminate]); try tauto.
  rewrite andb_true_iff, Hp, IH. split.
  - intros [-> ->]. reflexivity.
  - intros [= -> ->]. auto.
Qed.

Lemma edge_eq_true_iff (e e' : @edge N E) :
  edge_eq e e' = true
  <-> (fst (get_nodes e), snd (get_nodes e), get_weight e)
      = (fst (get_nodes e'), snd (get_nodes e'), get_weight e').
Proof.
  unfold edge_eq. rewrite !andb_true_iff, !eqb_true_iff, opt_eqb_true_iff.
  split.
  - intros [[-> ->] ->]. reflexivity.
  - intros [= -> -> ->]. auto.
Qed.

Lemma operator_eq_true_iff m g o :
  operator_eq g o m = true <-> nodes g m = nodes o m /\ range g m = range o m.
Proof.
  unfold operator_eq.
  assert (Hn : ranges_equal
                 (fun lhs rhs => eqb (node_cell m lhs) (node_cell m rhs))
                 (nodes_ g) (nodes_ o) = true
               <-> nodes g m = nodes o m).
  { apply ranges_equal_map. intros x y. apply eqb_true_iff. }
  assert (He : ranges_equal
                 (fun lhs rhs => edge_eq (edge_cell m (get2 lhs)) (edge_cell m (get2 rhs)))
                 (edges_ g) (edges_ o) = true
               <-> range g m = range o m).
  { rewrite (ranges_equal_map _ (fun t => triple (deref m t))
               (fun t => triple (deref m t))).
    - unfold range. rewrite <- !(map_map (deref m) triple). split.
      + apply map_triple_inj.
      + now intros ->.
    - intros x y. apply edge_eq_true_iff. }
  split.
  - destruct (negb (length (nodes_ g) =? length (nodes_ o))
              || negb (length (edges_ g) =? length (edges_ o))); [discriminate|].
    destruct (ranges_equal _ (nodes_ g) (nodes_ o)); simpl; [|discriminate].
    destruct (ranges_equal _ (edges_ g) (edges_ o)); simpl; [|discriminate].
    intros _. split; [now apply Hn|now apply He].
  - intros [Hnodes Hrange].
    assert (Hln : length (nodes_ g) = length (nodes_ o)).
    { unfold nodes in Hnodes. apply (f_equal (@length N)) in Hnodes.
      now rewrite !length_map in Hnodes. }
    assert (Hle : length (edges_ g) = length (edges_ o)).
    { unfold range in Hrange. apply (f_equal (@length _)) in Hrange.
      now rewrite !length_map in Hrange. }
    rewrite Hln, Hle, !Nat.eqb_refl. simpl.
    apply Hn in Hnodes. apply He in Hrange. rewrite Hnodes, Hrange. reflexivity.
Qed.
End DeepCopy.

(** *** operator<< *)

Section Rendering.
Context {N E : Type} {ordN : Ord N} {ordE : Ord E}.
Context {showN : Show N} {showE : Show E}.
Implicit Types (m : @memory N E) (g : graph) (t : edge_tuple).

Lemma print_edge_record (e : @edge N E) :
  print_edge e = print_record (fst (get_nodes e), snd (get_nodes e), get_weight e).
Proof. destruct e; reflexivity. Qed.

Lemma operator_out_render m g :
  wf m g -> operator_out g m = render (nodes g m) (records g m).
Proof.
  intros Hwf. unfold operator_out, render, nodes, records.
  f_equal. f_equal. rewrite map_map. apply map_ext. intros n.
  assert (Hinner :
    map (fun e => ("  " ++ print_edge (edge_cell m (get2 e)) ++ nl)%string)
      (filter (fun e => eqb (node_cell m (get0 e)) (node_cell m n)) (edges_ g))
    = map (fun r => ("  " ++ print_record r ++ nl)%string)
        (filter (fun r => eqb (fst (fst r)) (node_cell m n))
           (map (edge_key m) (edges_ g)))).
  { rewrite filter_map_comm, map_map.
    apply map_ext_in. intros t Ht. apply filter_In in Ht. destruct Ht as [Ht _].
    rewrite print_edge_record. unfold edge_key.
    now rewrite (wf_fields m g t Hwf Ht). }
  now rewrite Hinner.
Qed.
End Rendering.

(** ** Every modifier is a step *)

Section Steps.
Context {N E : Type} {ordN : Ord N} {ordE : Ord E}.
Implicit Types (m : @memory N E) (g : graph) (t : edge_tuple).

(** A graph made of nodes and edges of [g], in a memory left as it is. *)
Lemma step_ok_sub m g g' :
  wf m g' -> incl (nodes_ g') (nodes_ g) -> incl (edges_ g') (edges_ g) ->
  step_ok m g m g'.
Proof.
  intros Hwf Hn He. split; [exact Hwf|]. split; [apply frame_refl|]. split.
  - intros p Hp. left. now apply Hn.
  - intros p Hp. left. unfold edge_ptrs in *. apply in_map_iff in Hp.
    destruct Hp as (t & <- & Ht). apply in_map. now apply He.
Qed.

Lemma insert_node_step m g (v : N) :
  wf m g ->
  step_ok m g (snd (insert_node v g m)) (snd (fst (insert_node v g m))).
Proof.
  intros Hwf. destruct (is_node v g m) eqn:Hn.
  - rewrite insert_node_false by auto. simpl. now apply step_ok_refl.
  - destruct (insert_node_true m g v Hwf Hn) as (g' & m' & -> & Hstep & _).
    exact Hstep.
Qed.

Lemma insert_edge_step m g (src dst : N) (w : option E) :
  wf m g ->
  step_ok m g (snd (insert_edge src dst w g m))
    (snd (fst (insert_edge src dst w g m))).
Proof.
  intros Hwf.
  destruct (is_node src g m) eqn:Hs; [destruct (is_node dst g m) eqn:Hd|].
  - destruct (insert_edge_ok m g src dst w Hwf Hs Hd)
      as (b & g' & m' & -> & Hstep & _). exact Hstep.
  - rewrite insert_edge_throw by auto. simpl. now apply step_ok_refl.
  - rewrite insert_edge_throw by auto. simpl. now apply step_ok_refl.
Qed.

Lemma replace_node_step m g (old_data new_data : N) :
  wf m g ->
  step_ok m g (snd (replace_node old_data new_data g m))
    (snd (fst (replace_node old_data new_data g m))).
Proof.
  intros Hwf.
  destruct (is_node old_data g m) eqn:Ho; [destruct (is_node new_data g m) eqn:Hn|].
  - rewrite replace_node_false by auto. simpl. now apply step_ok_refl.
  - destruct (replace_node_true m g old_data new_data Hwf Ho Hn)
      as (g' & m' & -> & Hstep & _). exact Hstep.
  - rewrite replace_node_throw by auto. simpl. now apply step_ok_refl.
Qed.

Lemma merge_replace_node_step m g (old_data new_data : N) :
  wf m g ->
  step_ok m g (snd (merge_replace_node old_data new_data g m))
    (snd (fst (merge_replace_node old_data new_data g m))).
Proof.
  intros Hwf.
  destruct (is_node old_data g m) eqn:Ho; [destruct (is_node new_data g m) eqn:Hn|].
  - destruct (eqb old_data new_data) eqn:Heq.
    + apply eqb_true_iff in Heq. subst.
      rewrite merge_replace_node_same by auto. simpl. now apply step_ok_refl.
    + apply eqb_false_iff in Heq.
      destruct (merge_replace_node_ok m g old_data new_data Hwf Ho Hn Heq)
        as (g' & m' & -> & Hstep & _). exact Hstep.
  - rewrite merge_replace_node_throw by auto. simpl. now apply step_ok_refl.
  - rewrite merge_replace_node_throw by auto. simpl. now apply step_ok_refl.
Qed.

Lemma erase_node_step m g (v : N) :
  wf m g ->
  step_ok m g (snd (erase_node v g m)) (snd (fst (erase_node v g m))).
Proof.
  intros Hwf. destruct (is_node v g m) eqn:Hn.
  - destruct (erase_node_true m g v Hwf Hn) as (g' & -> & Hwf' & Hin & Hie & _).
    simpl. now apply step_ok_sub.
  - rewrite erase_node_false by auto. simpl. now apply step_ok_refl.
Qed.

Lemma erase_edge_step m g (src dst : N) (w : option E) :
  wf m g ->
  step_ok m g (snd (erase_edge src dst w g m))
    (snd (fst (erase_edge src dst w g m))).
Proof.
  intros Hwf.
  destruct (is_node src g m) eqn:Hs; [destruct (is_node dst g m) eqn:Hd|].
  - destruct (erase_edge_ok m g src dst w Hwf Hs Hd)
      as (b & g' & -> & Hwf' & Hn & Hie & _).
    simpl. apply step_ok_sub; auto. rewrite Hn. apply incl_refl.
  - rewrite erase_edge_throw by auto. simpl. now apply step_ok_refl.
  - rewrite erase_edge_throw by auto. simpl. now apply step_ok_refl.
Qed.

Lemma erase_span_incl {A : Type} (i j : nat) (s : list A) :
  incl (StdSet.erase_span i j s) s.
Proof.
  unfold StdSet.erase_span. intros x Hx. apply in_app_or in Hx.
  destruct Hx as [Hx|Hx].
  - rewrite <- (firstn_skipn i s). apply in_or_app. now left.
  - rewrite <- (firstn_skipn j s). apply in_or_app. now right.
Qed.

Lemma erase_edge_range_step m g (i j : nat) :
  wf m g -> i <= j -> step_ok m g m (snd (erase_edge_range i j g)).
Proof.
  intros Hwf Hij. simpl. apply step_ok_sub.
  - now apply wf_erase_span.
  - apply incl_refl.
  - apply erase_span_incl.
Qed.

Lemma erase_edge_it_step m g (i : nat) :
  wf m g -> step_ok m g m (snd (erase_edge_it i g)).
Proof.
  intros Hwf. simpl. apply step_ok_sub.
  - now apply wf_erase_at.
  - apply incl_refl.
  - simpl. rewrite erase_at_span. apply erase_span_incl.
Qed.

Lemma clear_step m g : wf m g -> step_ok m g m (clear g).
Proof.
  intros Hwf. apply step_ok_sub.
  - apply wf_clear.
  - intros p [].
  - intros p [].
Qed.
End Steps.

(** ** Programs over several graphs *)

Section WorldFacts.
Context {N E : Type} {ordN : Ord N} {ordE : Ord E}.
Implicit Types (m : @memory N E) (g : graph) (t : edge_tuple) (w : @world N E).

Lemma set_var_length (i : nat) g (vs : list graph) :
  length (set_var i g vs) = length vs.
Proof.
  revert i. induction vs as [|v vs IH]; intros [|i]; simpl; auto.
Qed.

Lemma nth_error_set_var_eq (i : nat) g (vs : list graph) :
  i < length vs -> nth_error (set_var i g vs) i = Some g.
Proof.
  revert i. induction vs as [|v vs IH]; intros [|i]; simpl; try lia; auto.
  intros Hlt. apply IH. lia.
Qed.

Lemma nth_error_set_var_neq (i j : nat) g (vs : list graph) :
  j <> i -> nth_error (set_var i g vs) j = nth_error vs j.
Proof.
  revert i j. induction vs as [|v vs IH]; intros [|i] [|j]; simpl; try congruence; auto.
Qed.

Lemma nth_error_set_var_inv (i j : nat) g x (vs : list graph) :
  nth_error (set_var i g vs) j = Some x ->
  (j = i /\ x = g) \/ (j <> i /\ nth_error vs j = Some x).
Proof.
  intros Hnth. destruct (Nat.eq_dec j i) as [->|Hne].
  - left. split; auto.
    assert (Hlt : i < length vs).
    { rewrite <- (set_var_length i g vs). apply nth_error_Some. congruence. }
    rewrite nth_error_set_var_eq in Hnth by auto. congruence.
  - right. split; auto. now rewrite nth_error_set_var_neq in Hnth.
Qed.

Lemma nth_error_snoc_inv {A : Type} (l : list A) (a x : A) (j : nat) :
  nth_error (l ++ [a]) j = Some x ->
  (j < length l /\ nth_error l j = Some x) \/ (j = length l /\ x = a).
Proof.
  intros Hnth. destruct (Nat.lt_ge_cases j (length l)) as [Hlt|Hge].
  - left. split; auto. now rewrite nth_error_app1 in Hnth.
  - right. rewrite nth_error_app2 in Hnth by auto.
    destruct (j - length l) as [|n] eqn:Hd; simpl in Hnth.
    + split; [lia|congruence].
    + destruct n; discriminate.
Qed.

Lemma nth_error_snoc_old {A : Type} (l : list A) (a x : A) (j : nat) :
  nth_error l j = Some x -> nth_error (l ++ [a]) j = Some x.
Proof.
  intros Hnth. rewrite nth_error_app1; auto.
  apply nth_error_Some. congruence.
Qed.

Lemma separate_sym g1 g2 : separate g1 g2 -> separate g2 g1.
Proof.
  intros [Hn He]. split; intros p Hp Hq; [exact (Hn p Hq Hp)|exact (He p Hq Hp)].
Qed.

Lemma separate_empty_l g : separate {| nodes_ := []; edges_ := [] |} g.
Proof. split; intros p []. Qed.

Lemma separate_fresh m g g' :
  wf m g -> all_fresh (top m) g' -> separate g g'.
Proof.
  intros Hwf [Hn He]. split; intros p Hp Hq.
  - apply (wf_node_lt m g) in Hp; auto. apply Hn in Hq. lia.
  - apply (wf_edge_lt m g) in Hp; auto. apply He in Hq. lia.
Qed.

(** A graph made from [g] by a step stays apart from what [g] was apart
    from. *)
Lemma separate_step m g m' g' go :
  wf m go -> separate g go -> fresh_or_old m g g' -> separate g' go.
Proof.
  intros Hwf [Hn He] [Hfn Hfe]. split; intros p Hp Hq.
  - destruct (Hfn p Hp) as [Hin|Hge]; [exact (Hn p Hin Hq)|].
    apply (wf_node_lt m go) in Hq; auto. lia.
  - destruct (Hfe p Hp) as [Hin|Hge]; [exact (He p Hin Hq)|].
    apply (wf_edge_lt m go) in Hq; auto. lia.
Qed.

Lemma untouched_agree w (i j : nat) g gj m' g' :
  world_ok w -> nth_error (vars w) i = Some g ->
  step_ok (heap w) g m' g' ->
  j <> i -> nth_error (vars w) j = Some gj ->
  agree (heap w) m' gj.
Proof.
  intros [Hwf Hsep] Hi (_ & Hfr & _) Hne Hj.
  apply (frame_agree _ _ _ (edge_ptrs g)); eauto.
  intros p Hp Hq. destruct (Hsep j i gj g Hne Hj Hi) as [_ He].
  exact (He p Hp Hq).
Qed.

Lemma world_step w (i : nat) g m' g' :
  world_ok w -> nth_error (vars w) i = Some g ->
  step_ok (heap w) g m' g' ->
  world_ok {| heap := m'; vars := set_var i g' (vars w) |}.
Proof.
  intros Hok Hi Hstep. pose proof Hok as [Hwf Hsep].
  pose proof Hstep as (Hwf' & Hfr & Hfresh).
  split; simpl.
  - intros j x Hj. apply nth_error_set_var_inv in Hj.
    destruct Hj as [[-> ->]|[Hne Hj]]; auto.
    apply (wf_agree (heap w)); eauto.
    now apply (untouched_agree w i j g x m' g').
  - intros j k gj gk Hjk Hj Hk.
    apply nth_error_set_var_inv in Hj, Hk.
    destruct Hj as [[-> ->]|[Hnej Hj]], Hk as [[-> ->]|[Hnek Hk]].
    + congruence.
    + apply (separate_step (heap w) g m'); eauto.
    + apply separate_sym. apply (separate_step (heap w) g m'); eauto.
    + eauto.
Qed.

Lemma world_ok_heap w m' :
  world_ok w -> frame (heap w) m' [] ->
  world_ok {| heap := m'; vars := vars w |}
  /\ forall j gj, nth_error (vars w) j = Some gj -> agree (heap w) m' gj.
Proof.
  intros [Hwf Hsep] Hfr.
  assert (Hag : forall j gj, nth_error (vars w) j = Some gj -> agree (heap w) m' gj).
  { intros j gj Hj. apply (frame_agree _ _ _ []); eauto. }
  split; auto. split; simpl; eauto.
  intros j gj Hj. apply (wf_agree (heap w)); eauto.
Qed.

Lemma world_ok_push w g' :
  world_ok w -> wf (heap w) g' ->
  (forall j gj, nth_error (vars w) j = Some gj -> separate gj g') ->
  world_ok {| heap := heap w; vars := vars w ++ [g'] |}.
Proof.
  intros [Hwf Hsep] Hwf' Hs. split; simpl.
  - intros j x Hj. apply nth_error_snoc_inv in Hj.
    destruct Hj as [[_ Hj]|[_ ->]]; eauto.
  - intros j k gj gk Hjk Hj Hk.
    apply nth_error_snoc_inv in Hj, Hk.
    destruct Hj as [[Hlj Hj]|[Hlj ->]], Hk as [[Hlk Hk]|[Hlk ->]].
    + eauto.
    + eauto.
    + apply separate_sym. eauto.
    + lia.
Qed.

Lemma world_ok_set w (i : nat) g' :
  world_ok w -> wf (heap w) g' ->
  (forall j gj, j <> i -> nth_error (vars w) j = Some gj -> separate gj g') ->
  world_ok {| heap := heap w; vars := set_var i g' (vars w) |}.
Proof.
  intros [Hwf Hsep] Hwf' Hs. split; simpl.
  - intros j x Hj. apply nth_error_set_var_inv in Hj.
    destruct Hj as [[-> ->]|[Hne Hj]]; eauto.
  - intros j k gj gk Hjk Hj Hk.
    apply nth_error_set_var_inv in Hj, Hk.
    destruct Hj as [[-> ->]|[Hnej Hj]], Hk as [[-> ->]|[Hnek Hk]].
    + congruence.
    + apply separate_sym. eauto.
    + eauto.
    + eauto.
Qed.

Lemma world_ok_fresh w m' g' :
  world_ok w -> wf m' g' -> frame (heap w) m' [] ->
  all_fresh (top (heap w)) g' ->
  world_ok {| heap := m'; vars := vars w ++ [g'] |}.
Proof.
  intros Hok Hwf' Hfr Hfresh.
  destruct (world_ok_heap w m' Hok Hfr) as [Hok' Hag].
  apply (world_ok_push {| heap := m'; vars := vars w |}); auto.
  simpl. intros j gj Hj. destruct Hok as [Hwf _].
  apply (separate_fresh (heap w)); eauto.
Qed.
End WorldFacts.

Section ExecSound.
Context {N E : Type} {ordN : Ord N} {ordE : Ord E}.
Implicit Types (m : @memory N E) (g : graph) (t : edge_tuple) (w : @world N E).

Lemma wf_default m : wf m graph_default.
Proof. exact (wf_clear m graph_default). Qed.

Lemma wf_eta m g : wf m g -> wf m {| nodes_ := nodes_ g; edges_ := edges_ g |}.
Proof. now destruct g. Qed.

Lemma on_var_sound (i : nat) w (f : graph -> @memory N E -> graph * @memory N E) w' :
  world_ok w ->
  (forall g, nth_error (vars w) i = Some g -> wf (heap w) g ->
     step_ok (heap w) g (snd (f g (heap w))) (fst (f g (heap w)))) ->
  on_var i w f = Some w' ->
  world_ok w'
  /\ forall k g, (k =? i) = false -> nth_error (vars w) k = Some g ->
       nth_error (vars w') k = Some g /\ agree (heap w) (heap w') g.
Proof.
  intros Hok Hstep Hon. unfold on_var in Hon.
  destruct (nth_error (vars w) i) as [g|] eqn:Hi; [|discriminate].
  specialize (Hstep g eq_refl (proj1 Hok i g Hi)).
  destruct (f g (heap w)) as [g' m'] eqn:Hf. simpl in Hstep.
  injection Hon as <-. split.
  - now apply (world_step w i g).
  - intros k gk Hk Hnth. apply Nat.eqb_neq in Hk. simpl. split.
    + now rewrite nth_error_set_var_neq.
    + now apply (untouched_agree w i k g gk m' g').
Qed.

Lemma exec_sound (a : @action N E) w w' :
  world_ok w -> exec a w = Some w' -> world_ok w' /\ kept_by a w w'.
Proof.
  intros Hok Hex. pose proof Hok as [Hwf Hsep].
  destruct a as [|l|i|i|i j|i j|i v|i s d wt|i o n|i o n|i v|i s d wt|i pos|i p q|i];
    simpl in Hex; unfold kept_by; simpl touches.
  - (* graph() *)
    injection Hex as <-. split.
    + apply world_ok_push; auto; [apply wf_default|].
      intros j gj Hj. apply separate_sym, separate_empty_l.
    + intros k g _ Hk. simpl. split; [now apply nth_error_snoc_old|apply agree_refl].
  - (* graph(first, last) *)
    destruct (graph_range_ok l (heap w) graph_default (wf_default _))
      as (g' & m' & Heq & (Hwf' & Hfr & Hfn & Hfe) & _).
    rewrite Heq in Hex. injection Hex as <-.
    assert (Hfresh : all_fresh (top (heap w)) g').
    { split; intros p Hp; [destruct (Hfn p Hp)|destruct (Hfe p Hp)]; auto;
        contradiction. }
    split.
    + now apply world_ok_fresh.
    + intros k g _ Hk. simpl. split; [now apply nth_error_snoc_old|].
      now apply (proj2 (world_ok_heap w m' Hok Hfr) k).
  - (* graph(graph const&) *)
    destruct (nth_error (vars w) i) as [other|] eqn:Hi; [|discriminate].
    unfold copy_construct in Hex.
    destruct (deep_copy_ok (heap w) other graph_default (Hwf i other Hi))
      as (g' & m' & Heq & Hwf' & Hfr & Hag & Hfresh & _).
    rewrite Heq in Hex. injection Hex as <-. split.
    + now apply world_ok_fresh.
    + intros k g _ Hk. simpl. split; [now apply nth_error_snoc_old|].
      now apply (proj2 (world_ok_heap w m' Hok Hfr) k).
  - (* graph(graph&&) *)
    destruct (nth_error (vars w) i) as [other|] eqn:Hi; [|discriminate].
    simpl in Hex. injection Hex as <-.
    pose proof (world_step w i other (heap w) (clear other) Hok Hi
                  (clear_step _ _ (Hwf i other Hi))) as Hok1.
    split.
    + apply (world_ok_push
               {| heap := heap w; vars := set_var i (clear other) (vars w) |});
        auto.
      * simpl. apply wf_eta. eauto.
      * simpl. intros j gj Hj. apply nth_error_set_var_inv in Hj.
        destruct Hj as [[-> ->]|[Hne Hj]]; [apply separate_empty_l|].
        exact (Hsep j i gj other Hne Hj Hi).
    + intros k g Hk Hnth. apply Nat.eqb_neq in Hk. simpl.
      split; [|apply agree_refl].
      apply nth_error_snoc_old. now rewrite nth_error_set_var_neq.
  - (* copy assignment *)
    destruct (nth_error (vars w) i) as [g|] eqn:Hi; [|discriminate].
    destruct (nth_error (vars w) j) as [other|] eqn:Hj; [|discriminate].
    destruct (Nat.eqb_spec i j) as [->|Hij].
    + injection Hex as <-. split; auto.
      intros k gk _ Hk. split; [exact Hk|apply agree_refl].
    + destruct (deep_copy_ok (heap w) other g (Hwf j other Hj))
        as (g' & m' & Heq & Hwf' & Hfr & Hag & Hfresh & _).
      rewrite Heq in Hex. injection Hex as <-.
      destruct (world_ok_heap w m' Hok Hfr) as [Hok' Hag'].
      split.
      * apply (world_ok_set {| heap := m'; vars := vars w |}); auto.
        simpl. intros k gk Hk Hnth. apply (separate_fresh (heap w)); eauto.
      * intros k gk Hk Hnth. apply Nat.eqb_neq in Hk. simpl.
        split; [now rewrite nth_error_set_var_neq|eauto].
  - (* move assignment *)
    destruct (nth_error (vars w) i) as [g|] eqn:Hi; [|discriminate].
    destruct (nth_error (vars w) j) as [other|] eqn:Hj; [|discriminate].
    destruct (Nat.eqb_spec i j) as [->|Hij].
    + injection Hex as <-. split; auto.
      intros k gk _ Hk. split; [exact Hk|apply agree_refl].
    + simpl in Hex. injection Hex as <-.
      pose proof (world_step w j other (heap w) (clear other) Hok Hj
                    (clear_step _ _ (Hwf j other Hj))) as Hok1.
      split.
      * apply (world_ok_set
                 {| heap := heap w; vars := set_var j (clear other) (vars w) |});
          auto.
        -- simpl. apply wf_eta. eauto.
        -- simpl. intros k gk Hk Hnth. apply nth_error_set_var_inv in Hnth.
           destruct Hnth as [[-> ->]|[Hne Hnth]]; [apply separate_empty_l|].
           exact (Hsep k j gk other Hne Hnth Hj).
      * intros k gk Hk Hnth. apply orb_false_iff in Hk. destruct Hk as [Hki Hkj].
        apply Nat.eqb_neq in Hki, Hkj. simpl. split; [|apply agree_refl].
        now rewrite !nth_error_set_var_neq.
  - eapply on_var_sound; [exact Hok| |exact Hex]. intros g Hg Hwfg. cbv beta.
    pose proof (insert_node_step (heap w) g v Hwfg) as Hs.
    now destruct (insert_node v g (heap w)) as [[r g'] m'].
  - eapply on_var_sound; [exact Hok| |exact Hex]. intros g Hg Hwfg. cbv beta.
    pose proof (insert_edge_step (heap w) g s d wt Hwfg) as Hs.
    now destruct (insert_edge s d wt g (heap w)) as [[r g'] m'].
  - eapply on_var_sound; [exact Hok| |exact Hex]. intros g Hg Hwfg. cbv beta.
    pose proof (replace_node_step (heap w) g o n Hwfg) as Hs.
    now destruct (replace_node o n g (heap w)) as [[r g'] m'].
  - eapply on_var_sound; [exact Hok| |exact Hex]. intros g Hg Hwfg. cbv beta.
    pose proof (merge_replace_node_step (heap w) g o n Hwfg) as Hs.
    now destruct (merge_replace_node o n g (heap w)) as [[r g'] m'].
  - eapply on_var_sound; [exact Hok| |exact Hex]. intros g Hg Hwfg. cbv beta.
    pose proof (erase_node_step (heap w) g v Hwfg) as Hs.
    now destruct (erase_node v g (heap w)) as [[r g'] m'].
  - eapply on_var_sound; [exact Hok| |exact Hex]. intros g Hg Hwfg. cbv beta.
    pose proof (erase_edge_step (heap w) g s d wt Hwfg) as Hs.
    now destruct (erase_edge s d wt g (heap w)) as [[r g'] m'].
  - destruct (nth_error (vars w) i) as [g0|] eqn:Hi; [|discriminate].
    destruct (pos <? length (edges_ g0)); [|discriminate].
    eapply on_var_sound; [exact Hok| |exact Hex]. intros g Hg Hwfg. cbv beta.
    now apply erase_edge_it_step.
  - destruct (nth_error (vars w) i) as [g0|] eqn:Hi; [|discriminate].
    destruct ((p <=? q) && (q <=? length (edges_ g0))) eqn:Hpq; [|discriminate].
    apply andb_true_iff in Hpq. destruct Hpq as [Hpq _].
    apply Nat.leb_le in Hpq.
    eapply on_var_sound; [exact Hok| |exact Hex]. intros g Hg Hwfg. cbv beta.
    now apply erase_edge_range_step.
  - eapply on_var_sound; [exact Hok| |exact Hex]. intros g Hg Hwfg. cbv beta.
    now apply clear_step.
Qed.

Lemma world_ok_init m : world_ok {| heap := m; vars := [] |}.
Proof.
  split; simpl; intros; destruct i; discriminate.
Qed.

Lemma run_sound (al : list (@action N E)) :
  forall w w', world_ok w -> run al w = Some w' -> world_ok w'.
Proof.
  induction al as [|a al IH]; simpl; intros w w' Hok Hrun.
  - now injection Hrun as <-.
  - destruct (exec a w) as [w1|] eqn:Hex; [|discriminate].
    apply (IH w1); auto. now apply (exec_sound a w w1).
Qed.
End ExecSound.

(** ** Graphs a program can hold *)

Section Reachable.
Context {N E : Type} {ordN : Ord N} {ordE : Ord E}.
Implicit Types (m : @memory N E) (g : graph) (t : edge_tuple) (w : @world N E).

Lemma reachable_wf m g : reachable m g -> wf m g.
Proof.
  intros (al & m0 & w & i & Hrun & <- & Hi).
  apply run_sound in Hrun; [|apply world_ok_init].
  exact (proj1 Hrun i g Hi).
Qed.

Lemma to_list_records m g : wf m g -> to_list g m = records g m.
Proof. apply range_records. Qed.
End Reachable.

(** ** The graph of the demonstration program *)

(** A run that ends well reaches its first graph. *)
Lemma reachable_after (al : list (@action string Z)) :
  (match run al world0 with
   | Some w => match vars w with [] => false | _ => true end
   | None => false
   end) = true ->
  reachable (mem_after al) (graph_after al).
Proof.
  unfold mem_after, graph_after, world_after. intros Hrun.
  destruct (run al world0) as [w|] eqn:Hr; [|discriminate].
  exists al, mem0, w, 0. split; [exact Hr|]. split; [reflexivity|].
  destruct (vars w) as [|g vs]; [discriminate|reflexivity].
Qed.

Example demo_reachable : reachable demo_mem demo_graph.
Proof. apply reachable_after. vm_compute. reflexivity. Qed.

(** ** replace_node *)

Section ReplaceNode.
Context {N E : Type} {ordN : Ord N} {ordE : Ord E}.
Implicit Types (m : @memory N E) (g : graph) (t : edge_tuple).

(** The two ends of every record are nodes. *)
Lemma records_endpoints m g (r : N * N * option E) :
  wf m g -> In r (records g m) ->
  In (fst (fst r)) (nodes g m) /\ In (snd (fst r)) (nodes g m).
Proof.
  intros Hwf Hr. unfold records in Hr. apply in_map_iff in Hr.
  destruct Hr as (t & <- & Ht). destruct (wf_endpoints m g t Hwf Ht) as [H0 H1].
  unfold edge_key, nodes. simpl. split; now apply in_map.
Qed.

Lemma redirect_inj m g (a b : N) (r1 r2 : N * N * option E) :
  wf m g -> ~ In b (nodes g m) ->
  In r1 (records g m) -> In r2 (records g m) ->
  redirect a b r1 = redirect a b r2 -> r1 = r2.
Proof.
  intros Hwf Hb H1 H2.
  destruct (records_endpoints m g r1 Hwf H1) as [Hs1 Hd1].
  destruct (records_endpoints m g r2 Hwf H2) as [Hs2 Hd2].
  destruct r1 as [[s1 d1] w1], r2 as [[s2 d2] w2]. unfold redirect. simpl in *.
  assert (Hone : forall x y, In x (nodes g m) -> In y (nodes g m) ->
            (if eqb x a then b else x) = (if eqb y a then b else y) -> x = y).
  { intros x y Hx Hy.
    destruct (eqb x a) eqn:Ex, (eqb y a) eqn:Ey; intros Heq.
    - apply eqb_true_iff in Ex, Ey. congruence.
    - subst y. contradiction.
    - subst x. contradiction.
    - exact Heq. }
  intros Heq. injection Heq as Hs Hd Hw.
  apply Hone in Hs, Hd; auto. congruence.
Qed.

Lemma is_node_after_insert m g (ns : list N) (v x : N) m' g' :
  wf m' g' -> nodes g' m' = fst (StdSet.insert ltb v ns) ->
  is_node x g' m' = true <-> x = v \/ In x ns.
Proof.
  intros Hwf Hn.
  rewrite (is_node_true_iff m' g' x (wf_nodes_sorted m' g' Hwf)), Hn.
  apply insert_value_in.
Qed.

(** C1, as the code has it. For every graph: [replace_node(old, new)]
    raises the node-not-found error and leaves the graph as it is when
    [old] is not a node; returns false and changes nothing when [old] is
    a node and [new] is a node too, a different one or [old] itself;
    otherwise it returns true, [old] is no longer a node, [new] is one,
    the other nodes stay, and the edges are the old edges with every end
    that was [old] now [new]. *)
Theorem replace_node_spec m g (old_data new_data : N) :
  reachable m g ->
  (is_node old_data g m = false ->
   replace_node old_data new_data g m
   = (Throw "Cannot call gdwg::graph<N, E>::replace_node on a node that doesn't exist"%string,
      g, m))
  /\ (is_node old_data g m = true -> is_node new_data g m = true ->
      replace_node old_data new_data g m = (Ok false, g, m))
  /\ (is_node old_data g m = true -> is_node new_data g m = false ->
      exists g' m',
        replace_node old_data new_data g m = (Ok true, g', m')
        /\ (forall x, is_node x g' m' = true <->
                      x = new_data \/ (is_node x g m = true /\ x <> old_data))
        /\ Permutation (map (redirect old_data new_data) (to_list g m))
             (to_list g' m')).
Proof.
  intros Hreach. pose proof (reachable_wf m g Hreach) as Hwf.
  split; [apply replace_node_throw|]. split; [apply replace_node_false|].
  intros Hold Hnew.
  destruct (replace_node_true m g old_data new_data Hwf Hold Hnew)
    as (g' & m' & Heq & (Hwf' & _) & Hnodes & Hrec).
  exists g', m'. split; [exact Heq|]. split.
  - intros x.
    rewrite (is_node_after_insert m g _ new_data x m' g' Hwf' Hnodes).
    rewrite filter_In, negb_true_iff, eqb_false_iff.
    rewrite (is_node_true_iff m g x (wf_nodes_sorted m g Hwf)). tauto.
  - rewrite (to_list_records m g Hwf), (to_list_records m' g' Hwf').
    apply NoDup_Permutation.
    + apply NoDup_map_inj_on; [now apply records_NoDup|].
      intros r1 r2. apply (redirect_inj m g); auto.
      now apply (is_node_false_iff m g new_data (wf_nodes_sorted m g Hwf)).
    + now apply records_NoDup.
    + intros r. rewrite Hrec, in_map_iff. split.
      * intros (r0 & <- & Hr0). eauto.
      * intros (r0 & Hr0 & ->). eauto.
Qed.
End ReplaceNode.

(** The renaming branch at the graph of the demonstration: "how" becomes
    "abc". *)
Lemma replace_node_spec_witness :
  exists g' m',
    replace_node "how"%string "abc"%string demo_graph demo_mem = (Ok true, g', m')
    /\ (forall x, is_node x g' m' = true <->
                  x = "abc"%string
                  \/ (is_node x demo_graph demo_mem = true /\ x <> "how"%string))
    /\ Permutation
         (map (redirect "how"%string "abc"%string) (to_list demo_graph demo_mem))
         (to_list g' m').
Proof.
  destruct (replace_node_spec demo_mem demo_graph "how"%string "abc"%string) as (_ & _ & H).
  - apply reachable_after. vm_compute. reflexivity.
  - apply H; vm_compute; reflexivity.
Defined.

(** Renaming a node to itself returns false, not true. *)
Lemma replace_node_same_value :
  is_node "are"%string demo_graph demo_mem = true
  /\ fst (fst (replace_node "are"%string "are"%string demo_graph demo_mem))
     = Ok false
  /\ fst (fst (replace_node "are"%string "are"%string demo_graph demo_mem))
     <> Ok true.
Proof.
  split; [vm_compute; reflexivity|]. split; [vm_compute; reflexivity|].
  vm_compute. discriminate.
Qed.

(** ** No dangling edges *)

Section NoDangling.
Context {N E : Type} {ordN : Ord N} {ordE : Ord E}.
Implicit Types (m : @memory N E) (g : graph) (t : edge_tuple) (w : @world N E).

Lemma range_endpoints m g (v : @value_type N E) :
  wf m g -> In v (range g m) ->
  is_node (from v) g m = true /\ is_node (to v) g m = true.
Proof.
  intros Hwf Hv.
  assert (Hr : In (triple v) (records g m)).
  { rewrite <- (range_records m g Hwf). now apply in_map. }
  destruct (records_endpoints m g _ Hwf Hr) as [Hs Hd].
  split; apply is_node_true_iff; auto; exact (wf_nodes_sorted m g Hwf).
Qed.

(** C2. After any sequence of public operations on any number of graphs
    (construction, copy, move, insert_node, insert_edge, replace_node,
    merge_replace_node, erase_node, the three erase_edge, clear), every
    element of every edge store points to two nodes of its own graph, the
    source and the destination an iterator yields are nodes, and
    insert_edge throws, leaving the graph as it is, when an endpoint is
    not a node. *)
Theorem no_dangling_edges (al : list (@action N E)) (m0 : @memory N E) w :
  run al {| heap := m0; vars := [] |} = Some w ->
  forall (i : nat) g, nth_error (vars w) i = Some g ->
    (forall t, In t (edges_ g) ->
       In (get0 t) (nodes_ g) /\ In (get1 t) (nodes_ g))
    /\ (forall v, In v (range g (heap w)) ->
          is_node (from v) g (heap w) = true /\ is_node (to v) g (heap w) = true)
    /\ (forall src dst wt,
          is_node src g (heap w) = false \/ is_node dst g (heap w) = false ->
          exists what, insert_edge src dst wt g (heap w) = (Throw what, g, heap w)).
Proof.
  intros Hrun i g Hi.
  apply run_sound in Hrun; [|apply world_ok_init].
  pose proof (proj1 Hrun i g Hi) as Hwf.
  split; [|split].
  - intros t Ht. exact (wf_endpoints (heap w) g t Hwf Ht).
  - intros v Hv. now apply range_endpoints.
  - intros src dst wt Habs. eexists. now apply insert_edge_throw.
Qed.

(** C3. Whenever insert_edge, replace_node, merge_replace_node or
    erase_edge by value throws, the graph and the memory it returns are
    the ones it was given; each throws exactly when a node it names is
    absent; and the queries is_connected, edges and connections, which
    cannot change a graph, throw exactly then too. *)
Theorem throw_leaves_graph m g :
  (forall src dst wt what g' m',
     insert_edge src dst wt g m = (Throw what, g', m') -> g' = g /\ m' = m)
  /\ (forall old_data new_data what g' m',
        replace_node old_data new_data g m = (Throw what, g', m') ->
        g' = g /\ m' = m)
  /\ (forall old_data new_data what g' m',
        merge_replace_node old_data new_data g m = (Throw what, g', m') ->
        g' = g /\ m' = m)
  /\ (forall src dst wt what g' m',
        erase_edge src dst wt g m = (Throw what, g', m') -> g' = g /\ m' = m)
  /\ (forall src dst wt,
        (exists what, fst (fst (insert_edge src dst wt g m)) = Throw what)
        <-> is_node src g m = false \/ is_node dst g m = false)
  /\ (forall old_data new_data,
        (exists what, fst (fst (replace_node old_data new_data g m)) = Throw what)
        <-> is_node old_data g m = false)
  /\ (forall old_data new_data,
        (exists what, fst (fst (merge_replace_node old_data new_data g m)) = Throw what)
        <-> is_node old_data g m = false \/ is_node new_data g m = false)
  /\ (forall src dst wt,
        (exists what, fst (fst (erase_edge src dst wt g m)) = Throw what)
        <-> is_node src g m = false \/ is_node dst g m = false)
  /\ (forall src dst,
        (exists what, is_connected src dst g m = Throw what)
        <-> is_node src g m = false \/ is_node dst g m = false)
  /\ (forall src dst,
        (exists what, edges src dst g m = Throw what)
        <-> is_node src g m = false \/ is_node dst g m = false)
  /\ (forall src,
        (exists what, connections src g m = Throw what)
        <-> is_node src g m = false).
Proof.
  repeat match goal with |- _ /\ _ => split end.
  - intros src dst wt what g' m'. unfold insert_edge.
    destruct (find_node_ptr src g m), (find_node_ptr dst g m);
      try (intros [= _ <- <-]; now split).
    destruct (make_shared_edge _ m) as [q m1].
    destruct (StdSet.contains _ _ _ _); discriminate.
  - intros o n what g' m'. unfold replace_node.
    destruct (find_node_ptr o g m); [|intros [= _ <- <-]; now split].
    destruct (is_node n g m); [discriminate|].
    destruct (negb (eqb o n)); [|discriminate].
    destruct (make_shared_node n m) as [q m1].
    destruct (update_node _ _ _ _). discriminate.
  - intros o n what g' m'. unfold merge_replace_node.
    destruct (find_node_ptr o g m), (find_node_ptr n g m);
      try (intros [= _ <- <-]; now split).
    destruct (negb (eqb o n)); [|discriminate].
    destruct (update_node _ _ _ _). discriminate.
  - intros src dst wt what g' m'. unfold erase_edge.
    destruct (negb (is_node src g m) || negb (is_node dst g m));
      [intros [= _ <- <-]; now split|].
    destruct (_ =? _); discriminate.
  - intros src dst wt. unfold insert_edge. rewrite !is_node_find.
    destruct (find_node_ptr src g m), (find_node_ptr dst g m);
      try solve [simpl; split; [auto|eauto]].
    destruct (make_shared_edge _ m) as [q m1].
    destruct (StdSet.contains _ _ _ _); simpl; split;
      try (intros [what Hw]; discriminate); intros [Hn|Hn]; discriminate.
  - intros o n. unfold replace_node. rewrite (is_node_find m g o).
    destruct (find_node_ptr o g m); [|simpl; split; eauto].
    split; [|discriminate]. intros [what Hw].
    destruct (is_node n g m); [discriminate|].
    destruct (negb (eqb o n)); [|discriminate].
    destruct (make_shared_node n m) as [q m1].
    destruct (update_node _ _ _ _). discriminate.
  - intros o n. unfold merge_replace_node. rewrite !is_node_find.
    destruct (find_node_ptr o g m), (find_node_ptr n g m);
      try solve [simpl; split; [auto|eauto]].
    split; [|intros [Hn|Hn]; discriminate]. intros [what Hw].
    destruct (negb (eqb o n)); [|discriminate].
    destruct (update_node _ _ _ _). discriminate.
  - intros src dst wt. unfold erase_edge.
    destruct (is_node src g m), (is_node dst g m); simpl;
      try solve [split; [auto|eauto]].
    split; [|intros [Hn|Hn]; discriminate]. intros [what Hw].
    destruct (_ =? _); discriminate.
  - intros src dst. unfold is_connected.
    destruct (is_node src g m), (is_node dst g m); simpl;
      try solve [split; [auto|eauto]].
    split; [intros [what Hw]; discriminate|intros [Hn|Hn]; discriminate].
  - intros src dst. unfold edges.
    destruct (is_node src g m), (is_node dst g m); simpl;
      try solve [split; [auto|eauto]].
    split; [intros [what Hw]; discriminate|intros [Hn|Hn]; discriminate].
  - intros src. unfold connections.
    destruct (is_node src g m); simpl; [|split; eauto].
    split; [intros [what Hw]; discriminate|discriminate].
Qed.
End NoDangling.

Lemma no_dangling_edges_witness :
  (forall t, In t (edges_ (nth 1 (vars (world_after tour_actions)) graph_default)) ->
     In (get0 t) (nodes_ (nth 1 (vars (world_after tour_actions)) graph_default))
     /\ In (get1 t) (nodes_ (nth 1 (vars (world_after tour_actions)) graph_default)))
  /\ (forall v,
        In v (range (nth 1 (vars (world_after tour_actions)) graph_default)
                (heap (world_after tour_actions))) ->
        is_node (from v) (nth 1 (vars (world_after tour_actions)) graph_default)
          (heap (world_after tour_actions)) = true
        /\ is_node (to v) (nth 1 (vars (world_after tour_actions)) graph_default)
             (heap (world_after tour_actions)) = true)
  /\ (forall src dst wt,
        is_node src (nth 1 (vars (world_after tour_actions)) graph_default)
          (heap (world_after tour_actions)) = false
        \/ is_node dst (nth 1 (vars (world_after tour_actions)) graph_default)
             (heap (world_after tour_actions)) = false ->
        exists what,
          insert_edge src dst wt
            (nth 1 (vars (world_after tour_actions)) graph_default)
            (heap (world_after tour_actions))
          = (Throw what, nth 1 (vars (world_after tour_actions)) graph_default,
             heap (world_after tour_actions))).
Proof.
  apply (no_dangling_edges tour_actions mem0 (world_after tour_actions)) with (i := 1).
  - vm_compute. reflexivity.
  - vm_compute. reflexivity.
Defined.

Lemma throw_leaves_graph_witness :
  exists what,
    insert_edge "nope"%string "are"%string None demo_graph demo_mem
    = (Throw what, demo_graph, demo_mem).
Proof.
  destruct (throw_leaves_graph demo_mem demo_graph) as (H1 & _ & _ & _ & H5 & _).
  destruct (proj2 (H5 "nope"%string "are"%string None)) as [what Hw].
  - left. vm_compute. reflexivity.
  - exists what.
    destruct (insert_edge "nope"%string "are"%string None demo_graph demo_mem)
      as [[r g'] m'] eqn:Heq.
    simpl in Hw. subst r.
    destruct (H1 _ _ _ _ _ _ Heq) as [-> ->]. reflexivity.
Defined.

(** ** merge_replace_node and erase_node *)

Section MergeErase.
Context {N E : Type} {ordN : Ord N} {ordE : Ord E}.
Implicit Types (m : @memory N E) (g : graph) (t : edge_tuple).

(** The clones [edges] returns are the records between the two nodes, so
    no two of them are equal. *)
Lemma edges_NoDup m g (x y : N) (es : list (@edge N E)) :
  wf m g -> edges x y g m = Ok es -> NoDup es.
Proof.
  intros Hwf. unfold edges.
  destruct (negb (is_node x g m) || negb (is_node y g m)); [discriminate|].
  intros [= <-].
  set (sel := filter (fun e => eqb (node_cell m (get0 e)) x
                               && eqb (node_cell m (get1 e)) y) (edges_ g)).
  assert (Hsel : forall t, In t sel -> In t (edges_ g))
    by (intros t Ht; apply filter_In in Ht; tauto).
  apply NoDup_map_inj_on.
  - apply (sorted_by_NoDup (edge_key m)), sorted_by_filter.
    exact (wf_edges_sorted m g Hwf).
  - intros t1 t2 H1 H2 Heq. unfold clone_ptr in Heq.
    apply (sorted_by_key_inj (edge_key m) (edges_ g)); auto.
    + exact (wf_edges_sorted m g Hwf).
    + unfold edge_key.
      pose proof (wf_fields m g t1 Hwf (Hsel t1 H1)) as F1.
      pose proof (wf_fields m g t2 Hwf (Hsel t2 H2)) as F2.
      rewrite Heq in F1. rewrite F1 in F2. congruence.
Qed.

Lemma is_node_after_filter m g (v x : N) m' g' :
  wf m g -> wf m' g' ->
  nodes g' m' = filter (fun y => negb (eqb y v)) (nodes g m) ->
  is_node x g' m' = true <-> is_node x g m = true /\ x <> v.
Proof.
  intros Hwf Hwf' Hn.
  rewrite (is_node_true_iff m' g' x (wf_nodes_sorted m' g' Hwf')), Hn.
  rewrite filter_In, negb_true_iff, eqb_false_iff.
  now rewrite (is_node_true_iff m g x (wf_nodes_sorted m g Hwf)).
Qed.

(** C4. For every graph: [merge_replace_node(a, b)] raises the
    node-not-found error, leaving the graph as it is, when [a] or [b] is
    not a node, and does nothing when both are the same node; when they
    are two nodes, [a] is a node no longer, the other nodes stay, the
    edges are exactly the old edges with every end that was [a] now [b]
    (self-loops included), no record is stored twice, and [edges] returns
    no two equal records for any pair of nodes. *)
Theorem merge_replace_node_spec m g (a b : N) :
  reachable m g ->
  (is_node a g m = false \/ is_node b g m = false ->
   merge_replace_node a b g m
   = (Throw "Cannot call gdwg::graph<N, E>::merge_replace_node on old or new data if they don't exist in the graph"%string,
      g, m))
  /\ (is_node a g m = true -> merge_replace_node a a g m = (Ok tt, g, m))
  /\ (is_node a g m = true -> is_node b g m = true -> a <> b ->
      exists g' m',
        merge_replace_node a b g m = (Ok tt, g', m')
        /\ is_node a g' m' = false
        /\ (forall x, is_node x g' m' = true <-> is_node x g m = true /\ x <> a)
        /\ (forall r, In r (to_list g' m') <->
                      exists r0, In r0 (to_list g m) /\ r = redirect a b r0)
        /\ NoDup (to_list g' m')
        /\ (forall x y es, edges x y g' m' = Ok es -> NoDup es)).
Proof.
  intros Hreach. pose proof (reachable_wf m g Hreach) as Hwf.
  split; [apply merge_replace_node_throw|].
  split; [apply merge_replace_node_same|].
  intros Ha Hb Hab.
  destruct (merge_replace_node_ok m g a b Hwf Ha Hb Hab)
    as (g' & m' & Heq & (Hwf' & _) & Hnodes & Hrec).
  exists g', m'. split; [exact Heq|].
  pose proof (is_node_after_filter m g a) as Hiff.
  split; [|split; [|split; [|split]]].
  - destruct (is_node a g' m') eqn:Hn; auto.
    apply (Hiff a m' g' Hwf Hwf' Hnodes) in Hn. tauto.
  - intros x. now apply Hiff.
  - intros r. rewrite (to_list_records m g Hwf), (to_list_records m' g' Hwf').
    apply Hrec.
  - rewrite (to_list_records m' g' Hwf'). now apply records_NoDup.
  - intros x y es. now apply edges_NoDup.
Qed.

(** C5. For every graph and value [v]: [erase_node(v)] returns false and
    changes nothing when [v] is not a node; otherwise it returns true,
    [v] is a node no longer while the other nodes stay, the edges left
    are the old ones whose source and destination both differ from [v],
    in their order, and [is_connected] with [v] as either argument
    throws. *)
Theorem erase_node_spec m g (v : N) :
  reachable m g ->
  (is_node v g m = false -> erase_node v g m = (false, g, m))
  /\ (is_node v g m = true ->
      exists g',
        erase_node v g m = (true, g', m)
        /\ is_node v g' m = false
        /\ (forall x, is_node x g' m = true <-> is_node x g m = true /\ x <> v)
        /\ to_list g' m
           = filter (fun r => negb (eqb (fst (fst r)) v || eqb (snd (fst r)) v))
               (to_list g m)
        /\ (forall x,
              is_connected v x g' m
              = Throw "Cannot call gdwg::graph<N, E>::is_connected if src or dst node don't exist in the graph"%string
              /\ is_connected x v g' m
                 = Throw "Cannot call gdwg::graph<N, E>::is_connected if src or dst node don't exist in the graph"%string)).
Proof.
  intros Hreach. pose proof (reachable_wf m g Hreach) as Hwf.
  split; [apply erase_node_false|]. intros Hv.
  destruct (erase_node_true m g v Hwf Hv)
    as (g' & Heq & Hwf' & _ & _ & Hnodes & Hrec & _).
  exists g'. split; [exact Heq|].
  pose proof (is_node_after_filter m g v) as Hiff.
  assert (Hgone : is_node v g' m = false).
  { destruct (is_node v g' m) eqn:Hn; auto.
    apply (Hiff v m g' Hwf Hwf' Hnodes) in Hn. tauto. }
  split; [exact Hgone|]. split; [|split].
  - intros x. now apply Hiff.
  - rewrite (to_list_records m g Hwf), (to_list_records m g' Hwf'). exact Hrec.
  - intros x. unfold is_connected. rewrite Hgone. simpl.
    split; [reflexivity|]. now rewrite orb_true_r.
Qed.
End MergeErase.

Lemma merge_replace_node_spec_witness :
  exists g' m',
    merge_replace_node "A"%string "B"%string
      (graph_after merge_actions) (mem_after merge_actions) = (Ok tt, g', m')
    /\ is_node "A"%string g' m' = false
    /\ (forall x, is_node x g' m' = true <->
                  is_node x (graph_after merge_actions) (mem_after merge_actions) = true
                  /\ x <> "A"%string)
    /\ (forall r, In r (to_list g' m') <->
                  exists r0,
                    In r0 (to_list (graph_after merge_actions) (mem_after merge_actions))
                    /\ r = redirect "A"%string "B"%string r0)
    /\ NoDup (to_list g' m')
    /\ (forall x y es, edges x y g' m' = Ok es -> NoDup es).
Proof.
  destruct (merge_replace_node_spec (mem_after merge_actions)
              (graph_after merge_actions) "A"%string "B"%string) as (_ & _ & H).
  - apply reachable_after. vm_compute. reflexivity.
  - apply H; [vm_compute; reflexivity|vm_compute; reflexivity|discriminate].
Defined.

Lemma erase_node_spec_witness :
  exists g',
    erase_node "hello"%string demo_graph demo_mem = (true, g', demo_mem)
    /\ is_node "hello"%string g' demo_mem = false
    /\ (forall x, is_node x g' demo_mem = true <->
                  is_node x demo_graph demo_mem = true /\ x <> "hello"%string)
    /\ to_list g' demo_mem
       = filter (fun r => negb (eqb (fst (fst r)) "hello"%string
                                || eqb (snd (fst r)) "hello"%string))
           (to_list demo_graph demo_mem)
    /\ (forall x,
          is_connected "hello"%string x g' demo_mem
          = Throw "Cannot call gdwg::graph<N, E>::is_connected if src or dst node don't exist in the graph"%string
          /\ is_connected x "hello"%string g' demo_mem
             = Throw "Cannot call gdwg::graph<N, E>::is_connected if src or dst node don't exist in the graph"%string).
Proof.
  destruct (erase_node_spec demo_mem demo_graph "hello"%string) as (_ & H).
  - apply reachable_after. vm_compute. reflexivity.
  - apply H. vm_compute. reflexivity.
Defined.

(** ** insert_edge, find and erase_edge by value *)

Section EdgeLookup.
Context {N E : Type} {ordN : Ord N} {ordE : Ord E}.
Implicit Types (m : @memory N E) (g : graph) (t : edge_tuple).

(** One successful call of [insert_edge], on the records. *)
Lemma insert_edge_records m g (src dst : N) (w : option E) :
  wf m g -> is_node src g m = true -> is_node dst g m = true ->
  exists b g' m',
    insert_edge src dst w g m = (Ok b, g', m')
    /\ wf m' g'
    /\ (forall x, is_node x g' m' = is_node x g m)
    /\ (b = true <-> ~ In (src, dst, w) (to_list g m))
    /\ (b = false -> g' = g)
    /\ (forall r, In r (to_list g' m') <-> r = (src, dst, w) \/ In r (to_list g m)).
Proof.
  intros Hwf Hs Hd.
  destruct (insert_edge_ok m g src dst w Hwf Hs Hd)
    as (b & g' & m' & Heq & (Hwf' & _) & Hag & Hn & Hb & Hsame & Hrec).
  exists b, g', m'. split; [exact Heq|]. split; [exact Hwf'|].
  rewrite (to_list_records m g Hwf), (to_list_records m' g' Hwf').
  split; [|split; [|split]].
  - intros x. unfold is_node. rewrite Hn.
    apply (contains_ext (node_cell m) (fun v : N => v)).
    intros p Hp. destruct Hag as (_ & Hnc & _).
    unfold compare_pv, compare_vp, less_ak, less_ka. now rewrite (Hnc p Hp).
  - destruct b; split; intros H; try congruence.
    + intros Hin. apply Hb in Hin. discriminate.
    + exfalso. apply H. apply Hb. reflexivity.
  - exact Hsame.
  - intros r. rewrite Hrec. apply insert_value_in.
Qed.

(** C6, as the code has it. For every graph whose nodes include [src]
    and [dst]: the first [insert_edge(src, dst, weight)] returns true
    exactly when the record is not stored yet, the second call with the
    same triple returns false and changes nothing, and the record is
    stored after both; where neither the unweighted edge nor the edge of
    weight [x] between the two nodes is stored, inserting the one and
    then the other returns true both times, in either order. *)
Theorem insert_edge_twice m g (src dst : N) (w : option E) :
  reachable m g -> is_node src g m = true -> is_node dst g m = true ->
  (exists b g1 m1 m2,
     insert_edge src dst w g m = (Ok b, g1, m1)
     /\ insert_edge src dst w g1 m1 = (Ok false, g1, m2)
     /\ (b = true <-> ~ In (src, dst, w) (to_list g m))
     /\ In (src, dst, w) (to_list g1 m1)
     /\ In (src, dst, w) (to_list g1 m2))
  /\ (forall x,
        ~ In (src, dst, None) (to_list g m) ->
        ~ In (src, dst, Some x) (to_list g m) ->
        (exists g1 m1 g2 m2,
           insert_edge src dst None g m = (Ok true, g1, m1)
           /\ insert_edge src dst (Some x) g1 m1 = (Ok true, g2, m2))
        /\ (exists g1 m1 g2 m2,
              insert_edge src dst (Some x) g m = (Ok true, g1, m1)
              /\ insert_edge src dst None g1 m1 = (Ok true, g2, m2))).
Proof.
  intros Hreach Hs Hd. pose proof (reachable_wf m g Hreach) as Hwf.
  assert (Hpair : forall w1 w2, w1 <> w2 ->
            ~ In (src, dst, w1) (to_list g m) ->
            ~ In (src, dst, w2) (to_list g m) ->
            exists g1 m1 g2 m2,
              insert_edge src dst w1 g m = (Ok true, g1, m1)
              /\ insert_edge src dst w2 g1 m1 = (Ok true, g2, m2)).
  { intros w1 w2 Hne H1 H2.
    destruct (insert_edge_records m g src dst w1 Hwf Hs Hd)
      as (b1 & g1 & m1 & Heq1 & Hwf1 & Hn1 & Hb1 & _ & Hrec1).
    assert (b1 = true) by now apply Hb1. subst b1.
    destruct (insert_edge_records m1 g1 src dst w2 Hwf1)
      as (b2 & g2 & m2 & Heq2 & Hwf2 & Hn2 & Hb2 & _ & Hrec2);
      [now rewrite Hn1|now rewrite Hn1|].
    assert (b2 = true).
    { apply Hb2. rewrite Hrec1. intros [Heq|Hin]; [congruence|contradiction]. }
    subst b2. exists g1, m1, g2, m2. auto. }
  split.
  - destruct (insert_edge_records m g src dst w Hwf Hs Hd)
      as (b1 & g1 & m1 & Heq1 & Hwf1 & Hn1 & Hb1 & _ & Hrec1).
    destruct (insert_edge_records m1 g1 src dst w Hwf1)
      as (b2 & g2 & m2 & Heq2 & Hwf2 & Hn2 & Hb2 & Hsame & Hrec2);
      [now rewrite Hn1|now rewrite Hn1|].
    assert (Hin1 : In (src, dst, w) (to_list g1 m1)) by (apply Hrec1; auto).
    assert (b2 = false).
    { destruct b2; auto. exfalso. now apply (proj1 Hb2). }
    subst b2. rewrite (Hsame eq_refl) in *.
    exists b1, g1, m1, m2. repeat split; auto; try apply Hb1.
    apply Hrec2. auto.
  - intros x Hnone Hsome. split; apply Hpair; auto; discriminate.
Qed.

(** C7. For every graph and triple: [find], which has no way to fail,
    returns a position before the end exactly when the record is stored,
    the element at that position is then the record, and it returns the
    end otherwise, in particular when [src] or [dst] is not a node. *)
Theorem find_spec m g (src dst : N) (w : option E) :
  reachable m g ->
  find src dst w g m <= end_ g
  /\ (In (src, dst, w) (to_list g m) <-> find src dst w g m < end_ g)
  /\ (find src dst w g m < end_ g ->
      exists v, nth_error (range g m) (find src dst w g m) = Some v
                /\ from v = src /\ to v = dst /\ weight v = w)
  /\ (~ In (src, dst, w) (to_list g m) -> find src dst w g m = end_ g)
  /\ (is_node src g m = false \/ is_node dst g m = false ->
      find src dst w g m = end_ g).
Proof.
  intros Hreach. pose proof (reachable_wf m g Hreach) as Hwf.
  pose proof (find_le m g src dst w) as Hle.
  pose proof (find_end_iff m g src dst w Hwf) as Hend.
  rewrite <- (to_list_records m g Hwf) in Hend.
  split; [exact Hle|]. split; [|split; [|split]].
  - split.
    + intros Hin. destruct (Nat.eq_dec (find src dst w g m) (end_ g)) as [He|Hne];
        [|lia].
      apply Hend in He. contradiction.
    + intros Hlt. destruct (find_found m g src dst w Hlt) as (v & Hnth & Htr).
      rewrite <- Htr. unfold to_list. apply in_map.
      eapply nth_error_In; eauto.
  - intros Hlt. destruct (find_found m g src dst w Hlt) as (v & Hnth & Htr).
    exists v. split; auto. unfold triple in Htr. injection Htr as -> -> ->. auto.
  - apply Hend.
  - intros Habs. apply Hend. intros Hin.
    rewrite (to_list_records m g Hwf) in Hin.
    destruct (records_endpoints m g _ Hwf Hin) as [H1 H2]. simpl in H1, H2.
    apply (is_node_true_iff m g _ (wf_nodes_sorted m g Hwf)) in H1, H2.
    destruct Habs; congruence.
Qed.

(** C10. For every graph whose nodes include [src] and [dst] and which
    stores no unweighted edge between them, whatever weighted edges it
    stores there: [find(src, dst)] without a weight returns the end, and
    [erase_edge(src, dst)] without a weight returns false and leaves the
    graph and the memory as they are. *)
Theorem absent_weight_is_unweighted m g (src dst : N) :
  reachable m g -> is_node src g m = true -> is_node dst g m = true ->
  ~ In (src, dst, None) (to_list g m) ->
  find src dst None g m = end_ g
  /\ erase_edge src dst None g m = (Ok false, g, m).
Proof.
  intros Hreach Hs Hd Hnone. pose proof (reachable_wf m g Hreach) as Hwf.
  split.
  - apply (find_end_iff m g src dst None Hwf).
    now rewrite <- (to_list_records m g Hwf).
  - destruct (erase_edge_ok m g src dst None Hwf Hs Hd)
      as (b & g' & Heq & _ & _ & _ & Hb & Hsame & _).
    rewrite <- (to_list_records m g Hwf) in Hb.
    destruct b; [exfalso; now apply Hnone, Hb|].
    now rewrite Heq, (Hsame eq_refl).
Qed.
End EdgeLookup.

(** On a graph that stores hello -> how (5) already, the first call with
    that triple returns false. *)
Lemma insert_edge_first_call_false :
  is_node "hello"%string demo_graph demo_mem = true
  /\ is_node "how"%string demo_graph demo_mem = true
  /\ fst (fst (insert_edge "hello"%string "how"%string (Some 5%Z)
                 demo_graph demo_mem)) = Ok false
  /\ fst (fst (insert_edge "hello"%string "how"%string (Some 5%Z)
                 demo_graph demo_mem)) <> Ok true.
Proof.
  repeat split; try (vm_compute; reflexivity). vm_compute. discriminate.
Qed.

Lemma insert_edge_twice_witness :
  (exists b g1 m1 m2,
     insert_edge "are"%string "hello"%string (Some 7%Z) demo_graph demo_mem
     = (Ok b, g1, m1)
     /\ insert_edge "are"%string "hello"%string (Some 7%Z) g1 m1 = (Ok false, g1, m2)
     /\ (b = true <->
         ~ In ("are"%string, "hello"%string, Some 7%Z) (to_list demo_graph demo_mem))
     /\ In ("are"%string, "hello"%string, Some 7%Z) (to_list g1 m1)
     /\ In ("are"%string, "hello"%string, Some 7%Z) (to_list g1 m2))
  /\ (forall x,
        ~ In ("are"%string, "hello"%string, None) (to_list demo_graph demo_mem) ->
        ~ In ("are"%string, "hello"%string, Some x) (to_list demo_graph demo_mem) ->
        (exists g1 m1 g2 m2,
           insert_edge "are"%string "hello"%string None demo_graph demo_mem
           = (Ok true, g1, m1)
           /\ insert_edge "are"%string "hello"%string (Some x) g1 m1
              = (Ok true, g2, m2))
        /\ (exists g1 m1 g2 m2,
              insert_edge "are"%string "hello"%string (Some x) demo_graph demo_mem
              = (Ok true, g1, m1)
              /\ insert_edge "are"%string "hello"%string None g1 m1
                 = (Ok true, g2, m2))).
Proof.
  apply (insert_edge_twice demo_mem demo_graph "are"%string "hello"%string (Some 7%Z)).
  - apply reachable_after. vm_compute. reflexivity.
  - vm_compute. reflexivity.
  - vm_compute. reflexivity.
Defined.

(** Both nodes exist, the weight 7 was never inserted. *)
Lemma find_spec_witness :
  find "hello"%string "are"%string (Some 7%Z) demo_graph demo_mem <= end_ demo_graph
  /\ (In ("hello"%string, "are"%string, Some 7%Z) (to_list demo_graph demo_mem) <->
      find "hello"%string "are"%string (Some 7%Z) demo_graph demo_mem < end_ demo_graph)
  /\ (find "hello"%string "are"%string (Some 7%Z) demo_graph demo_mem < end_ demo_graph ->
      exists v,
        nth_error (range demo_graph demo_mem)
          (find "hello"%string "are"%string (Some 7%Z) demo_graph demo_mem) = Some v
        /\ from v = "hello"%string /\ to v = "are"%string /\ weight v = Some 7%Z)
  /\ (~ In ("hello"%string, "are"%string, Some 7%Z) (to_list demo_graph demo_mem) ->
      find "hello"%string "are"%string (Some 7%Z) demo_graph demo_mem = end_ demo_graph)
  /\ (is_node "hello"%string demo_graph demo_mem = false
      \/ is_node "are"%string demo_graph demo_mem = false ->
      find "hello"%string "are"%string (Some 7%Z) demo_graph demo_mem = end_ demo_graph).
Proof.
  apply (find_spec demo_mem demo_graph "hello"%string "are"%string (Some 7%Z)).
  apply reachable_after. vm_compute. reflexivity.
Defined.

(** hello -> are has the weights 2 and 8 and no unweighted edge. *)
Lemma absent_weight_is_unweighted_witness :
  In ("hello"%string, "are"%string, Some 2%Z) (to_list demo_graph demo_mem)
  /\ In ("hello"%string, "are"%string, Some 8%Z) (to_list demo_graph demo_mem)
  /\ find "hello"%string "are"%string None demo_graph demo_mem = end_ demo_graph
  /\ erase_edge "hello"%string "are"%string None demo_graph demo_mem
     = (Ok false, demo_graph, demo_mem).
Proof.
  split; [vm_compute; tauto|]. split; [vm_compute; tauto|].
  apply (absent_weight_is_unweighted demo_mem demo_graph "hello"%string "are"%string).
  - apply reachable_after. vm_compute. reflexivity.
  - vm_compute. reflexivity.
  - vm_compute. reflexivity.
  - vm_compute. intros H. repeat (destruct H as [H|H]; [discriminate|]). exact H.
Defined.

(** ** Rendering *)

Section RenderOrder.
Context {N E : Type} {ordN : Ord N} {ordE : Ord E}.
Implicit Types (m : @memory N E) (g : graph).

Lemma sorted_by_change_key {A T U : Type} `{Ord T} `{Ord U}
    (k1 : A -> T) (k2 : A -> U) (s : list A) :
  (forall a b, In a s -> In b s ->
     ltb (k1 a) (k1 b) = true -> ltb (k2 a) (k2 b) = true) ->
  sorted_by k1 s -> sorted_by k2 s.
Proof.
  induction s as [|y s IH]; intros Himp Hs; [constructor|].
  apply sorted_by_cons_inv in Hs. destruct Hs as [Hs Hy].
  constructor.
  - apply IH; auto. intros a b Ha Hb. apply Himp; now right.
  - rewrite Forall_forall in *. intros b Hb.
    apply Himp; [now left|now right|auto].
Qed.

(** The edges of one source node stand in ascending (destination,
    weight) order. *)
Lemma out_edges_sorted m g (n : N) :
  wf m g ->
  sorted_by (fun r : N * N * option E => (snd (fst r), snd r))
    (filter (fun r => eqb (fst (fst r)) n) (to_list g m)).
Proof.
  intros Hwf.
  apply (sorted_by_change_key (fun r : N * N * option E => r)).
  - intros [[s d] w] [[s' d'] w'] Ha Hb. apply filter_In in Ha, Hb.
    destruct Ha as [_ Ha], Hb as [_ Hb]. simpl in Ha, Hb.
    apply eqb_true_iff in Ha, Hb. subst s s'. simpl.
    rewrite !ltb_pair, eqb_pair, eqb_refl. simpl. auto.
  - apply sorted_by_filter. rewrite (to_list_records m g Hwf).
    now apply records_sorted.
Qed.
End RenderOrder.

(** C8. For every graph, what [operator<<] writes is a blank line and
    then, for each node in ascending order, a header line, one indented
    line for each edge leaving that node, in ascending (destination,
    weight) order with an unweighted edge before the weighted ones, and a
    closing line; the graph of the demonstration is written as the text
    the specification gives. *)
Theorem operator_out_spec :
  (forall (N E : Type) (ordN : Ord N) (ordE : Ord E)
          (showN : Show N) (showE : Show E) (m : @memory N E) (g : graph),
      reachable m g ->
      operator_out g m = render (nodes g m) (to_list g m)
      /\ sorted_by (fun v : N => v) (nodes g m)
      /\ (forall n : N,
            sorted_by (fun r : N * N * option E => (snd (fst r), snd r))
              (filter (fun r => eqb (fst (fst r)) n) (to_list g m)))
      /\ (forall (d : N) (x : E), ltb (d, @None E) (d, Some x) = true))
  /\ operator_out demo_graph demo_mem = demo_text.
Proof.
  split.
  - intros N E ordN ordE showN showE m g Hreach.
    pose proof (reachable_wf m g Hreach) as Hwf.
    split; [|split; [|split]].
    + rewrite (to_list_records m g Hwf). now apply operator_out_render.
    + now apply nodes_sorted.
    + intros n. now apply out_edges_sorted.
    + intros d x. rewrite ltb_pair, eqb_refl. reflexivity.
  - vm_compute. reflexivity.
Qed.

Lemma operator_out_spec_witness :
  operator_out demo_graph demo_mem
  = render (nodes demo_graph demo_mem) (to_list demo_graph demo_mem)
  /\ sorted_by (fun v : string => v) (nodes demo_graph demo_mem)
  /\ (forall n : string,
        sorted_by (fun r : string * string * option Z => (snd (fst r), snd r))
          (filter (fun r => eqb (fst (fst r)) n) (to_list demo_graph demo_mem)))
  /\ (forall (d : string) (x : Z), ltb (d, @None Z) (d, Some x) = true).
Proof.
  apply (proj1 operator_out_spec).
  apply reachable_after. vm_compute. reflexivity.
Defined.

(** ** Copies *)

Section CopyIndependence.
Context {N E : Type} {ordN : Ord N} {ordE : Ord E}.
Context {showN : Show N} {showE : Show E}.
Implicit Types (m : @memory N E) (g : graph) (t : edge_tuple) (w : @world N E).

Lemma agree_trans m m1 m2 g :
  agree m m1 g -> agree m1 m2 g -> agree m m2 g.
Proof.
  intros (H1 & H2 & H3) (H4 & H5 & H6). split; [lia|]. split.
  - intros p Hp. rewrite H5; auto.
  - intros p Hp. rewrite H6; auto.
Qed.

Lemma agree_operator_out m m' g :
  wf m g -> agree m m' g -> operator_out g m' = operator_out g m.
Proof.
  intros Hwf Hag.
  rewrite (operator_out_render m' g (wf_agree m m' g Hwf Hag)).
  rewrite (operator_out_render m g Hwf).
  now rewrite (agree_nodes m m' g Hag), (agree_records m m' g Hwf Hag).
Qed.

Lemma agree_operator_eq m m' g g' :
  agree m m' g -> agree m m' g' ->
  operator_eq g g' m' = operator_eq g g' m.
Proof.
  intros Hg Hg'.
  pose proof (operator_eq_true_iff m g g') as H1.
  pose proof (operator_eq_true_iff m' g g') as H2.
  rewrite (agree_nodes m m' g Hg), (agree_nodes m m' g' Hg') in H2.
  rewrite (agree_range m m' g Hg), (agree_range m m' g' Hg') in H2.
  destruct (operator_eq g g' m), (operator_eq g g' m'); auto.
  - apply H2. now apply H1.
  - symmetry. apply H1. now apply H2.
Qed.

(** Operations that do not touch a graph leave it what it was. *)
Lemma run_frame (bl : list (@action N E)) (k : nat) :
  forall w w2 gk,
    world_ok w -> run bl w = Some w2 ->
    (forall a, In a bl -> touches a k = false) ->
    nth_error (vars w) k = Some gk ->
    nth_error (vars w2) k = Some gk /\ agree (heap w) (heap w2) gk.
Proof.
  induction bl as [|a bl IH]; simpl; intros w w2 gk Hok Hrun Hk Hnth.
  - injection Hrun as <-. split; [exact Hnth|apply agree_refl].
  - destruct (exec a w) as [w1|] eqn:Hex; [|discriminate].
    destruct (exec_sound a w w1 Hok Hex) as [Hok1 Hkept].
    destruct (Hkept k gk (Hk a (or_introl eq_refl)) Hnth) as [Hnth1 Hag1].
    destruct (IH w1 w2 gk Hok1 Hrun (fun b Hb => Hk b (or_intror Hb)) Hnth1)
      as [Hnth2 Hag2].
    split; [exact Hnth2|]. now apply (agree_trans _ (heap w1)).
Qed.

(** C9. In any program, for every graph [g]: a copy of [g], made by
    copy construction or by copy assignment to another graph, compares
    equal to [g] and shares no node object and no edge object with it,
    while [g] stays what it was; and whatever operations follow, a graph
    that none of them is applied to keeps its node list, its edge
    sequence and its rendered text, and compares with any other such
    graph as before. So changing the copy leaves [g] and an untouched
    second copy alone, and changing [g] leaves the copy alone. *)
Theorem copy_is_independent (al : list (@action N E)) (m0 : @memory N E) w
    (i : nat) g :
  run al {| heap := m0; vars := [] |} = Some w ->
  nth_error (vars w) i = Some g ->
  (exists c w1,
     exec (New_copy i) w = Some w1
     /\ vars w1 = vars w ++ [c]
     /\ operator_eq c g (heap w1) = true
     /\ operator_eq g c (heap w1) = true
     /\ separate g c
     /\ nodes g (heap w1) = nodes g (heap w)
     /\ range g (heap w1) = range g (heap w))
  /\ (forall j gj, j <> i -> nth_error (vars w) j = Some gj ->
      exists c w1,
        exec (Assign_copy j i) w = Some w1
        /\ nth_error (vars w1) j = Some c
        /\ nth_error (vars w1) i = Some g
        /\ operator_eq c g (heap w1) = true
        /\ operator_eq g c (heap w1) = true
        /\ separate g c
        /\ nodes g (heap w1) = nodes g (heap w)
        /\ range g (heap w1) = range g (heap w))
  /\ (forall (bl : list (@action N E)) w2 (k : nat) gk,
        run bl w = Some w2 ->
        (forall a, In a bl -> touches a k = false) ->
        nth_error (vars w) k = Some gk ->
        nth_error (vars w2) k = Some gk
        /\ nodes gk (heap w2) = nodes gk (heap w)
        /\ range gk (heap w2) = range gk (heap w)
        /\ operator_out gk (heap w2) = operator_out gk (heap w)
        /\ (forall (k' : nat) gk',
              (forall a, In a bl -> touches a k' = false) ->
              nth_error (vars w) k' = Some gk' ->
              operator_eq gk gk' (heap w2) = operator_eq gk gk' (heap w))).
Proof.
  intros Hrun Hi.
  assert (Hok : world_ok w) by (apply (run_sound al _ w (world_ok_init m0) Hrun)).
  pose proof (proj1 Hok i g Hi) as Hwf.
  split; [|split].
  - simpl. rewrite Hi. unfold copy_construct.
    destruct (deep_copy_ok (heap w) g graph_default Hwf)
      as (c & m' & Heq & Hwf' & Hfr & Hag & Hfresh & Hn & _ & Hr).
    rewrite Heq. exists c, {| heap := m'; vars := vars w ++ [c] |}. simpl.
    split; [reflexivity|]. split; [reflexivity|].
    split; [now apply operator_eq_true_iff|].
    split; [now apply operator_eq_true_iff|].
    split; [now apply (separate_fresh (heap w))|].
    split; [now apply agree_nodes|now apply agree_range].
  - intros j gj Hji Hj. simpl. rewrite Hj, Hi.
    destruct (Nat.eqb_spec j i) as [Heq|_]; [contradiction|].
    destruct (deep_copy_ok (heap w) g gj Hwf)
      as (c & m' & Heq & Hwf' & Hfr & Hag & Hfresh & Hn & _ & Hr).
    rewrite Heq. exists c, {| heap := m'; vars := set_var j c (vars w) |}. simpl.
    split; [reflexivity|].
    split.
    { apply nth_error_set_var_eq. apply nth_error_Some. congruence. }
    split.
    { rewrite nth_error_set_var_neq; auto. }
    split; [now apply operator_eq_true_iff|].
    split; [now apply operator_eq_true_iff|].
    split; [now apply (separate_fresh (heap w))|].
    split; [now apply agree_nodes|now apply agree_range].
  - intros bl w2 k gk Hrun2 Hk Hnth.
    destruct (run_frame bl k w w2 gk Hok Hrun2 Hk Hnth) as [Hnth2 Hag].
    pose proof (proj1 Hok k gk Hnth) as Hwfk.
    split; [exact Hnth2|]. split; [now apply agree_nodes|].
    split; [now apply agree_range|].
    split; [now apply agree_operator_out|].
    intros k' gk' Hk' Hnth'.
    destruct (run_frame bl k' w w2 gk' Hok Hrun2 Hk' Hnth') as [_ Hag'].
    now apply agree_operator_eq.
Qed.
End CopyIndependence.

Lemma copy_is_independent_witness :
  (exists c w1,
     exec (New_copy 0) (world_after copy_actions) = Some w1
     /\ vars w1 = vars (world_after copy_actions) ++ [c]
     /\ operator_eq c demo_graph (heap w1) = true
     /\ operator_eq demo_graph c (heap w1) = true
     /\ separate demo_graph c
     /\ nodes demo_graph (heap w1) = nodes demo_graph (heap (world_after copy_actions))
     /\ range demo_graph (heap w1) = range demo_graph (heap (world_after copy_actions)))
  /\ (forall j gj, j <> 0 -> nth_error (vars (world_after copy_actions)) j = Some gj ->
      exists c w1,
        exec (Assign_copy j 0) (world_after copy_actions) = Some w1
        /\ nth_error (vars w1) j = Some c
        /\ nth_error (vars w1) 0 = Some demo_graph
        /\ operator_eq c demo_graph (heap w1) = true
        /\ operator_eq demo_graph c (heap w1) = true
        /\ separate demo_graph c
        /\ nodes demo_graph (heap w1) = nodes demo_graph (heap (world_after copy_actions))
        /\ range demo_graph (heap w1) = range demo_graph (heap (world_after copy_actions)))
  /\ (forall (bl : list (@action string Z)) w2 (k : nat) gk,
        run bl (world_after copy_actions) = Some w2 ->
        (forall a, In a bl -> touches a k = false) ->
        nth_error (vars (world_after copy_actions)) k = Some gk ->
        nth_error (vars w2) k = Some gk
        /\ nodes gk (heap w2) = nodes gk (heap (world_after copy_actions))
        /\ range gk (heap w2) = range gk (heap (world_after copy_actions))
        /\ operator_out gk (heap w2) = operator_out gk (heap (world_after copy_actions))
        /\ (forall (k' : nat) gk',
              (forall a, In a bl -> touches a k' = false) ->
              nth_error (vars (world_after copy_actions)) k' = Some gk' ->
              operator_eq gk gk' (heap w2)
              = operator_eq gk gk' (heap (world_after copy_actions)))).
Proof.
  apply (copy_is_independent copy_actions mem0 (world_after copy_actions) 0 demo_graph).
  - vm_compute. reflexivity.
  - vm_compute. reflexivity.
Defined.

(** The copy renamed, merged and cleared: the graph it was copied from
    is written as before. *)
Example copy_mutated_original_kept :
  let w := world_after (copy_actions ++
                          [ Replace_node 1 "how"%string "abc"%string;
                            Merge_replace_node 1 "abc"%string "hello"%string;
                            Erase_node 1 "are"%string;
                            Clear 1 ]) in
  operator_out (nth 0 (vars w) graph_default) (heap w) = demo_text
  /\ operator_out (nth 1 (vars w) graph_default) (heap w) = nl.
Proof. vm_compute. split; reflexivity. Qed.

(** * Part 4: further properties of the member functions *)

(** ** insert_node, nodes, empty and the constructors *)

Section NodeStore.
Context {N E : Type} {ordN : Ord N} {ordE : Ord E}.
Implicit Types (m : @memory N E) (g : graph) (t : edge_tuple).

Lemma is_node_nodes m g (x : N) :
  wf m g -> is_node x g m = true <-> In x (nodes g m).
Proof. intros Hwf. apply is_node_true_iff. exact (wf_nodes_sorted m g Hwf). Qed.

Lemma to_list_agree m m' g : agree m m' g -> to_list g m' = to_list g m.
Proof. intros Ha. unfold to_list. now rewrite (agree_range m m' g Ha). Qed.

(** X1. [insert_node] returns false and changes nothing when the value is a
    node; otherwise it returns true, the value is a node afterwards, every
    other value is a node exactly if it was, and the edges are the same. *)
Theorem insert_node_spec m g (v : N) :
  reachable m g ->
  (is_node v g m = true -> insert_node v g m = (false, g, m))
  /\ (is_node v g m = false ->
      exists g' m',
        insert_node v g m = (true, g', m')
        /\ (forall x, is_node x g' m' = true <-> x = v \/ is_node x g m = true)
        /\ length (nodes g' m') = S (length (nodes g m))
        /\ to_list g' m' = to_list g m).
Proof.
  intros Hr. pose proof (reachable_wf m g Hr) as Hwf. split.
  - apply insert_node_false.
  - intros Hv.
    destruct (insert_node_true m g v Hwf Hv)
      as (g' & m' & Heq & (Hwf' & _ & _) & Hn & He & Hag).
    exists g', m'. split; [exact Heq|]. split; [|split].
    + intros x. rewrite (is_node_after_insert m g (nodes g m) v x m' g' Hwf' Hn).
      now rewrite (is_node_nodes m g x Hwf).
    + rewrite Hn.
      destruct (insert_true (fun y : N => y) v (nodes g m) (nodes_sorted m g Hwf))
        as (l1 & l2 & Hs & Hi & _).
      { intros a Ha Heqa. subst a.
        apply (is_node_nodes m g v Hwf) in Ha. congruence. }
      change (StdSet.insert (less_key (fun y : N => y)) v (nodes g m))
        with (StdSet.insert ltb v (nodes g m)) in Hi.
      rewrite Hi, Hs. cbn [fst]. rewrite !length_app. cbn [length]. lia.
    + unfold to_list, range. rewrite He.
      change (map (deref m') (edges_ g)) with (range g m').
      now rewrite (agree_range m m' g Hag).
Qed.

(** X2. [nodes] lists the node values in strictly ascending order, each
    once; a value is in the list exactly if is_node accepts it; empty is
    true exactly if the list is empty, and an empty graph has no edge. *)
Theorem nodes_spec m g :
  reachable m g ->
  sorted_by (fun v : N => v) (nodes g m)
  /\ NoDup (nodes g m)
  /\ (forall x, In x (nodes g m) <-> is_node x g m = true)
  /\ (empty g = true <-> nodes g m = [])
  /\ (empty g = true -> range g m = [] /\ begin g = end_ g).
Proof.
  intros Hr. pose proof (reachable_wf m g Hr) as Hwf.
  split; [exact (nodes_sorted m g Hwf)|].
  split; [exact (sorted_by_NoDup (fun v : N => v) _ (nodes_sorted m g Hwf))|].
  split; [intros x; symmetry; exact (is_node_nodes m g x Hwf)|].
  unfold empty, nodes, range, begin, end_. split.
  - destruct (nodes_ g); split; intros H; try reflexivity; discriminate.
  - intros Hempty.
    destruct (edges_ g) as [|t es] eqn:He; [split; reflexivity|].
    assert (Hin : In t (edges_ g)) by (rewrite He; left; reflexivity).
    destruct (wf_endpoints m g t Hwf Hin) as [H0 _].
    destruct (nodes_ g); [destruct H0|discriminate].
Qed.

Lemma graph_range_top (l : list N) :
  forall m g, top (snd (graph_range l g m)) = top m + length l.
Proof.
  induction l as [|x l IH]; intros m g; cbn [graph_range length].
  - cbn [snd]. lia.
  - unfold make_shared_node. rewrite IH. cbn [top]. lia.
Qed.

(** X3. The constructors from a list of values make a graph whose nodes
    are the values of the list, each once and in ascending order, with no
    edge; a node object is allocated for every element of the list. *)
Theorem graph_range_spec (l : list N) (m : @memory N E) :
  exists g m',
    graph_range l graph_default m = (g, m')
    /\ (forall x, is_node x g m' = true <-> In x l)
    /\ sorted_by (fun v : N => v) (nodes g m')
    /\ range g m' = []
    /\ empty g = match l with [] => true | _ => false end
    /\ top m' = top m + length l.
Proof.
  destruct (graph_range_ok l m graph_default (wf_default m))
    as (g & m' & Heq & (Hwf & _ & _) & He & Hn).
  exists g, m'. split; [exact Heq|]. split; [|split; [|split; [|split]]].
  - intros x. rewrite (is_node_nodes m' g x Hwf), Hn. cbn. tauto.
  - exact (nodes_sorted m' g Hwf).
  - unfold range. rewrite He. reflexivity.
  - unfold empty. destruct l as [|x l].
    + destruct (nodes_ g) as [|p ps] eqn:Hp; [reflexivity|].
      assert (Hin : In (node_cell m' p) (nodes g m'))
        by (unfold nodes; rewrite Hp; left; reflexivity).
      apply Hn in Hin. destruct Hin as [[]|[]].
    + destruct (nodes_ g) as [|p ps] eqn:Hp; [|reflexivity].
      assert (Hin : In x (nodes g m')) by (apply Hn; left; left; reflexivity).
      unfold nodes in Hin. rewrite Hp in Hin. destruct Hin.
  - pose proof (graph_range_top l m graph_default) as Ht.
    rewrite Heq in Ht. exact Ht.
Qed.
End NodeStore.

(** ** is_connected, edges and connections *)

Section Queries.
Context {N E : Type} {ordN : Ord N} {ordE : Ord E}.
Implicit Types (m : @memory N E) (g : graph) (t : edge_tuple).

Lemma StronglySorted_map {A B : Type} (R : B -> B -> Prop) (f : A -> B)
    (l : list A) :
  StronglySorted (fun a b => R (f a) (f b)) l -> StronglySorted R (map f l).
Proof.
  induction 1 as [|a l Hs IH Hf]; cbn [map]; constructor; auto.
  rewrite Forall_forall in *. intros b Hb.
  apply in_map_iff in Hb. destruct Hb as (x & <- & Hx). auto.
Qed.

Lemma is_connected_ok m g (src dst : N) :
  wf m g -> is_node src g m = true -> is_node dst g m = true ->
  exists b, is_connected src dst g m = Ok b
            /\ (b = true <-> exists w, In (src, dst, w) (records g m)).
Proof.
  intros Hwf Hs Hd. unfold is_connected. rewrite Hs, Hd. cbn [negb orb].
  eexists. split; [reflexivity|].
  set (p := fun e : edge_tuple =>
              eqb (node_cell m (get0 e)) src && eqb (node_cell m (get1 e)) dst).
  rewrite negb_true_iff, Nat.eqb_neq. split.
  - intros Hne.
    assert (Hlt : StdSet.find_if p (edges_ g) < length (edges_ g)).
    { pose proof (find_if_le p (edges_ g)). lia. }
    destruct (find_if_found p (edges_ g) Hlt) as (t & Hnth & Hp).
    apply nth_error_In in Hnth. unfold p in Hp.
    apply andb_true_iff in Hp. destruct Hp as [H0 H1].
    apply eqb_true_iff in H0, H1.
    exists (get_weight (edge_cell m (get2 t))).
    unfold records. apply in_map_iff. exists t. split; [|exact Hnth].
    unfold edge_key. now rewrite H0, H1.
  - intros (w & Hin) Heq.
    unfold records in Hin. apply in_map_iff in Hin.
    destruct Hin as (t & Hk & Hin).
    pose proof (proj1 (find_if_end_iff p (edges_ g)) Heq t Hin) as Hf.
    unfold p in Hf. unfold edge_key in Hk. injection Hk as H0 H1 _.
    rewrite H0, H1, !eqb_refl in Hf. discriminate.
Qed.

(** X4. [is_connected] throws when src or dst is not a node; otherwise it is
    true exactly if some edge from src to dst, of any weight or none, is
    stored. *)
Theorem is_connected_spec m g (src dst : N) :
  reachable m g ->
  (is_node src g m = false \/ is_node dst g m = false ->
   is_connected src dst g m
   = Throw "Cannot call gdwg::graph<N, E>::is_connected if src or dst node don't exist in the graph"%string)
  /\ (is_node src g m = true -> is_node dst g m = true ->
      exists b, is_connected src dst g m = Ok b
                /\ (b = true <-> exists w, In (src, dst, w) (to_list g m))).
Proof.
  intros Hr. pose proof (reachable_wf m g Hr) as Hwf. split.
  - intros [H|H]; unfold is_connected; rewrite H; cbn [negb orb];
      [reflexivity|now rewrite orb_true_r].
  - intros Hs Hd. rewrite (to_list_records m g Hwf).
    now apply is_connected_ok.
Qed.

Lemma edges_ok m g (src dst : N) :
  wf m g -> is_node src g m = true -> is_node dst g m = true ->
  exists es,
    edges src dst g m = Ok es
    /\ map (fun e => (fst (get_nodes e), snd (get_nodes e), get_weight e)) es
       = filter (fun r => eqb (fst (fst r)) src && eqb (snd (fst r)) dst)
           (records g m)
    /\ StronglySorted (fun a b => edge_comp a b = Lt) es.
Proof.
  intros Hwf Hs Hd. unfold edges. rewrite Hs, Hd. cbn [negb orb].
  eexists. split; [reflexivity|].
  set (p := fun e : edge_tuple =>
              eqb (node_cell m (get0 e)) src && eqb (node_cell m (get1 e)) dst).
  assert (Hsub : forall t, In t (filter p (edges_ g)) -> In t (edges_ g)).
  { intros t Ht. apply filter_In in Ht. tauto. }
  split.
  - unfold records. rewrite filter_map_comm. rewrite map_map.
    apply map_ext_in. intros t Ht. unfold clone_ptr.
    rewrite (wf_fields m g t Hwf (Hsub t Ht)). reflexivity.
  - apply StronglySorted_map.
    pose proof (sorted_by_filter (edge_key m) p (edges_ g)
                  (wf_edges_sorted m g Hwf)) as Hsorted.
    unfold sorted_by in Hsorted.
    assert (Hp : forall t, In t (filter p (edges_ g)) ->
                 node_cell m (get0 t) = src /\ node_cell m (get1 t) = dst).
    { intros t Ht. apply filter_In in Ht. destruct Ht as [_ Ht].
      unfold p in Ht. apply andb_true_iff in Ht.
      split; apply eqb_true_iff; tauto. }
    induction Hsorted as [|a l Hsl IH Hall]; constructor.
    + apply IH.
      * intros t Ht. apply Hsub. right. exact Ht.
      * intros t Ht. apply Hp. right. exact Ht.
    + rewrite Forall_forall in *. intros b Hb.
      specialize (Hall b Hb). unfold clone_ptr. rewrite edge_comp_cmp.
      unfold edge_key in Hall.
      destruct (Hp a (or_introl eq_refl)) as [Ha0 Ha1].
      destruct (Hp b (or_intror Hb)) as [Hb0 Hb1].
      rewrite Ha0, Ha1, Hb0, Hb1 in Hall.
      rewrite ltb_pair, eqb_refl in Hall.
      unfold ltb in Hall.
      destruct (cmp (get_weight (edge_cell m (get2 a)))
                  (get_weight (edge_cell m (get2 b)))); congruence.
Qed.

(** X5. [edges] throws when src or dst is not a node; otherwise it returns
    copies of exactly the stored edges from src to dst, in the order of
    the store: the unweighted edge first, then the weights ascending. *)
Theorem edges_spec m g (src dst : N) :
  reachable m g ->
  (is_node src g m = false \/ is_node dst g m = false ->
   edges src dst g m
   = Throw "Cannot call gdwg::graph<N, E>::edges if src or dst node don't exist in the graph"%string)
  /\ (is_node src g m = true -> is_node dst g m = true ->
      exists es,
        edges src dst g m = Ok es
        /\ map (fun e => (fst (get_nodes e), snd (get_nodes e), get_weight e)) es
           = filter (fun r => eqb (fst (fst r)) src && eqb (snd (fst r)) dst)
               (to_list g m)
        /\ Forall (fun e => get_nodes e = (src, dst)) es
        /\ (forall w, In w (map get_weight es) <-> In (src, dst, w) (to_list g m))
        /\ StronglySorted (fun a b => edge_comp a b = Lt) es
        /\ (forall (d : N) (x : E),
              edge_comp (unweighted_edge src d) (weighted_edge src d x) = Lt)).
Proof.
  intros Hr. pose proof (reachable_wf m g Hr) as Hwf. split.
  - intros [H|H]; unfold edges; rewrite H; cbn [negb orb];
      [reflexivity|now rewrite orb_true_r].
  - intros Hs Hd. rewrite (to_list_records m g Hwf).
    destruct (edges_ok m g src dst Hwf Hs Hd) as (es & Heq & Hmap & Hsorted).
    exists es. split; [exact Heq|]. split; [exact Hmap|].
    assert (Hin : forall e, In e es ->
              In (fst (get_nodes e), snd (get_nodes e), get_weight e)
                 (records g m)
              /\ fst (get_nodes e) = src /\ snd (get_nodes e) = dst).
    { intros e He.
      assert (H : In (fst (get_nodes e), snd (get_nodes e), get_weight e)
                    (map (fun e => (fst (get_nodes e), snd (get_nodes e),
                                    get_weight e)) es))
        by (apply in_map_iff; exists e; auto).
      rewrite Hmap in H. apply filter_In in H. destruct H as [H Hp].
      cbn [fst snd] in Hp. apply andb_true_iff in Hp.
      split; [exact H|]. split; apply eqb_true_iff; tauto. }
    split; [|split; [|split; [exact Hsorted|reflexivity]]].
    + apply Forall_forall. intros e He.
      destruct (Hin e He) as (_ & H0 & H1).
      rewrite (surjective_pairing (get_nodes e)). now rewrite H0, H1.
    + intros w. split.
      * intros Hw. apply in_map_iff in Hw. destruct Hw as (e & <- & He).
        destruct (Hin e He) as (H & H0 & H1). now rewrite H0, H1 in H.
      * intros Hw.
        assert (H : In (src, dst, w)
                      (filter (fun r => eqb (fst (fst r)) src
                                        && eqb (snd (fst r)) dst)
                         (records g m))).
        { apply filter_In. split; [exact Hw|]. cbn [fst snd].
          now rewrite !eqb_refl. }
        rewrite <- Hmap in H. apply in_map_iff in H.
        destruct H as (e & He & Hine). apply in_map_iff. exists e.
        split; [congruence|exact Hine].
Qed.

Lemma unique_from_sorted (l : list N) :
  forall x,
    StronglySorted (fun a b => ltb b a = false) (x :: l) ->
    exists l',
      unique_from x l = x :: l'
      /\ Forall (fun y => ltb x y = true) l'
      /\ sorted_by (fun v : N => v) l'
      /\ (forall y, In y l' -> In y l)
      /\ (forall y, In y l -> y = x \/ In y l').
Proof.
  induction l as [|y l IH]; intros x Hs; cbn [unique_from].
  - exists []. split; [reflexivity|]. split; [constructor|].
    split; [constructor|]. split; [intros y []|intros y []].
  - inversion Hs as [|? ? Hs' Hall]; subst.
    inversion Hall as [|? ? Hxy Hall']; subst.
    destruct (eqb x y) eqn:Hxy'.
    + apply eqb_true_iff in Hxy'. subst y.
      destruct (IH x) as (l' & Heq & Hf & Hsl & Hin1 & Hin2).
      { inversion Hs'; subst. constructor; assumption. }
      exists l'. split; [exact Heq|]. split; [exact Hf|]. split; [exact Hsl|].
      split.
      * intros z Hz. right. auto.
      * intros z [Hz|Hz]; [left; congruence|auto].
    + destruct (IH y Hs') as (l' & Heq & Hf & Hsl & Hin1 & Hin2).
      assert (Hlt : ltb x y = true).
      { destruct (ltb x y) eqn:Hl; [reflexivity|].
        apply eqb_false_iff in Hxy'. exfalso. apply Hxy'.
        now apply ltb_total. }
      exists (y :: l'). rewrite Heq. split; [reflexivity|].
      split; [|split; [|split]].
      * constructor; [exact Hlt|].
        rewrite Forall_forall in *. intros z Hz.
        eapply ltb_trans; [exact Hlt|auto].
      * constructor; assumption.
      * intros z [Hz|Hz]; [left; exact Hz|right; auto].
      * intros z [Hz|Hz]; [right; left; exact Hz|].
        destruct (Hin2 z Hz) as [->|H]; [right; left; reflexivity|].
        right; right; exact H.
Qed.

Lemma unique_sorted (l : list N) :
  StronglySorted (fun a b => ltb b a = false) l ->
  sorted_by (fun v : N => v) (unique l) /\ (forall y, In y (unique l) <-> In y l).
Proof.
  destruct l as [|x l]; cbn [unique].
  - intros _. split; [constructor|tauto].
  - intros Hs.
    destruct (unique_from_sorted l x Hs) as (l' & Heq & Hf & Hsl & Hin1 & Hin2).
    rewrite Heq. split.
    + constructor; assumption.
    + intros y. split.
      * intros [Hy|Hy]; [left; exact Hy|right; auto].
      * intros [Hy|Hy]; [left; exact Hy|].
        destruct (Hin2 y Hy) as [->|H]; [left; reflexivity|right; exact H].
Qed.

Lemma connections_ok m g (src : N) :
  wf m g -> is_node src g m = true ->
  exists l,
    connections src g m = Ok l
    /\ sorted_by (fun v : N => v) l
    /\ (forall x, In x l <-> exists w, In (src, x, w) (records g m)).
Proof.
  intros Hwf Hs. unfold connections. rewrite Hs. cbn [negb].
  eexists. split; [reflexivity|].
  set (p := fun e : edge_tuple => eqb (node_cell m (get0 e)) src).
  assert (Hp : forall t, In t (filter p (edges_ g)) ->
               In t (edges_ g) /\ node_cell m (get0 t) = src).
  { intros t Ht. apply filter_In in Ht. destruct Ht as [Hin Ht].
    split; [exact Hin|]. now apply eqb_true_iff. }
  assert (Hle : StronglySorted (fun a b => ltb b a = false)
                  (map (fun e => node_cell m (get1 e)) (filter p (edges_ g)))).
  { apply StronglySorted_map.
    pose proof (sorted_by_filter (edge_key m) p (edges_ g)
                  (wf_edges_sorted m g Hwf)) as Hsorted.
    unfold sorted_by in Hsorted.
    induction Hsorted as [|a l Hsl IH Hall]; constructor.
    - apply IH. intros t Ht. apply Hp. right. exact Ht.
    - rewrite Forall_forall in *. intros b Hb. specialize (Hall b Hb).
      unfold edge_key in Hall.
      destruct (Hp a (or_introl eq_refl)) as [_ Ha0].
      destruct (Hp b (or_intror Hb)) as [_ Hb0].
      rewrite Ha0, Hb0 in Hall. rewrite ltb_pair in Hall.
      destruct (eqb (src, node_cell m (get1 a)) (src, node_cell m (get1 b)))
        eqn:Heq.
      + apply eqb_true_iff in Heq. injection Heq as Heq. rewrite Heq.
        apply ltb_irrefl.
      + rewrite ltb_pair, eqb_refl in Hall. now apply ltb_asym. }
  destruct (unique_sorted _ Hle) as [Hsorted Hin].
  split; [exact Hsorted|]. intros x. rewrite Hin. split.
  - intros Hx. apply in_map_iff in Hx. destruct Hx as (t & <- & Ht).
    destruct (Hp t Ht) as [Hint H0].
    exists (get_weight (edge_cell m (get2 t))).
    unfold records. apply in_map_iff. exists t. split; [|exact Hint].
    unfold edge_key. now rewrite H0.
  - intros (w & Hw). unfold records in Hw. apply in_map_iff in Hw.
    destruct Hw as (t & Hk & Hint). unfold edge_key in Hk.
    injection Hk as H0 H1 _. apply in_map_iff. exists t.
    split; [exact H1|]. apply filter_In. split; [exact Hint|].
    unfold p. rewrite H0. apply eqb_refl.
Qed.

(** X6. [connections] throws when src is not a node; otherwise it returns
    the destinations of the edges that leave src, each once and in
    ascending order; they are the nodes is_connected accepts after src. *)
Theorem connections_spec m g (src : N) :
  reachable m g ->
  (is_node src g m = false ->
   connections src g m
   = Throw "Cannot call gdwg::graph<N, E>::connections if src doesn't exist in the graph"%string)
  /\ (is_node src g m = true ->
      exists l,
        connections src g m = Ok l
        /\ sorted_by (fun v : N => v) l
        /\ NoDup l
        /\ (forall x, In x l <-> exists w, In (src, x, w) (to_list g m))
        /\ (forall x, In x l <-> is_connected src x g m = Ok true)).
Proof.
  intros Hr. pose proof (reachable_wf m g Hr) as Hwf. split.
  - intros H. unfold connections. now rewrite H.
  - intros Hs. rewrite (to_list_records m g Hwf).
    destruct (connections_ok m g src Hwf Hs) as (l & Heq & Hsorted & Hin).
    exists l. split; [exact Heq|]. split; [exact Hsorted|].
    split; [exact (sorted_by_NoDup (fun v : N => v) l Hsorted)|].
    split; [exact Hin|]. intros x. rewrite Hin. split.
    + intros (w & Hw).
      assert (Hx : is_node x g m = true).
      { apply (is_node_nodes m g x Hwf).
        exact (proj2 (records_endpoints m g _ Hwf Hw)). }
      destruct (is_connected_ok m g src x Hwf Hs Hx) as (b & Hb & Hiff).
      rewrite Hb. f_equal. apply Hiff. eauto.
    + intros Hc.
      destruct (is_node x g m) eqn:Hx.
      * destruct (is_connected_ok m g src x Hwf Hs Hx) as (b & Hb & Hiff).
        rewrite Hb in Hc. injection Hc as ->. now apply Hiff.
      * unfold is_connected in Hc. rewrite Hs, Hx in Hc. discriminate.
Qed.
End Queries.

(** ** The three overloads of erase_edge *)

Section ErasingEdges.
Context {N E : Type} {ordN : Ord N} {ordE : Ord E}.
Implicit Types (m : @memory N E) (g : graph) (t : edge_tuple).

Lemma find_if_map {A B : Type} (f : A -> B) (p : B -> bool) (s : list A) :
  StdSet.find_if p (map f s) = StdSet.find_if (fun a => p (f a)) s.
Proof.
  induction s as [|a s IH]; cbn [map StdSet.find_if]; [reflexivity|].
  now rewrite IH.
Qed.

Lemma find_if_ext_in {A : Type} (p q : A -> bool) (s : list A) :
  (forall a, In a s -> p a = q a) -> StdSet.find_if p s = StdSet.find_if q s.
Proof.
  induction s as [|a s IH]; intros H; cbn [StdSet.find_if]; [reflexivity|].
  rewrite (H a (or_introl eq_refl)), IH; [reflexivity|].
  intros b Hb. apply H. right. exact Hb.
Qed.

Lemma nth_error_erase_span {A : Type} (i j : nat) (s : list A) :
  i <= j -> j <= length s ->
  nth_error (StdSet.erase_span i j s) i = nth_error s j
  /\ length (StdSet.erase_span i j s) + (j - i) = length s.
Proof.
  intros Hij Hj. unfold StdSet.erase_span.
  assert (Hl : length (firstn i s) = i) by (rewrite length_firstn; lia).
  split.
  - rewrite nth_error_app2 by lia. rewrite Hl, Nat.sub_diag.
    rewrite nth_error_skipn. f_equal. lia.
  - rewrite length_app, Hl, length_skipn. lia.
Qed.

Lemma range_erase_span m g (i j : nat) :
  range {| nodes_ := nodes_ g; edges_ := StdSet.erase_span i j (edges_ g) |} m
  = StdSet.erase_span i j (range g m).
Proof.
  unfold range, StdSet.erase_span. cbn [edges_].
  now rewrite map_app, firstn_map, skipn_map.
Qed.

(** X7. [erase_edge] by value, on two nodes, returns true exactly if the
    record is stored; the record is gone afterwards, every other record
    and every node stays, and find then returns end. *)
Theorem erase_edge_spec m g (src dst : N) (w : option E) :
  reachable m g -> is_node src g m = true -> is_node dst g m = true ->
  exists b g',
    erase_edge src dst w g m = (Ok b, g', m)
    /\ (b = true <-> In (src, dst, w) (to_list g m))
    /\ (b = false -> g' = g)
    /\ nodes g' m = nodes g m
    /\ to_list g' m = filter (fun r => negb (eqb r (src, dst, w))) (to_list g m)
    /\ (forall r, In r (to_list g' m) <-> In r (to_list g m) /\ r <> (src, dst, w))
    /\ find src dst w g' m = end_ g'.
Proof.
  intros Hr Hs Hd. pose proof (reachable_wf m g Hr) as Hwf.
  destruct (erase_edge_ok m g src dst w Hwf Hs Hd)
    as (b & g' & Heq & Hwf' & Hn & _ & Hb & Hsame & Hrec).
  exists b, g'. rewrite (to_list_records m g Hwf), (to_list_records m g' Hwf').
  split; [exact Heq|]. split; [exact Hb|]. split; [exact Hsame|].
  split; [unfold nodes; now rewrite Hn|]. split; [exact Hrec|].
  assert (Hin : forall r, In r (records g' m) <->
                          In r (records g m) /\ r <> (src, dst, w)).
  { intros r. rewrite Hrec, filter_In, negb_true_iff.
    now rewrite (eqb_false_iff r (src, dst, w)). }
  split; [exact Hin|].
  apply (find_end_iff m g' src dst w Hwf'). intros H.
  apply Hin in H. destruct H as [_ H]. now apply H.
Qed.

Lemma erase_at_not_in {A : Type} (i : nat) (s : list A) (a : A) :
  NoDup s -> nth_error s i = Some a ->
  ~ In a (firstn i s ++ skipn (S i) s).
Proof.
  intros Hnd Hnth.
  destruct (nth_error_split s i Hnth) as (l1 & l2 & Hs & Hl). subst s i.
  rewrite firstn_app, firstn_all, Nat.sub_diag. cbn [firstn].
  rewrite skipn_app, skipn_all2 by lia.
  replace (S (length l1) - length l1) with 1 by lia. cbn [skipn app].
  rewrite app_nil_r. now apply NoDup_remove_2.
Qed.

(** X8. [erase_edge] on an iterator removes the record the iterator stands
    at and no other, keeps the nodes, and returns the iterator of the
    record that followed, or end if none did. *)
Theorem erase_edge_it_spec m g (i : nat) :
  reachable m g -> i < end_ g ->
  exists g',
    erase_edge_it i g = (i, g')
    /\ nodes g' m = nodes g m
    /\ range g' m = firstn i (range g m) ++ skipn (S i) (range g m)
    /\ (forall v, nth_error (range g m) i = Some v -> ~ In v (range g' m))
    /\ S (end_ g') = end_ g
    /\ nth_error (range g' m) i = nth_error (range g m) (S i)
    /\ (i = end_ g' <-> S i = end_ g).
Proof.
  intros Hr Hi. pose proof (reachable_wf m g Hr) as Hwf.
  unfold erase_edge_it, end_ in *. eexists. split; [reflexivity|].
  cbn [edges_]. rewrite (erase_at_span i (edges_ g)).
  destruct (nth_error_erase_span i (S i) (edges_ g)) as [_ Hlen]; [lia|lia|].
  split; [reflexivity|]. rewrite range_erase_span.
  split; [reflexivity|]. split; [|split; [lia|split; [|lia]]].
  - intros v Hv. unfold StdSet.erase_span. apply erase_at_not_in; [|exact Hv].
    apply (NoDup_map_inv triple). rewrite (range_records m g Hwf).
    exact (records_NoDup m g Hwf).
  - apply nth_error_erase_span; [lia|]. unfold range. rewrite length_map. lia.
Qed.

(** X9. [erase_edge] on a range of iterators removes the records from the
    first up to but not including the last, keeps the nodes, and returns
    the iterator of the record the last one stood at; for an empty range
    the graph is unchanged, for the range from begin to end no edge is
    left. *)
Theorem erase_edge_range_spec m g (i s : nat) :
  i <= s -> s <= end_ g ->
  exists g',
    erase_edge_range i s g = (i, g')
    /\ nodes g' m = nodes g m
    /\ range g' m = firstn i (range g m) ++ skipn s (range g m)
    /\ end_ g' + (s - i) = end_ g
    /\ nth_error (range g' m) i = nth_error (range g m) s
    /\ (i = s -> g' = g)
    /\ (i = begin g -> s = end_ g -> range g' m = []).
Proof.
  intros His Hs. unfold erase_edge_range, end_, begin in *.
  eexists. split; [reflexivity|]. cbn [edges_].
  destruct (nth_error_erase_span i s (edges_ g) His Hs) as [_ Hlen].
  split; [reflexivity|]. rewrite range_erase_span.
  split; [reflexivity|]. split; [exact Hlen|].
  split; [|split].
  - apply nth_error_erase_span; [lia|]. unfold range. rewrite length_map. lia.
  - intros ->. unfold StdSet.erase_span. rewrite firstn_skipn.
    destruct g; reflexivity.
  - intros -> ->. unfold StdSet.erase_span, range.
    rewrite <- (length_map (deref m)), skipn_all. reflexivity.
Qed.

(** X10. Erasing through the iterator that find returns is erasing by
    value: for a stored record both leave the same graph. *)
Theorem erase_edge_found m g (src dst : N) (w : option E) :
  reachable m g -> In (src, dst, w) (to_list g m) ->
  find src dst w g m < end_ g
  /\ erase_edge src dst w g m
     = (Ok true, snd (erase_edge_it (find src dst w g m) g), m).
Proof.
  intros Hr Hin. pose proof (reachable_wf m g Hr) as Hwf.
  rewrite (to_list_records m g Hwf) in Hin.
  assert (Hlt : find src dst w g m < end_ g).
  { pose proof (find_le m g src dst w) as Hle.
    destruct (Nat.eq_dec (find src dst w g m) (end_ g)) as [He|He]; [|lia].
    apply (find_end_iff m g src dst w Hwf) in He. contradiction. }
  split; [exact Hlt|].
  destruct (records_endpoints m g _ Hwf Hin) as [Hs Hd]. cbn [fst snd] in Hs, Hd.
  apply (is_node_nodes m g src Hwf) in Hs.
  apply (is_node_nodes m g dst Hwf) in Hd.
  assert (Hfind : find src dst w g m
                  = StdSet.find_if
                      (fun e => eqb (node_cell m (get0 e)) src
                                && eqb (node_cell m (get1 e)) dst
                                && opt_eqb (get_weight (edge_cell m (get2 e))) w)
                      (edges_ g)).
  { unfold find, range. rewrite find_if_map. apply find_if_ext_in.
    intros t Ht. unfold deref. cbn [from to weight].
    now rewrite (wf_fields m g t Hwf Ht). }
  unfold erase_edge, erase_edge_it. rewrite Hs, Hd. cbn [negb orb snd].
  rewrite <- Hfind.
  unfold end_ in Hlt. apply Nat.lt_neq in Hlt. apply Nat.eqb_neq in Hlt.
  now rewrite Hlt.
Qed.
End ErasingEdges.

(** ** operator== *)

Section Equality.
Context {N E : Type} {ordN : Ord N} {ordE : Ord E}.
Context {showN : Show N} {showE : Show E}.
Implicit Types (m : @memory N E) (g o h : graph) (t : edge_tuple).

Lemma operator_eq_to_list m g o :
  operator_eq g o m = true <-> nodes g m = nodes o m /\ to_list g m = to_list o m.
Proof.
  rewrite operator_eq_true_iff. unfold to_list. split.
  - intros [Hn Hr]. now rewrite Hn, Hr.
  - intros [Hn Hr]. split; [exact Hn|]. now apply map_triple_inj.
Qed.

(** X11. [operator==] is true exactly if both graphs have the same node
    values in the same order and the same edge records in the same order;
    it is reflexive, symmetric and transitive. *)
Theorem operator_eq_spec m g o :
  (operator_eq g o m = true <->
   nodes g m = nodes o m /\ to_list g m = to_list o m)
  /\ operator_eq g g m = true
  /\ operator_eq g o m = operator_eq o g m
  /\ (forall h, operator_eq g o m = true -> operator_eq o h m = true ->
                operator_eq g h m = true).
Proof.
  split; [apply operator_eq_to_list|].
  split; [apply operator_eq_to_list; split; reflexivity|]. split.
  - destruct (operator_eq g o m) eqn:H1; destruct (operator_eq o g m) eqn:H2;
      try reflexivity.
    + apply operator_eq_to_list in H1. destruct H1 as [Hn Hr].
      assert (H : operator_eq o g m = true)
        by (apply operator_eq_to_list; split; congruence).
      congruence.
    + apply operator_eq_to_list in H2. destruct H2 as [Hn Hr].
      assert (H : operator_eq g o m = true)
        by (apply operator_eq_to_list; split; congruence).
      congruence.
  - intros h H1 H2. apply operator_eq_to_list in H1, H2.
    apply operator_eq_to_list. destruct H1, H2. split; congruence.
Qed.

End Equality.

(** ** Round trips *)

Section RoundTrips.
Context {N E : Type} {ordN : Ord N} {ordE : Ord E}.
Implicit Types (m : @memory N E) (g : graph) (t : edge_tuple).

Lemma filter_all {A : Type} (p : A -> bool) (l : list A) :
  (forall a, In a l -> p a = true) -> filter p l = l.
Proof.
  induction l as [|a l IH]; intros H; cbn [filter]; [reflexivity|].
  rewrite (H a (or_introl eq_refl)), IH; [reflexivity|].
  intros b Hb. apply H. right. exact Hb.
Qed.

Lemma is_node_same_store m m' g g' (x : N) :
  nodes_ g' = nodes_ g -> agree m m' g -> is_node x g' m' = is_node x g m.
Proof.
  intros Hn (_ & Hc & _). unfold is_node. rewrite Hn.
  apply contains_ext. intros p Hp. unfold compare_pv, compare_vp, less_ak, less_ka.
  now rewrite (Hc p Hp).
Qed.

(** X13. Inserting an edge that is not stored and erasing it again gives
    back the nodes and the edge records the graph had. *)
Theorem insert_erase_edge_roundtrip m g (src dst : N) (w : option E) :
  reachable m g -> is_node src g m = true -> is_node dst g m = true ->
  ~ In (src, dst, w) (to_list g m) ->
  exists g1 m1 g2,
    insert_edge src dst w g m = (Ok true, g1, m1)
    /\ erase_edge src dst w g1 m1 = (Ok true, g2, m1)
    /\ nodes g2 m1 = nodes g m
    /\ to_list g2 m1 = to_list g m.
Proof.
  intros Hr Hs Hd Hnot. pose proof (reachable_wf m g Hr) as Hwf.
  rewrite (to_list_records m g Hwf) in *.
  destruct (insert_edge_ok m g src dst w Hwf Hs Hd)
    as (b & g1 & m1 & Heq & (Hwf1 & _ & _) & Hag & Hn1 & Hb & _ & Hrec1).
  assert (Hbt : b = true).
  { destruct b; [reflexivity|]. exfalso. apply Hnot. now apply Hb. }
  subst b.
  assert (Hs1 : is_node src g1 m1 = true)
    by (rewrite (is_node_same_store m m1 g g1 src Hn1 Hag); exact Hs).
  assert (Hd1 : is_node dst g1 m1 = true)
    by (rewrite (is_node_same_store m m1 g g1 dst Hn1 Hag); exact Hd).
  destruct (erase_edge_ok m1 g1 src dst w Hwf1 Hs1 Hd1)
    as (b & g2 & Heq2 & Hwf2 & Hn2 & _ & Hb2 & _ & Hrec2).
  assert (Hin1 : In (src, dst, w) (records g1 m1)).
  { rewrite Hrec1. apply insert_value_in. left. reflexivity. }
  assert (Hbt : b = true) by now apply Hb2. subst b.
  exists g1, m1, g2. split; [exact Heq|]. split; [exact Heq2|]. split.
  - unfold nodes. rewrite Hn2, Hn1. exact (agree_nodes m m1 g Hag).
  - rewrite (to_list_records m1 g2 Hwf2).
    apply sorted_same_members;
      [exact (records_sorted m1 g2 Hwf2)|exact (records_sorted m g Hwf)|].
    intros r. rewrite Hrec2, filter_In, Hrec1, insert_value_in, negb_true_iff.
    rewrite (eqb_false_iff r (src, dst, w)). split.
    + intros [[H|H] Hne]; [contradiction|exact H].
    + intros H. split; [right; exact H|]. intros ->. contradiction.
Qed.

(** X14. Inserting a value that is not a node and erasing it again gives
    back the nodes and the edge records the graph had. *)
Theorem insert_erase_node_roundtrip m g (v : N) :
  reachable m g -> is_node v g m = false ->
  exists g1 m1 g2,
    insert_node v g m = (true, g1, m1)
    /\ erase_node v g1 m1 = (true, g2, m1)
    /\ nodes g2 m1 = nodes g m
    /\ to_list g2 m1 = to_list g m.
Proof.
  intros Hr Hv. pose proof (reachable_wf m g Hr) as Hwf.
  destruct (insert_node_true m g v Hwf Hv)
    as (g1 & m1 & Heq & (Hwf1 & _ & _) & Hn1 & He1 & Hag).
  assert (Hv1 : is_node v g1 m1 = true).
  { apply (is_node_after_insert m g (nodes g m) v v m1 g1 Hwf1 Hn1).
    left. reflexivity. }
  destruct (erase_node_true m1 g1 v Hwf1 Hv1)
    as (g2 & Heq2 & Hwf2 & _ & _ & Hn2 & Hrec2 & _).
  assert (Hnot : ~ In v (nodes g m)).
  { intros H. apply (is_node_nodes m g v Hwf) in H. congruence. }
  exists g1, m1, g2. split; [exact Heq|]. split; [exact Heq2|]. split.
  - apply sorted_same_members;
      [exact (nodes_sorted m1 g2 Hwf2)|exact (nodes_sorted m g Hwf)|].
    intros x. rewrite Hn2, filter_In, Hn1, insert_value_in, negb_true_iff.
    rewrite (eqb_false_iff x v). split.
    + intros [[H|H] Hne]; [contradiction|exact H].
    + intros H. split; [right; exact H|]. intros ->. contradiction.
  - rewrite (to_list_records m1 g2 Hwf2), (to_list_records m g Hwf), Hrec2.
    assert (Hr1 : records g1 m1 = records g m).
    { unfold records at 1. rewrite He1.
      exact (agree_records m m1 g Hwf Hag). }
    rewrite Hr1. apply filter_all. intros r Hin.
    destruct (records_endpoints m g r Hwf Hin) as [H0 H1].
    apply negb_true_iff, orb_false_iff. split; apply eqb_false_iff; congruence.
Qed.

Lemma redirect_back (a b : N) (r : N * N * option E) :
  fst (fst r) <> b -> snd (fst r) <> b ->
  redirect b a (redirect a b r) = r.
Proof.
  destruct r as [[s d] w]. cbn [fst snd]. intros Hs Hd.
  unfold redirect. cbn [fst snd].
  assert (H1 : (if eqb (if eqb s a then b else s) b then a
                else if eqb s a then b else s) = s).
  { destruct (eqb s a) eqn:H.
    - rewrite eqb_refl. apply eqb_true_iff in H. congruence.
    - apply eqb_false_iff in Hs. now rewrite Hs. }
  assert (H2 : (if eqb (if eqb d a then b else d) b then a
                else if eqb d a then b else d) = d).
  { destruct (eqb d a) eqn:H.
    - rewrite eqb_refl. apply eqb_true_iff in H. congruence.
    - apply eqb_false_iff in Hd. now rewrite Hd. }
  now rewrite H1, H2.
Qed.

(** X15. Renaming a node to a value that is not a node and renaming it
    back gives back the nodes and the edge records the graph had. *)
Theorem replace_node_roundtrip m g (a b : N) :
  reachable m g -> is_node a g m = true -> is_node b g m = false ->
  exists g1 m1 g2 m2,
    replace_node a b g m = (Ok true, g1, m1)
    /\ replace_node b a g1 m1 = (Ok true, g2, m2)
    /\ nodes g2 m2 = nodes g m
    /\ to_list g2 m2 = to_list g m.
Proof.
  intros Hr Ha Hb. pose proof (reachable_wf m g Hr) as Hwf.
  assert (Hab : a <> b) by (intros ->; congruence).
  assert (Hnb : ~ In b (nodes g m)).
  { intros H. apply (is_node_nodes m g b Hwf) in H. congruence. }
  destruct (replace_node_true m g a b Hwf Ha Hb)
    as (g1 & m1 & Heq1 & (Hwf1 & _ & _) & Hn1 & Hrec1).
  assert (Hb1 : is_node b g1 m1 = true).
  { apply (is_node_after_insert m g _ b b m1 g1 Hwf1 Hn1). left. reflexivity. }
  assert (Ha1 : is_node a g1 m1 = false).
  { destruct (is_node a g1 m1) eqn:H; [|reflexivity].
    apply (is_node_after_insert m g _ b a m1 g1 Hwf1 Hn1) in H.
    destruct H as [H|H]; [contradiction|].
    apply filter_In in H. destruct H as [_ H].
    rewrite eqb_refl in H. discriminate. }
  destruct (replace_node_true m1 g1 b a Hwf1 Hb1 Ha1)
    as (g2 & m2 & Heq2 & (Hwf2 & _ & _) & Hn2 & Hrec2).
  exists g1, m1, g2, m2. split; [exact Heq1|]. split; [exact Heq2|]. split.
  - apply sorted_same_members;
      [exact (nodes_sorted m2 g2 Hwf2)|exact (nodes_sorted m g Hwf)|].
    intros x. rewrite Hn2, insert_value_in, filter_In, Hn1, insert_value_in,
      filter_In, !negb_true_iff.
    rewrite (eqb_false_iff x b), (eqb_false_iff x a). split.
    + intros [->|[[H|[H _]] Hne]].
      * now apply (is_node_nodes m g a Hwf).
      * contradiction.
      * exact H.
    + intros H. destruct (eqb x a) eqn:Hxa.
      * apply eqb_true_iff in Hxa. left. exact Hxa.
      * apply eqb_false_iff in Hxa. right. split.
        -- right. split; [exact H|exact Hxa].
        -- intros ->. contradiction.
  - rewrite (to_list_records m2 g2 Hwf2), (to_list_records m g Hwf).
    apply sorted_same_members;
      [exact (records_sorted m2 g2 Hwf2)|exact (records_sorted m g Hwf)|].
    assert (Hback : forall r0, In r0 (records g m) ->
                      redirect b a (redirect a b r0) = r0).
    { intros r0 Hin. destruct (records_endpoints m g r0 Hwf Hin) as [H0 H1].
      apply redirect_back; congruence. }
    intros r. rewrite Hrec2. split.
    + intros (r1 & Hin1 & ->). apply Hrec1 in Hin1.
      destruct Hin1 as (r0 & Hin0 & ->). now rewrite (Hback r0 Hin0).
    + intros Hin. exists (redirect a b r). split.
      * apply Hrec1. exists r. split; [exact Hin|reflexivity].
      * symmetry. now apply Hback.
Qed.
End RoundTrips.

(** ** The order of iteration, the edge classes and the comparators *)

Section Order.
Context {N E : Type} {ordN : Ord N} {ordE : Ord E}.
Implicit Types (m : @memory N E) (g : graph) (t : edge_tuple).

Lemma ltb_record (a b c d : N) (x y : option E) :
  ltb (a, b, x) (c, d, y)
  = if eqb a c then (if eqb b d then ltb x y else ltb b d) else ltb a c.
Proof.
  rewrite ltb_pair, eqb_pair, ltb_pair.
  destruct (eqb a c), (eqb b d); reflexivity.
Qed.

(** X16. Iterating from begin to end yields the edge records in strictly
    ascending order of source, then destination, then weight, the record
    without weight before those with one; no record comes twice, and the
    source and destination an iterator yields are the values of the node
    objects its element points to. *)
Theorem iteration_order m g :
  reachable m g ->
  sorted_by triple (range g m)
  /\ NoDup (range g m)
  /\ length (range g m) = end_ g - begin g
  /\ (forall t, In t (edges_ g) ->
        from (deref m t) = node_cell m (get0 t)
        /\ to (deref m t) = node_cell m (get1 t))
  /\ (forall (a b c d : N) (x y : option E),
        ltb (a, b, x) (c, d, y)
        = if eqb a c then (if eqb b d then ltb x y else ltb b d) else ltb a c)
  /\ (forall x : E, ltb (@None E) (Some x) = true).
Proof.
  intros Hr. pose proof (reachable_wf m g Hr) as Hwf.
  split; [|split; [|split; [|split; [|split]]]].
  - apply sorted_by_map. rewrite (range_records m g Hwf).
    exact (records_sorted m g Hwf).
  - apply (NoDup_map_inv triple). rewrite (range_records m g Hwf).
    exact (records_NoDup m g Hwf).
  - unfold range, end_, begin. rewrite length_map. lia.
  - intros t Ht. unfold deref. cbn [from to].
    now rewrite (wf_fields m g t Hwf Ht).
  - apply ltb_record.
  - reflexivity.
Qed.

(** X17. Two edges are equal under operator== exactly if they have the
    same source, destination and weight; edge_comp looks at the weights
    only: equal for equal weights, an edge without weight less than one
    with a weight, two weights as they compare; set_nodes keeps the
    weight. *)
Theorem edge_spec (e e' : @edge N E) :
  (edge_eq e e' = true <-> e = e')
  /\ (edge_comp e e' = Eq <-> get_weight e = get_weight e')
  /\ (edge_comp e e' = Lt <->
      match get_weight e, get_weight e' with
      | None, Some _ => True
      | Some a, Some b => ltb a b = true
      | _, None => False
      end)
  /\ edge_comp e' e = CompOpp (edge_comp e e')
  /\ (forall s d : N,
        get_nodes (set_nodes s d e) = (s, d)
        /\ get_weight (set_nodes s d e) = get_weight e).
Proof.
  split; [|split; [|split; [|split]]].
  - rewrite edge_eq_true_iff. split; [|now intros ->].
    destruct e, e'; cbn; intros H; injection H; intros; subst; reflexivity
      || discriminate.
  - rewrite edge_comp_cmp. split.
    + apply cmp_eq.
    + intros ->. apply cmp_refl.
  - rewrite edge_comp_cmp.
    destruct (get_weight e) as [a|], (get_weight e') as [b|]; cbn.
    + unfold ltb. destruct (cmp a b); split; congruence.
    + split; [discriminate|tauto].
    + tauto.
    + split; [discriminate|tauto].
  - rewrite !edge_comp_cmp. apply cmp_antisym.
  - intros s d. destruct e; split; reflexivity.
Qed.

(** X18. [insert_edge] between two nodes never changes the nodes and never
    removes a record; it leaves the graph as it was when it returns false,
    and adds one record when it returns true; afterwards src is connected
    to dst and find returns the iterator of the record. *)
Theorem insert_edge_effect m g (src dst : N) (w : option E) :
  reachable m g -> is_node src g m = true -> is_node dst g m = true ->
  exists b g' m',
    insert_edge src dst w g m = (Ok b, g', m')
    /\ (b = false -> g' = g)
    /\ nodes g' m' = nodes g m
    /\ (forall r, In r (to_list g' m') <-> r = (src, dst, w) \/ In r (to_list g m))
    /\ length (to_list g' m')
       = (if b then S (length (to_list g m)) else length (to_list g m))
    /\ is_connected src dst g' m' = Ok true
    /\ (exists v, nth_error (range g' m') (find src dst w g' m') = Some v
                  /\ triple v = (src, dst, w)).
Proof.
  intros Hr Hs Hd. pose proof (reachable_wf m g Hr) as Hwf.
  destruct (insert_edge_ok m g src dst w Hwf Hs Hd)
    as (b & g' & m' & Heq & (Hwf' & _ & _) & Hag & Hn & Hb & Hsame & Hrec).
  exists b, g', m'.
  rewrite (to_list_records m g Hwf), (to_list_records m' g' Hwf').
  assert (Hin : In (src, dst, w) (records g' m')).
  { rewrite Hrec. apply insert_value_in. left. reflexivity. }
  assert (Hs' : is_node src g' m' = true)
    by (rewrite (is_node_same_store m m' g g' src Hn Hag); exact Hs).
  assert (Hd' : is_node dst g' m' = true)
    by (rewrite (is_node_same_store m m' g g' dst Hn Hag); exact Hd).
  split; [exact Heq|]. split; [exact Hsame|].
  split; [unfold nodes; rewrite Hn; exact (agree_nodes m m' g Hag)|].
  split; [intros r; rewrite Hrec; apply insert_value_in|].
  split; [|split].
  - rewrite Hrec. destruct b.
    + destruct (insert_true (fun r : N * N * option E => r) (src, dst, w)
                  (records g m) (records_sorted m g Hwf))
        as (l1 & l2 & Hsplit & Hi & _).
      { intros a Ha ->. apply Hb in Ha. discriminate. }
      change (StdSet.insert (less_key (fun r : N * N * option E => r))
                (src, dst, w) (records g m))
        with (StdSet.insert ltb (src, dst, w) (records g m)) in Hi.
      rewrite Hi, Hsplit. cbn [fst]. rewrite !length_app. cbn [length]. lia.
    + rewrite (insert_value_false (src, dst, w) (records g m)
                 (records_sorted m g Hwf)); [reflexivity|].
      now apply Hb.
  - destruct (is_connected_ok m' g' src dst Hwf' Hs' Hd') as (c & Hc & Hiff).
    rewrite Hc. f_equal. apply Hiff. eauto.
  - apply find_found.
    pose proof (find_le m' g' src dst w) as Hle.
    destruct (Nat.eq_dec (find src dst w g' m') (end_ g')) as [He|He]; [|lia].
    apply (find_end_iff m' g' src dst w Hwf') in He. contradiction.
Qed.

(** X19. Within one graph two node objects hold the same value only if
    they are the same object, so the test on pointers in the comparator of
    the edge store decides as the values do: the comparator is the
    ascending order of (source, destination, weight), and two elements of
    the store neither of which is less than the other are the same. *)
Theorem comparators_spec m g :
  reachable m g ->
  (forall p q, In p (nodes_ g) -> In q (nodes_ g) ->
     (node_cell m p = node_cell m q -> p = q)
     /\ (compare_pp m p q = false -> compare_pp m q p = false -> p = q))
  /\ (forall x y, In x (edges_ g) -> In y (edges_ g) ->
        compare_edges_set m x y = ltb (edge_key m x) (edge_key m y)
        /\ (compare_edges_set m x y = true -> compare_edges_set m y x = false)
        /\ (compare_edges_set m x y = false -> compare_edges_set m y x = false ->
            x = y)).
Proof.
  intros Hr. pose proof (reachable_wf m g Hr) as Hwf.
  pose proof (wf_nodes_sorted m g Hwf) as Hns. split.
  - intros p q Hp Hq. split.
    + now apply (nodes_inj m g p q Hns).
    + unfold compare_pp. intros H1 H2.
      apply (nodes_inj m g p q Hns Hp Hq). now apply ltb_total.
  - intros x y Hx Hy.
    assert (Hk : forall a b, In a (edges_ g) -> In b (edges_ g) ->
              compare_edges_set m a b = ltb (edge_key m a) (edge_key m b)).
    { intros a b Ha Hb.
      exact (compare_edges_set_less_key m g a b Hns
               (wf_endpoints m g a Hwf Ha) (wf_endpoints m g b Hwf Hb)). }
    split; [now apply Hk|]. rewrite (Hk x y Hx Hy), (Hk y x Hy Hx). split.
    + apply ltb_asym.
    + intros H1 H2.
      apply (sorted_by_key_inj (edge_key m) (edges_ g) x y
               (wf_edges_sorted m g Hwf) Hx Hy).
      now apply ltb_total.
Qed.

(** X20. [find_node_ptr] returns the one node object of the graph that holds
    the value, and no object exactly if is_node is false. *)
Theorem find_node_ptr_spec m g (v : N) :
  reachable m g ->
  (forall p, find_node_ptr v g m = Some p <->
             In p (nodes_ g) /\ node_cell m p = v)
  /\ (find_node_ptr v g m = None <-> is_node v g m = false)
  /\ (forall p, find_node_ptr v g m = Some p -> is_node v g m = true).
Proof.
  intros Hr. pose proof (reachable_wf m g Hr) as Hwf.
  pose proof (wf_nodes_sorted m g Hwf) as Hns.
  split; [|split].
  - intros p. split.
    + apply find_node_ptr_some.
    + intros [Hp Hv]. now apply find_node_ptr_in.
  - rewrite is_node_find. destruct (find_node_ptr v g m); split; congruence.
  - intros p Hp. rewrite is_node_find, Hp. reflexivity.
Qed.
End Order.

(** ** Moving a graph *)

Section Moving.
Context {N E : Type} {ordN : Ord N} {ordE : Ord E}.
Implicit Types (m : @memory N E) (g : graph) (w : @world N E).

Lemma graph_eta g : {| nodes_ := nodes_ g; edges_ := edges_ g |} = g.
Proof. destruct g; reflexivity. Qed.

(** X21. The move constructor and move assignment hand the node and edge
    objects of the source to the target and leave the source empty; no
    object is made or changed; assigning a graph to itself, by copy or by
    move, changes nothing. *)
Theorem move_spec w (i : nat) g :
  nth_error (vars w) i = Some g ->
  (exists w1 left,
     exec (New_move i) w = Some w1
     /\ heap w1 = heap w
     /\ nth_error (vars w1) (length (vars w)) = Some g
     /\ nth_error (vars w1) i = Some left
     /\ empty left = true /\ nodes_ left = [] /\ edges_ left = []
     /\ (forall k, k <> i -> k < length (vars w) ->
                   nth_error (vars w1) k = nth_error (vars w) k))
  /\ (forall j gj, j <> i -> nth_error (vars w) j = Some gj ->
      exists w1 left,
        exec (Assign_move j i) w = Some w1
        /\ heap w1 = heap w
        /\ nth_error (vars w1) j = Some g
        /\ nth_error (vars w1) i = Some left
        /\ empty left = true /\ nodes_ left = [] /\ edges_ left = []
        /\ (forall k, k <> i -> k <> j ->
                      nth_error (vars w1) k = nth_error (vars w) k))
  /\ exec (Assign_move i i) w = Some w
  /\ exec (Assign_copy i i) w = Some w.
Proof.
  intros Hi.
  assert (Hlt : i < length (vars w)).
  { apply nth_error_Some. congruence. }
  split; [|split; [|split]].
  - cbn [exec]. rewrite Hi. unfold move_construct. rewrite graph_eta.
    eexists. eexists. split; [reflexivity|]. cbn [heap vars].
    split; [reflexivity|]. split; [|split; [|split; [|split; [|split]]]].
    + rewrite nth_error_app2 by (rewrite set_var_length; lia).
      rewrite set_var_length, Nat.sub_diag. reflexivity.
    + rewrite nth_error_app1 by (rewrite set_var_length; lia).
      now apply nth_error_set_var_eq.
    + reflexivity.
    + reflexivity.
    + reflexivity.
    + intros k Hk Hkl.
      rewrite nth_error_app1 by (rewrite set_var_length; lia).
      now apply nth_error_set_var_neq.
  - intros j gj Hji Hj.
    assert (Hjl : j < length (vars w)).
    { apply nth_error_Some. congruence. }
    cbn [exec]. rewrite Hj, Hi.
    apply Nat.eqb_neq in Hji. rewrite Hji. apply Nat.eqb_neq in Hji.
    unfold move_construct. rewrite graph_eta.
    eexists. eexists. split; [reflexivity|]. cbn [heap vars].
    split; [reflexivity|]. split; [|split; [|split; [|split; [|split]]]].
    + apply nth_error_set_var_eq. rewrite set_var_length. exact Hjl.
    + rewrite nth_error_set_var_neq by congruence.
      now apply nth_error_set_var_eq.
    + reflexivity.
    + reflexivity.
    + reflexivity.
    + intros k Hki Hkj.
      rewrite nth_error_set_var_neq by exact Hkj.
      now apply nth_error_set_var_neq.
  - cbn [exec]. rewrite Hi, Nat.eqb_refl. reflexivity.
  - cbn [exec]. rewrite Hi, Nat.eqb_refl. reflexivity.
Qed.
End Moving.

(** ** Ownership *)

Section Ownership.
Context {N E : Type} {ordN : Ord N} {ordE : Ord E}.
Implicit Types (m : @memory N E) (g : graph) (t : edge_tuple) (w : @world N E).

(** X22. Whatever a program does with its graphs, copies and moves
    included, no node object and no edge object belongs to two of them;
    within a graph every object is stored once, and every pointer of a
    store points to an object that was allocated. *)
Theorem graphs_share_nothing (al : list (@action N E)) (m0 : @memory N E) w :
  run al {| heap := m0; vars := [] |} = Some w ->
  (forall i j gi gj, i <> j ->
     nth_error (vars w) i = Some gi -> nth_error (vars w) j = Some gj ->
     (forall p, In p (nodes_ gi) -> ~ In p (nodes_ gj))
     /\ (forall t t', In t (edges_ gi) -> In t' (edges_ gj) -> get2 t <> get2 t'))
  /\ (forall i g, nth_error (vars w) i = Some g ->
        NoDup (nodes_ g) /\ NoDup (map get2 (edges_ g))
        /\ (forall p, In p (nodes_ g) -> p < top (heap w))
        /\ (forall t, In t (edges_ g) -> get2 t < top (heap w))).
Proof.
  intros Hrun.
  destruct (run_sound al _ w (world_ok_init m0) Hrun) as [Hwf Hsep]. split.
  - intros i j gi gj Hij Hi Hj.
    destruct (Hsep i j gi gj Hij Hi Hj) as [Hn He]. split; [exact Hn|].
    intros t t' Ht Ht' Heq. apply (He (get2 t)).
    + unfold edge_ptrs. now apply in_map.
    + rewrite Heq. unfold edge_ptrs. now apply in_map.
  - intros i g Hi. pose proof (Hwf i g Hi) as H.
    split; [exact (sorted_by_NoDup (node_cell (heap w)) _
                     (wf_nodes_sorted _ g H))|].
    split; [exact (wf_edges_own _ g H)|]. split.
    + intros p Hp. exact (wf_node_lt _ g p H Hp).
    + intros t Ht.
      pose proof (wf_edges_alloc _ g H) as Ha. rewrite Forall_forall in Ha.
      now apply Ha.
Qed.
End Ownership.

(** ** Walking the iterators *)

Section Walking.
Context {N E : Type} {ordN : Ord N} {ordE : Ord E}.
Implicit Types (m : @memory N E) (g : graph) (t : edge_tuple).

Lemma skipn_nth_cons {A : Type} (l : list A) (i : nat) (a : A) :
  nth_error l i = Some a -> skipn i l = a :: skipn (S i) l.
Proof.
  revert i. induction l as [|x l IH]; intros [|i] H; try discriminate.
  - injection H as ->. reflexivity.
  - cbn [skipn]. apply IH. exact H.
Qed.

Lemma firstn_nth_snoc {A : Type} (l : list A) (i : nat) (a : A) :
  nth_error l i = Some a -> firstn (S i) l = firstn i l ++ [a].
Proof.
  revert i. induction l as [|x l IH]; intros [|i] H; try discriminate.
  - injection H as ->. reflexivity.
  - cbn [firstn app]. f_equal. apply IH. exact H.
Qed.

Lemma forward_skipn m g (fuel : nat) :
  forall it, it <= end_ g -> end_ g - it <= fuel ->
    forward fuel it g m = Some (skipn it (range g m)).
Proof.
  induction fuel as [|fuel IH]; intros it Hle Hfuel.
  - assert (it = end_ g) by lia. subst it. cbn [forward].
    unfold iter_eq. rewrite Nat.eqb_refl. unfold end_, range.
    rewrite <- (length_map (deref m)), skipn_all. reflexivity.
  - cbn [forward]. unfold iter_eq.
    destruct (Nat.eqb_spec it (end_ g)) as [->|Hne].
    + unfold end_, range. rewrite <- (length_map (deref m)), skipn_all.
      reflexivity.
    + unfold star. unfold end_ in *.
      destruct (nth_error (edges_ g) it) as [t|] eqn:Hnth.
      * cbn [pre_incr fst]. rewrite IH by lia.
        rewrite (skipn_nth_cons (range g m) it (deref m t)); [reflexivity|].
        unfold range. now rewrite nth_error_map, Hnth.
      * apply nth_error_None in Hnth. lia.
Qed.

Lemma backward_firstn m g (fuel : nat) :
  forall it, it <= end_ g -> it <= fuel ->
    backward fuel it g m = Some (rev (firstn it (range g m))).
Proof.
  induction fuel as [|fuel IH]; intros it Hle Hfuel.
  - assert (it = 0) by lia. subst it. reflexivity.
  - cbn [backward]. unfold iter_eq, begin.
    destruct it as [|k]; [reflexivity|]. cbn [Nat.eqb pre_decr fst snd Nat.pred].
    unfold star. unfold end_ in *.
    destruct (nth_error (edges_ g) k) as [t|] eqn:Hnth.
    + rewrite IH by lia.
      rewrite (firstn_nth_snoc (range g m) k (deref m t)).
      * rewrite rev_app_distr. reflexivity.
      * unfold range. now rewrite nth_error_map, Hnth.
    + apply nth_error_None in Hnth. lia.
Qed.

(** X23. Stepping an iterator from begin with ++ reaches end after as many
    steps as there are edges and yields the records of the graph in their
    order; stepping from end with -- reaches begin and yields them in the
    opposite order; from the iterator find returns, the walk yields the
    records from the found one on. *)
Theorem iterator_walk m g :
  forward (end_ g) (begin g) g m = Some (range g m)
  /\ backward (end_ g) (end_ g) g m = Some (rev (range g m))
  /\ (forall fuel, fuel < end_ g -> forward fuel (begin g) g m = None)
  /\ (forall src dst w,
        forward (end_ g) (find src dst w g m) g m
        = Some (skipn (find src dst w g m) (range g m)))
  /\ (forall it, fst (post_incr it) = fst (pre_incr it) /\ snd (post_incr it) = it
                 /\ fst (pre_decr (fst (pre_incr it))) = it
                 /\ iter_eq (base it) it = true).
Proof.
  split; [|split; [|split; [|split]]].
  - rewrite forward_skipn by (unfold begin; lia). reflexivity.
  - rewrite backward_firstn by lia. unfold end_, range.
    rewrite <- (length_map (deref m)), firstn_all. reflexivity.
  - assert (H : forall fuel it, it + fuel < end_ g ->
                  forward fuel it g m = None).
    { induction fuel as [|fuel IH]; intros it Hlt; cbn [forward];
        unfold iter_eq.
      - destruct (Nat.eqb_spec it (end_ g)); [lia|reflexivity].
      - destruct (Nat.eqb_spec it (end_ g)); [lia|].
        cbn [pre_incr fst]. rewrite IH by lia.
        destruct (star it g m); reflexivity. }
    intros fuel Hlt. apply H. unfold begin. lia.
  - intros src dst w. apply forward_skipn; [apply find_le|lia].
  - intros it. unfold iter_eq, base. cbn. rewrite Nat.eqb_refl. auto.
Qed.
End Walking.

(** ** Instances on the graph of the demonstration *)


Lemma insert_node_spec_witness :
  exists g' m',
    insert_node "why"%string demo_graph demo_mem = (true, g', m')
    /\ (forall x, is_node x g' m' = true <->
                  x = "why"%string \/ is_node x demo_graph demo_mem = true)
    /\ length (nodes g' m') = S (length (nodes demo_graph demo_mem))
    /\ to_list g' m' = to_list demo_graph demo_mem.
Proof.
  destruct (insert_node_spec demo_mem demo_graph "why"%string) as [_ H].
  - apply reachable_after. vm_compute. reflexivity.
  - apply H. vm_compute. reflexivity.
Defined.

Lemma nodes_spec_witness :
  sorted_by (fun v : string => v) (nodes demo_graph demo_mem)
  /\ NoDup (nodes demo_graph demo_mem)
  /\ (forall x, In x (nodes demo_graph demo_mem) <->
                is_node x demo_graph demo_mem = true)
  /\ (empty demo_graph = true <-> nodes demo_graph demo_mem = [])
  /\ (empty demo_graph = true ->
      range demo_graph demo_mem = [] /\ begin demo_graph = end_ demo_graph).
Proof.
  apply nodes_spec. apply reachable_after. vm_compute. reflexivity.
Defined.

Lemma is_connected_spec_witness :
  exists b,
    is_connected "hello"%string "how"%string demo_graph demo_mem = Ok b
    /\ (b = true <->
        exists w, In ("hello"%string, "how"%string, w)
                    (to_list demo_graph demo_mem)).
Proof.
  destruct (is_connected_spec demo_mem demo_graph "hello"%string "how"%string)
    as [_ H].
  - apply reachable_after. vm_compute. reflexivity.
  - apply H; vm_compute; reflexivity.
Defined.

Lemma edges_spec_witness :
  exists es,
    edges "hello"%string "are"%string demo_graph demo_mem = Ok es
    /\ map (fun e => (fst (get_nodes e), snd (get_nodes e), get_weight e)) es
       = filter (fun r => eqb (fst (fst r)) "hello"%string
                          && eqb (snd (fst r)) "are"%string)
           (to_list demo_graph demo_mem)
    /\ Forall (fun e => get_nodes e = ("hello"%string, "are"%string)) es
    /\ (forall w, In w (map get_weight es) <->
                  In ("hello"%string, "are"%string, w)
                    (to_list demo_graph demo_mem))
    /\ StronglySorted (fun a b => edge_comp a b = Lt) es
    /\ (forall (d : string) (x : Z),
          edge_comp (unweighted_edge "hello"%string d)
            (weighted_edge "hello"%string d x) = Lt).
Proof.
  destruct (edges_spec demo_mem demo_graph "hello"%string "are"%string)
    as [_ H].
  - apply reachable_after. vm_compute. reflexivity.
  - apply H; vm_compute; reflexivity.
Defined.

Lemma connections_spec_witness :
  exists l,
    connections "hello"%string demo_graph demo_mem = Ok l
    /\ sorted_by (fun v : string => v) l
    /\ NoDup l
    /\ (forall x, In x l <->
                  exists w, In ("hello"%string, x, w)
                              (to_list demo_graph demo_mem))
    /\ (forall x, In x l <->
                  is_connected "hello"%string x demo_graph demo_mem = Ok true).
Proof.
  destruct (connections_spec demo_mem demo_graph "hello"%string) as [_ H].
  - apply reachable_after. vm_compute. reflexivity.
  - apply H. vm_compute. reflexivity.
Defined.

Lemma erase_edge_spec_witness :
  exists b g',
    erase_edge "hello"%string "are"%string (Some 8%Z) demo_graph demo_mem
    = (Ok b, g', demo_mem)
    /\ (b = true <->
        In ("hello"%string, "are"%string, Some 8%Z) (to_list demo_graph demo_mem))
    /\ (b = false -> g' = demo_graph)
    /\ nodes g' demo_mem = nodes demo_graph demo_mem
    /\ to_list g' demo_mem
       = filter (fun r => negb (eqb r ("hello"%string, "are"%string, Some 8%Z)))
           (to_list demo_graph demo_mem)
    /\ (forall r, In r (to_list g' demo_mem) <->
                  In r (to_list demo_graph demo_mem)
                  /\ r <> ("hello"%string, "are"%string, Some 8%Z))
    /\ find "hello"%string "are"%string (Some 8%Z) g' demo_mem = end_ g'.
Proof.
  apply erase_edge_spec.
  - apply reachable_after. vm_compute. reflexivity.
  - vm_compute. reflexivity.
  - vm_compute. reflexivity.
Defined.

Lemma erase_edge_it_spec_witness :
  exists g',
    erase_edge_it 1 demo_graph = (1, g')
    /\ nodes g' demo_mem = nodes demo_graph demo_mem
    /\ range g' demo_mem
       = firstn 1 (range demo_graph demo_mem)
         ++ skipn 2 (range demo_graph demo_mem)
    /\ (forall v, nth_error (range demo_graph demo_mem) 1 = Some v ->
                  ~ In v (range g' demo_mem))
    /\ S (end_ g') = end_ demo_graph
    /\ nth_error (range g' demo_mem) 1 = nth_error (range demo_graph demo_mem) 2
    /\ (1 = end_ g' <-> 2 = end_ demo_graph).
Proof.
  apply erase_edge_it_spec.
  - apply reachable_after. vm_compute. reflexivity.
  - vm_compute. lia.
Defined.

Lemma erase_edge_range_spec_witness :
  exists g',
    erase_edge_range 1 3 demo_graph = (1, g')
    /\ nodes g' demo_mem = nodes demo_graph demo_mem
    /\ range g' demo_mem
       = firstn 1 (range demo_graph demo_mem)
         ++ skipn 3 (range demo_graph demo_mem)
    /\ end_ g' + (3 - 1) = end_ demo_graph
    /\ nth_error (range g' demo_mem) 1 = nth_error (range demo_graph demo_mem) 3
    /\ (1 = 3 -> g' = demo_graph)
    /\ (1 = begin demo_graph -> 3 = end_ demo_graph -> range g' demo_mem = []).
Proof.
  apply erase_edge_range_spec.
  - lia.
  - vm_compute. lia.
Defined.

Lemma erase_edge_found_witness :
  find "hello"%string "are"%string (Some 8%Z) demo_graph demo_mem
  < end_ demo_graph
  /\ erase_edge "hello"%string "are"%string (Some 8%Z) demo_graph demo_mem
     = (Ok true,
        snd (erase_edge_it
               (find "hello"%string "are"%string (Some 8%Z) demo_graph demo_mem)
               demo_graph),
        demo_mem).
Proof.
  apply erase_edge_found.
  - apply reachable_after. vm_compute. reflexivity.
  - vm_compute. right. right. left. reflexivity.
Defined.


(** The two graphs of [order_actions] are equal. *)
Example order_actions_equal :
  operator_eq (var_after order_actions 0) (var_after order_actions 1)
    (mem_after order_actions) = true.
Proof. vm_compute. reflexivity. Qed.

Lemma insert_erase_edge_roundtrip_witness :
  exists g1 m1 g2,
    insert_edge "you?"%string "hello"%string None demo_graph demo_mem
    = (Ok true, g1, m1)
    /\ erase_edge "you?"%string "hello"%string None g1 m1 = (Ok true, g2, m1)
    /\ nodes g2 m1 = nodes demo_graph demo_mem
    /\ to_list g2 m1 = to_list demo_graph demo_mem.
Proof.
  apply insert_erase_edge_roundtrip.
  - apply reachable_after. vm_compute. reflexivity.
  - vm_compute. reflexivity.
  - vm_compute. reflexivity.
  - vm_compute. intros H.
    repeat (destruct H as [H|H]; [discriminate H|]). exact H.
Defined.

Lemma insert_erase_node_roundtrip_witness :
  exists g1 m1 g2,
    insert_node "why"%string demo_graph demo_mem = (true, g1, m1)
    /\ erase_node "why"%string g1 m1 = (true, g2, m1)
    /\ nodes g2 m1 = nodes demo_graph demo_mem
    /\ to_list g2 m1 = to_list demo_graph demo_mem.
Proof.
  apply insert_erase_node_roundtrip.
  - apply reachable_after. vm_compute. reflexivity.
  - vm_compute. reflexivity.
Defined.

Lemma replace_node_roundtrip_witness :
  exists g1 m1 g2 m2,
    replace_node "how"%string "abc"%string demo_graph demo_mem = (Ok true, g1, m1)
    /\ replace_node "abc"%string "how"%string g1 m1 = (Ok true, g2, m2)
    /\ nodes g2 m2 = nodes demo_graph demo_mem
    /\ to_list g2 m2 = to_list demo_graph demo_mem.
Proof.
  apply replace_node_roundtrip.
  - apply reachable_after. vm_compute. reflexivity.
  - vm_compute. reflexivity.
  - vm_compute. reflexivity.
Defined.

Lemma iteration_order_witness :
  sorted_by triple (range demo_graph demo_mem)
  /\ NoDup (range demo_graph demo_mem)
  /\ length (range demo_graph demo_mem) = end_ demo_graph - begin demo_graph
  /\ (forall t, In t (edges_ demo_graph) ->
        from (deref demo_mem t) = node_cell demo_mem (get0 t)
        /\ to (deref demo_mem t) = node_cell demo_mem (get1 t))
  /\ (forall (a b c d : string) (x y : option Z),
        ltb (a, b, x) (c, d, y)
        = if eqb a c then (if eqb b d then ltb x y else ltb b d) else ltb a c)
  /\ (forall x : Z, ltb (@None Z) (Some x) = true).
Proof.
  apply iteration_order. apply reachable_after. vm_compute. reflexivity.
Defined.

Lemma insert_edge_effect_witness :
  exists b g' m',
    insert_edge "you?"%string "hello"%string None demo_graph demo_mem
    = (Ok b, g', m')
    /\ (b = false -> g' = demo_graph)
    /\ nodes g' m' = nodes demo_graph demo_mem
    /\ (forall r, In r (to_list g' m') <->
                  r = ("you?"%string, "hello"%string, None)
                  \/ In r (to_list demo_graph demo_mem))
    /\ length (to_list g' m')
       = (if b then S (length (to_list demo_graph demo_mem))
          else length (to_list demo_graph demo_mem))
    /\ is_connected "you?"%string "hello"%string g' m' = Ok true
    /\ (exists v,
          nth_error (range g' m')
            (find "you?"%string "hello"%string None g' m') = Some v
          /\ triple v = ("you?"%string, "hello"%string, None)).
Proof.
  apply insert_edge_effect.
  - apply reachable_after. vm_compute. reflexivity.
  - vm_compute. reflexivity.
  - vm_compute. reflexivity.
Defined.

Lemma comparators_spec_witness :
  (forall p q, In p (nodes_ demo_graph) -> In q (nodes_ demo_graph) ->
     (node_cell demo_mem p = node_cell demo_mem q -> p = q)
     /\ (compare_pp demo_mem p q = false -> compare_pp demo_mem q p = false ->
         p = q))
  /\ (forall x y, In x (edges_ demo_graph) -> In y (edges_ demo_graph) ->
        compare_edges_set demo_mem x y
        = ltb (edge_key demo_mem x) (edge_key demo_mem y)
        /\ (compare_edges_set demo_mem x y = true ->
            compare_edges_set demo_mem y x = false)
        /\ (compare_edges_set demo_mem x y = false ->
            compare_edges_set demo_mem y x = false -> x = y)).
Proof.
  apply comparators_spec. apply reachable_after. vm_compute. reflexivity.
Defined.

Lemma find_node_ptr_spec_witness :
  (forall p, find_node_ptr "how"%string demo_graph demo_mem = Some p <->
             In p (nodes_ demo_graph) /\ node_cell demo_mem p = "how"%string)
  /\ (find_node_ptr "how"%string demo_graph demo_mem = None <->
      is_node "how"%string demo_graph demo_mem = false)
  /\ (forall p, find_node_ptr "how"%string demo_graph demo_mem = Some p ->
                is_node "how"%string demo_graph demo_mem = true).
Proof.
  apply find_node_ptr_spec. apply reachable_after. vm_compute. reflexivity.
Defined.

Lemma move_spec_witness :
  exists w1 left,
    exec (New_move 0) (world_after demo_actions) = Some w1
    /\ heap w1 = heap (world_after demo_actions)
    /\ nth_error (vars w1) (length (vars (world_after demo_actions)))
       = Some demo_graph
    /\ nth_error (vars w1) 0 = Some left
    /\ empty left = true /\ nodes_ left = [] /\ edges_ left = []
    /\ (forall k, k <> 0 -> k < length (vars (world_after demo_actions)) ->
                  nth_error (vars w1) k
                  = nth_error (vars (world_after demo_actions)) k).
Proof.
  destruct (move_spec (world_after demo_actions) 0 demo_graph) as [H _].
  - vm_compute. reflexivity.
  - exact H.
Defined.

Lemma graphs_share_nothing_witness :
  (forall i j gi gj, i <> j ->
     nth_error (vars (world_after tour_actions)) i = Some gi ->
     nth_error (vars (world_after tour_actions)) j = Some gj ->
     (forall p, In p (nodes_ gi) -> ~ In p (nodes_ gj))
     /\ (forall t t', In t (edges_ gi) -> In t' (edges_ gj) ->
                      get2 t <> get2 t'))
  /\ (forall i g, nth_error (vars (world_after tour_actions)) i = Some g ->
        NoDup (nodes_ g) /\ NoDup (map get2 (edges_ g))
        /\ (forall p, In p (nodes_ g) -> p < top (heap (world_after tour_actions)))
        /\ (forall t, In t (edges_ g) ->
                      get2 t < top (heap (world_after tour_actions)))).
Proof.
  apply (graphs_share_nothing tour_actions mem0).
  vm_compute. reflexivity.
Defined.
